(** * BlenderFDS: the FDS namelist codec ([types/fds_namelist.py])

    A shallow embedding of [FDSNamelist], [FDSMany] and [FDSMulti]:
    classification of the entries of a namelist, the 80-column record
    writer of [to_fds], and the regular-expression scanner of [from_fds].

    - Text is modelled by [string]; the Python [len] of a text is
      [String.length], which agrees with it on texts whose characters are
      code points below 256.
    - A method that writes to [self] returns an [outcome]: what it
      returns or raises, together with the object as the call leaves it.
    - A namelist is a tree: no object occurs twice among its elements.
      The attributes [fds_label], [fds_params] and [msgs] make the state
      of a namelist; the buffers [_invariant_ps], [_additional_ns] and
      [_multi_ps], which [to_fds] overwrites on entry, are kept in the
      record [attrs] while classification runs.
    - [FDSParam] lives in [fds_param.py]: what the namelist reads of a
      parameter is data of the record [FDSParam.t], and the reading of a
      raw value in [from_fds] is a variable of the section [Parse]. *)

From Stdlib Require Import String Ascii List Bool Arith Lia.
Import ListNotations.
Local Open Scope string_scope.
Local Open Scope list_scope.
Local Open Scope nat_scope.

Local Set Warnings "-notation-for-abbreviation,-register-all".

(** * The module *)

(** ** Python values used by the module *)

(** Truth value of an attribute that is [None] or a [str]. *)
Definition truthy (o : option string) : bool :=
  match o with
  | None | Some EmptyString => false
  | Some _ => true
  end.

(** [x in xs] on a list of labels ([None] or [str]), by [==]. *)
Definition label_eqb (a b : option string) : bool :=
  match a, b with
  | None, None => true
  | Some x, Some y => String.eqb x y
  | _, _ => false
  end.

Definition label_in (a : option string) (xs : list (option string)) : bool :=
  existsb (label_eqb a) xs.

(** [s[:-1]]: the text without its last character. *)
Fixpoint remove_last (s : string) : string :=
  match s with
  | EmptyString => EmptyString
  | String _ EmptyString => EmptyString
  | String c r => String c (remove_last r)
  end.

Definition newline_char : ascii := "010"%char.
Definition LF : string := String newline_char EmptyString.

(** What a call leaves behind: a returned value or a raised exception,
    each with the state of the receiver at that point. *)
Inductive outcome (A S : Type) : Type :=
| Returned (a : A) (s : S)
| Raised (e : string * string) (s : S).

Arguments Returned {A S} a s.
Arguments Raised {A S} e s.

(** The two exceptions of [_classify_fds_param], as (class, message); the
    messages leave out the [repr] of the namelist. *)
Definition OneOnlyMulti : string * string :=
  ("Exception", "One only FDSMulti allowed").
Definition Unrecognized (repr : string) : string * string :=
  ("ValueError", ("Unrecognized type of <" ++ repr ++ ">")%string).

(** ** Data model *)

(** [FDSParam] is defined in [fds_param.py]; the namelist reads three
    things of it: the label, the comment messages, and the list of texts
    returned by [_get_formatted_values()], which is kept here as data. *)
Module FDSParam.
Record t : Type := mk {
  fds_label : option string;
  formatted_values : list string;
  msgs : list string
}.
End FDSParam.
Notation FDSParam := FDSParam.t.

(** [FDSMulti] is a list of sub-groups (each a list of [FDSParam]) that
    carries messages. *)
Record FDSMulti : Type := mkMulti {
  multi_ps : list (list FDSParam);
  multi_msgs : list string
}.

(** An element of [fds_params]: [None], an [FDSParam], an [FDSNamelist],
    an [FDSMany] (a list of elements with messages), an [FDSMulti], or any
    other object, kept by its [repr]. *)
Inductive entry : Type :=
| PNone
| PParam (p : FDSParam)
| PNamelist (n : FDSNamelist)
| PMany (items : list entry) (many_msgs : list string)
| PMulti (m : FDSMulti)
| POther (repr : string)
with FDSNamelist : Type :=
| Namelist (fds_label : option string) (fds_params : list entry)
           (msgs : list string).

Definition fds_label (n : FDSNamelist) : option string :=
  let 'Namelist l _ _ := n in l.
Definition fds_params (n : FDSNamelist) : list entry :=
  let 'Namelist _ ps _ := n in ps.
Definition msgs (n : FDSNamelist) : list string :=
  let 'Namelist _ _ ms := n in ms.

(** ** Classification *)

(** The attributes of [self] that classification writes: the three
    buffers that [to_fds] resets on entry, and [msgs]. *)
Record attrs : Type := mkAttrs {
  _invariant_ps : list FDSParam;
  _additional_ns : list FDSNamelist;
  _multi_ps : option FDSMulti;
  self_msgs : list string
}.

(** Truth value of [self._multi_ps]: [None] and the empty list are false. *)
Definition multi_truthy (m : option FDSMulti) : bool :=
  match m with
  | Some (mkMulti (_ :: _) _) => true
  | _ => false
  end.

Definition extend_msgs (a : attrs) (ms : list string) : attrs :=
  mkAttrs (_invariant_ps a) (_additional_ns a) (_multi_ps a) (self_msgs a ++ ms).

Fixpoint _classify_fds_param (a : attrs) (p : entry) : outcome unit attrs :=
  match p with
  | PNone => Returned tt a
  | PParam q =>
      Returned tt
        (mkAttrs (_invariant_ps a ++ [q]) (_additional_ns a) (_multi_ps a)
                 (self_msgs a ++ FDSParam.msgs q))
  | PNamelist n =>
      Returned tt
        (mkAttrs (_invariant_ps a) (_additional_ns a ++ [n]) (_multi_ps a)
                 (self_msgs a ++ msgs n))
  | PMany items ms =>
      let fix each (a : attrs) (pps : list entry) : outcome unit attrs :=
        match pps with
        | [] => Returned tt a
        | pp :: rest =>
            match _classify_fds_param a pp with
            | Returned _ a' => each a' rest
            | Raised e a' => Raised e a'
            end
        end in
      match each a items with
      | Returned _ a' => Returned tt (extend_msgs a' ms)
      | Raised e a' => Raised e a'
      end
  | PMulti m =>
      if multi_truthy (_multi_ps a) then Raised OneOnlyMulti a
      else
        Returned tt
          (mkAttrs (_invariant_ps a) (_additional_ns a) (Some m)
                   (self_msgs a ++ multi_msgs m))
  | POther r => Raised (Unrecognized r) a
  end.

(** [for p in ps: self._classify_fds_param(p)] *)
Fixpoint classify_all (a : attrs) (ps : list entry) : outcome unit attrs :=
  match ps with
  | [] => Returned tt a
  | p :: rest =>
      match _classify_fds_param a p with
      | Returned _ a' => classify_all a' rest
      | Raised e a' => Raised e a'
      end
  end.

(** The list [nls] of records: each one a list of [FDSParam]. *)
Definition nls_of (a : attrs) : list (list FDSParam) :=
  match _multi_ps a with
  | Some (mkMulti ((first :: _) as groups) _) =>
      let multi_ps_fds_labels := map FDSParam.fds_label first in
      let invariant :=
        filter (fun p => negb (label_in (FDSParam.fds_label p) multi_ps_fds_labels))
               (_invariant_ps a) in
      map (fun multi_p => invariant ++ multi_p) groups
  | _ => [_invariant_ps a]
  end.

(** ** The record writer *)

(** Max number of columns of formatted output. *)
Definition MAXLEN : nat := 80.

(** The variables of the loop over the parameters of one record:
    the lines appended to [lines] so far, the current [line], and the
    flag [newline]. *)
Record writer : Type := mkWriter {
  lines : list string;
  line : string;
  newline : bool
}.

(** [f"&{self.fds_label}"] with [newline = False]. *)
Definition open_record (label : string) : writer :=
  mkWriter [] (String "&" label) false.

(** One turn of [for v in vs] when the formatted values need splitting. *)
Definition split_step (acc : list string * string) (v : string)
  : list string * string :=
  let '(ls, l) := acc in
  if String.length l + String.length v + 1 <=? MAXLEN
  then (ls, (l ++ v ++ ",")%string)
  else (ls ++ [l], ("        " ++ v ++ ",")%string).

Definition split_values (vs : list string) (acc : list string * string)
  : list string * string :=
  fold_left split_step vs acc.

(** The body of [for p in nl]. *)
Definition write_param (w : writer) (p : FDSParam) : writer :=
  if negb (truthy (FDSParam.fds_label p)) then w
  else
    let label := match FDSParam.fds_label p with Some l => l | None => EmptyString end in
    match FDSParam.formatted_values p with
    | [] =>
        if negb (newline w)
           && (String.length (line w) + 1 + String.length label <=? MAXLEN)
        then mkWriter (lines w) (line w ++ " " ++ label) false
        else mkWriter (lines w ++ [line w]) ("      " ++ label) (newline w)
    | vs =>
        let v := String.concat "," vs in
        if negb (newline w)
           && (String.length (line w) + 1 + String.length label + 1
               + String.length v <=? MAXLEN)
        then mkWriter (lines w) (line w ++ " " ++ label ++ "=" ++ v) false
        else
          let lines1 := lines w ++ [line w] in
          let line1 := ("      " ++ label ++ "=")%string in
          if String.length line1 + String.length v <=? MAXLEN
          then mkWriter lines1 (line1 ++ v) (newline w)
          else
            let '(ls, l) := split_values vs (lines1, line1) in
            mkWriter ls (remove_last l) true
    end.

(** The lines that one record [nl] appends to [lines]. *)
Definition write_record (label : string) (nl : list FDSParam) : list string :=
  let w := fold_left write_param nl (open_record label) in
  lines w ++ [(line w ++ " /")%string].

(** [if self.fds_label: for nl in nls: ...] *)
Definition namelist_lines (label : option string) (nls : list (list FDSParam))
  : list string :=
  match label with
  | Some l => if truthy label then flat_map (write_record l) nls else []
  | None => []
  end.

(** [list(f"! {m}" for m in self.msgs if m)] *)
Definition message_lines (ms : list string) : list string :=
  map (fun m => ("! " ++ m)%string)
      (filter (fun m => negb (String.eqb m EmptyString)) ms).

(** ** Serialization *)

(** The traversal of the nested namelists, in the order in which
    classification appends them to [_additional_ns]: the texts returned so
    far and the exception raised, if any. *)
Definition progress : Type := list string * option (string * string).

(** [to_fds] on a namelist. The calls [n.to_fds(context)] on the nested
    namelists are made by [additional], which walks the elements of
    [fds_params] in the order of classification and leaves each nested
    namelist in the state its call gives it; a namelist that comes after
    an exception is not called. That these are the calls on the list
    [_additional_ns], in its order, is [additional_is_extend] below. *)
Fixpoint to_fds (n : FDSNamelist) : outcome string FDSNamelist :=
  let 'Namelist label ps ms := n in
  match classify_all (mkAttrs [] [] None ms) ps with
  | Raised e a => Raised e (Namelist label ps (self_msgs a))
  | Returned _ a =>
      let nls := nls_of a in
      let lines0 := message_lines (self_msgs a) in
      let fix each (ps : list entry) (acc : progress) : list entry * progress :=
        match ps with
        | [] => ([], acc)
        | p :: rest =>
            let '(p', acc1) := additional p acc in
            let '(rest', acc2) := each rest acc1 in
            (p' :: rest', acc2)
        end in
      let '(ps', (texts, exn)) := each ps ([], None) in
      match exn with
      | Some e => Raised e (Namelist label ps' (self_msgs a))
      | None =>
          Returned
            (String.concat LF (lines0 ++ texts ++ namelist_lines label nls))
            (Namelist label ps' (self_msgs a))
      end
  end
with additional (p : entry) (acc : progress) : entry * progress :=
  match p with
  | PNamelist n =>
      match snd acc with
      | Some _ => (p, acc)
      | None =>
          match to_fds n with
          | Returned text n' => (PNamelist n', (fst acc ++ [text], None))
          | Raised e n' => (PNamelist n', (fst acc, Some e))
          end
      end
  | PMany items ms =>
      let fix each (ps : list entry) (acc : progress) : list entry * progress :=
        match ps with
        | [] => ([], acc)
        | p :: rest =>
            let '(p', acc1) := additional p acc in
            let '(rest', acc2) := each rest acc1 in
            (p' :: rest', acc2)
        end in
      let '(items', acc') := each items acc in
      (PMany items' ms, acc')
  | _ => (p, acc)
  end.

Definition text_of (o : outcome string FDSNamelist) : option string :=
  match o with
  | Returned t _ => Some t
  | Raised _ _ => None
  end.

Definition state_of {A S : Type} (o : outcome A S) : S :=
  match o with
  | Returned _ s => s
  | Raised _ s => s
  end.

(** [additional] over a list of elements, as the local loops of [to_fds]
    and [additional] run it. *)
Fixpoint additional_all (ps : list entry) (acc : progress)
  : list entry * progress :=
  match ps with
  | [] => ([], acc)
  | p :: rest =>
      let '(p', acc1) := additional p acc in
      let '(rest', acc2) := additional_all rest acc1 in
      (p' :: rest', acc2)
  end.

(** [lines.extend(n.to_fds(context) for n in self._additional_ns)], read
    off the list [_additional_ns] itself. *)
Fixpoint extend_additional (ns : list FDSNamelist) (acc : progress)
  : list FDSNamelist * progress :=
  match ns with
  | [] => ([], acc)
  | n :: rest =>
      match snd acc with
      | Some _ => (ns, acc)
      | None =>
          match to_fds n with
          | Returned text n' =>
              let '(rest', acc') := extend_additional rest (fst acc ++ [text], None) in
              (n' :: rest', acc')
          | Raised e n' => (n' :: rest, (fst acc, Some e))
          end
      end
  end.

(** ** Regular expressions, run by backtracking as [re] runs them *)

(** The constructs of the pattern of [_RE_SCAN_PARAMS]: a set of
    characters, sequence, alternative, repetition (greedy [*] or lazy
    [*?]), numbered group, lookahead [(?=...)] and [$]. *)
Inductive regex : Type :=
| Chars (accept : ascii -> bool)
| Cat (r1 r2 : regex)
| Alt (r1 r2 : regex)
| Star (greedy : bool) (r : regex)
| Group (i : nat) (r : regex)
| Ahead (r : regex)
| EndOfText.

(** The groups matched so far, latest first, and what a match gives: the
    groups and the text that follows the match. *)
Definition captures : Type := list (nat * string).
Definition found : Type := captures * string.

(** The turns of a repetition whose body is matched by [body]: a greedy
    one tries another turn first, a lazy one tries what follows first. A
    turn that consumed no character is not followed by another one, so
    the text bounds the number [n] of turns. *)
Fixpoint turns (body : string -> captures -> (string -> captures -> option found)
                       -> option found)
         (greedy : bool) (k : string -> captures -> option found)
         (n : nat) (s : string) (c : captures) {struct n} : option found :=
  match n with
  | 0 => k s c
  | S n' =>
      if greedy then
        match body s c
                (fun s' c' =>
                   if String.length s' <? String.length s
                   then turns body greedy k n' s' c' else None) with
        | Some x => Some x
        | None => k s c
        end
      else
        match k s c with
        | Some x => Some x
        | None =>
            body s c
              (fun s' c' =>
                 if String.length s' <? String.length s
                 then turns body greedy k n' s' c' else None)
        end
  end.

(** [rmatch r s c k]: match [r] at the head of [s], then go on with [k] on
    the rest; the first way that makes [k] succeed wins, alternatives
    being tried in the order of the pattern. [$] is written without
    [MULTILINE]: the end of the text, or just before a final newline. *)
Fixpoint rmatch (r : regex) (s : string) (c : captures)
         (k : string -> captures -> option found) {struct r} : option found :=
  match r with
  | Chars accept =>
      match s with
      | String a rest => if accept a then k rest c else None
      | EmptyString => None
      end
  | Cat r1 r2 => rmatch r1 s c (fun s1 c1 => rmatch r2 s1 c1 k)
  | Alt r1 r2 =>
      match rmatch r1 s c k with
      | Some x => Some x
      | None => rmatch r2 s c k
      end
  | Star greedy r1 => turns (rmatch r1) greedy k (String.length s) s c
  | Group i r1 =>
      rmatch r1 s c
        (fun s' c' =>
           k s' ((i, substring 0 (String.length s - String.length s') s) :: c'))
  | Ahead r1 =>
      match rmatch r1 s c (fun s' c' => Some (c', s')) with
      | Some (c', _) => k s c'
      | None => None
      end
  | EndOfText =>
      match s with
      | EmptyString => k s c
      | String a EmptyString => if Ascii.eqb a newline_char then k s c else None
      | String _ _ => None
      end
  end.

Definition plus (greedy : bool) (r : regex) : regex := Cat r (Star greedy r).
Definition lit (a : ascii) : regex := Chars (Ascii.eqb a).

Definition code (a : ascii) : nat := nat_of_ascii a.

(** [str.isspace] and the class [\s], on code points below 256. *)
Definition is_space (a : ascii) : bool :=
  let n := code a in
  ((9 <=? n) && (n <=? 13)) || ((28 <=? n) && (n <=? 32))
  || (n =? 133) || (n =? 160).

(** [[A-Z]] under [IGNORECASE]. *)
Definition is_letter (a : ascii) : bool :=
  let n := code a in
  ((65 <=? n) && (n <=? 90)) || ((97 <=? n) && (n <=? 122)).

Definition is_digit (a : ascii) : bool :=
  let n := code a in (48 <=? n) && (n <=? 57).

(** [[A-Z0-9_\(\):,]] under [IGNORECASE]. *)
Definition is_label_char (a : ascii) : bool :=
  is_letter a || is_digit a
  || Ascii.eqb a "_" || Ascii.eqb a "(" || Ascii.eqb a ")"
  || Ascii.eqb a ":" || Ascii.eqb a ",".

(** [[,\s\t]] *)
Definition is_separator (a : ascii) : bool :=
  Ascii.eqb a "," || is_space a.

Definition any_char : regex := Chars (fun _ => true).
Definition quote : ascii := "'"%char.
Definition dquote : ascii := "034"%char.

(** [[A-Z][A-Z0-9_\(\):,]*?] *)
Definition re_label : regex := Cat (Chars is_letter) (Star false (Chars is_label_char)).

(** [[,\s\t]*] *)
Definition re_separators : regex := Star true (Chars is_separator).

(** [(?:'.*?'|".*?"|.+?)*?] *)
Definition re_value : regex :=
  Star false
    (Alt (Cat (lit quote) (Cat (Star false any_char) (lit quote)))
    (Alt (Cat (lit dquote) (Cat (Star false any_char) (lit dquote)))
         (plus false any_char))).

(** [(?=(?:[,\s\t]+[A-Z][A-Z0-9_\(\):,]*?[,\s\t]*=)|$)] *)
Definition re_value_end : regex :=
  Ahead
    (Alt (Cat (plus true (Chars is_separator))
         (Cat re_label (Cat re_separators (lit "="))))
         EndOfText).

Definition _RE_SCAN_PARAMS : regex :=
  Cat (Group 1 re_label)
 (Cat re_separators
 (Cat (lit "=")
 (Cat re_separators
      (Group 2 (Cat re_value re_value_end))))).

(** [match.groups()] for a pattern with two groups. *)
Fixpoint group (i : nat) (c : captures) : string :=
  match c with
  | [] => EmptyString
  | (j, text) :: rest => if i =? j then text else group i rest
  end.

Definition groups (c : captures) : string * string := (group 1 c, group 2 c).

(** [re.finditer]: the matches from left to right, each search starting
    where the match before it ended. *)
Fixpoint finditer (fuel : nat) (r : regex) (s : string) : list captures :=
  match fuel with
  | 0 => []
  | S fuel' =>
      match rmatch r s [] (fun s' c => Some (c, s')) with
      | Some (c, s') =>
          c :: (if String.length s' <? String.length s
                then finditer fuel' r s'
                else match s with
                     | EmptyString => []
                     | String _ rest => finditer fuel' r rest
                     end)
      | None =>
          match s with
          | EmptyString => []
          | String _ rest => finditer fuel' r rest
          end
      end
  end.

Definition scan_params (s : string) : list (string * string) :=
  map groups (finditer (S (String.length s)) _RE_SCAN_PARAMS s).

(** ** Parsing *)

Definition CR : ascii := "013"%char.

(** The line boundaries of [str.splitlines], on code points below 256. *)
Definition is_linebreak (a : ascii) : bool :=
  let n := code a in
  ((10 <=? n) && (n <=? 13)) || ((28 <=? n) && (n <=? 30)) || (n =? 133).

(** [str.strip()] *)
Fixpoint lstrip (s : string) : string :=
  match s with
  | EmptyString => EmptyString
  | String a rest => if is_space a then lstrip rest else s
  end.

Fixpoint rstrip (s : string) : string :=
  match s with
  | EmptyString => EmptyString
  | String a rest =>
      match rstrip rest with
      | EmptyString => if is_space a then EmptyString else String a EmptyString
      | kept => String a kept
      end
  end.

Definition strip (s : string) : string := rstrip (lstrip s).

(** [str.splitlines()]: [cur] is the line being read; a carriage return
    followed by a newline is one boundary; no line is added after a final
    boundary. *)
Fixpoint splitlines_from (cur s : string) : list string :=
  match s with
  | EmptyString =>
      match cur with
      | EmptyString => []
      | _ => [cur]
      end
  | String a rest =>
      if is_linebreak a then
        match rest with
        | String b rest' =>
            if Ascii.eqb a CR && Ascii.eqb b newline_char
            then cur :: splitlines_from EmptyString rest'
            else cur :: splitlines_from EmptyString rest
        | EmptyString => [cur]
        end
      else splitlines_from (cur ++ String a EmptyString) rest
  end.

Definition splitlines (s : string) : list string :=
  splitlines_from EmptyString s.

(** [" ".join(f90.strip().splitlines())] *)
Definition join_lines (f90 : string) : string :=
  String.concat " " (splitlines (strip f90)).

Section Parse.

(** [FDSParam(fds_label=label)] followed by [from_fds(f90=f90_value)]
    on it: both are defined in [fds_param.py]; the call gives the
    parameter read from the raw value, or the exception it raises. *)
Variable param_from_fds : string -> string -> (string * string) + FDSParam.

(** The loop over the matches: each parameter is appended to
    [self.fds_params] as soon as it is read. *)
Fixpoint append_params (n : FDSNamelist) (matches : list (string * string))
  : outcome unit FDSNamelist :=
  match matches with
  | [] => Returned tt n
  | (label, f90_value) :: rest =>
      match param_from_fds label f90_value with
      | inl e => Raised e n
      | inr fds_param =>
          append_params
            (Namelist (fds_label n) (fds_params n ++ [PParam fds_param]) (msgs n))
            rest
      end
  end.

Definition from_fds (n : FDSNamelist) (f90 : string)
  : outcome unit FDSNamelist :=
  append_params n (scan_params (join_lines f90)).

(** The parameters read from the matches, in order, up to the first
    exception. *)
Fixpoint read_params (matches : list (string * string))
  : (string * string) + list FDSParam :=
  match matches with
  | [] => inr []
  | (label, f90_value) :: rest =>
      match param_from_fds label f90_value with
      | inl e => inl e
      | inr p =>
          match read_params rest with
          | inl e => inl e
          | inr ps => inr (p :: ps)
          end
      end
  end.

End Parse.

(** * Vocabulary of the properties *)

(** ** Flattening *)

(** The elements that classification meets, in order, once every
    [FDSMany] is replaced by its contents followed by an empty [FDSMany]
    that carries its messages. *)
Fixpoint flatten (p : entry) : list entry :=
  match p with
  | PMany items ms => flat_map flatten items ++ [PMany [] ms]
  | _ => [p]
  end.

Definition flatten_all (ps : list entry) : list entry := flat_map flatten ps.

Definition params_of (ps : list entry) : list FDSParam :=
  flat_map (fun p => match p with PParam q => [q] | _ => [] end) ps.

Definition namelists_of (ps : list entry) : list FDSNamelist :=
  flat_map (fun p => match p with PNamelist n => [n] | _ => [] end) ps.

Definition multis_of (ps : list entry) : list FDSMulti :=
  flat_map (fun p => match p with PMulti m => [m] | _ => [] end) ps.

Definition msgs_of (ps : list entry) : list string :=
  flat_map (fun p => match p with
                     | PParam q => FDSParam.msgs q
                     | PNamelist n => msgs n
                     | PMany _ ms => ms
                     | PMulti m => multi_msgs m
                     | _ => []
                     end) ps.

Definition recognized (p : entry) : bool :=
  match p with
  | POther _ => false
  | _ => true
  end.

(** What [self._multi_ps] holds after the Multi-groups [ms] are met in
    turn, or [None] when one of them raises. *)
Fixpoint capture (cur : option FDSMulti) (ms : list FDSMulti)
  : option (option FDSMulti) :=
  match ms with
  | [] => Some cur
  | m :: rest => if multi_truthy cur then None else capture (Some m) rest
  end.

(** ** Induction over nested elements *)

Section NestedInduction.
Variable Pe : entry -> Prop.
Variable Pn : FDSNamelist -> Prop.
Hypothesis HNone : Pe PNone.
Hypothesis HParam : forall q, Pe (PParam q).
Hypothesis HNamelist : forall n, Pn n -> Pe (PNamelist n).
Hypothesis HMany : forall items ms, Forall Pe items -> Pe (PMany items ms).
Hypothesis HMulti : forall m, Pe (PMulti m).
Hypothesis HOther : forall r, Pe (POther r).
Hypothesis HList : forall l ps ms, Forall Pe ps -> Pn (Namelist l ps ms).

Fixpoint entry_nested_ind (p : entry) : Pe p :=
  match p with
  | PNone => HNone
  | PParam q => HParam q
  | PNamelist n => HNamelist n (namelist_nested_ind n)
  | PMany items ms =>
      HMany items ms
        ((fix all (l : list entry) : Forall Pe l :=
            match l with
            | [] => Forall_nil Pe
            | x :: r => Forall_cons x (entry_nested_ind x) (all r)
            end) items)
  | PMulti m => HMulti m
  | POther r => HOther r
  end
with namelist_nested_ind (n : FDSNamelist) : Pn n :=
  match n with
  | Namelist l ps ms =>
      HList l ps ms
        ((fix all (l : list entry) : Forall Pe l :=
            match l with
            | [] => Forall_nil Pe
            | x :: r => Forall_cons x (entry_nested_ind x) (all r)
            end) ps)
  end.
End NestedInduction.

(** An element that is not an [FDSMany] with contents. *)
Definition leaf (p : entry) : Prop :=
  match p with
  | PMany (_ :: _) _ => False
  | _ => True
  end.

Definition agrees (before after : list entry) (acc acc' : progress) : Prop :=
  extend_additional (namelists_of before) acc = (namelists_of after, acc').

(** ** Records *)

Definition init_attrs (ms : list string) : attrs := mkAttrs [] [] None ms.

(** The invariant parameters that survive shadowing by [first]. *)
Definition surviving (first invariant : list FDSParam) : list FDSParam :=
  filter (fun p => negb (label_in (FDSParam.fds_label p)
                                  (map FDSParam.fds_label first)))
         invariant.

(** ** Sample parameters *)

Definition ID_A : FDSParam := FDSParam.mk (Some "ID") ["'A'"] [].

Definition SURF_INERT : FDSParam := FDSParam.mk (Some "SURF_ID") ["'INERT'"] [].
Definition ID_inv : FDSParam := FDSParam.mk (Some "ID") ["'all'"] [].
Definition ID_B : FDSParam := FDSParam.mk (Some "ID") ["'B'"] [].
Definition XB_unit : FDSParam :=
  FDSParam.mk (Some "XB") ["0.000"; "1.000"; "0.000"; "1.000"; "0.000"; "1.000"] [].
Definition two_obst : FDSMulti := mkMulti [[ID_A; XB_unit]; [ID_B; XB_unit]] [].
Definition obst_entries : list entry :=
  [PParam SURF_INERT; PParam ID_inv; PMulti two_obst].

(** ** Messages *)

Definition no_msgs (ms : list string) : bool :=
  match ms with
  | [] => true
  | _ :: _ => false
  end.

(** An element that carries no message, at any depth. *)
Fixpoint quiet (p : entry) : bool :=
  match p with
  | PNone => true
  | PParam q => no_msgs (FDSParam.msgs q)
  | PNamelist (Namelist _ ps ms) => no_msgs ms && forallb quiet ps
  | PMany items ms => no_msgs ms && forallb quiet items
  | PMulti m => no_msgs (multi_msgs m)
  | POther _ => true
  end.

Definition T_END_setup : FDSParam :=
  FDSParam.mk (Some "T_END") ["0.0"] ["Smokeview setup only"].

(** ** The layout of split values *)

(** The full token of a parameter: [LABEL] or [LABEL=v1,v2,...]. *)
Definition label_of (p : FDSParam) : string :=
  match FDSParam.fds_label p with
  | Some l => l
  | None => EmptyString
  end.

Definition token (p : FDSParam) : string :=
  match FDSParam.formatted_values p with
  | [] => label_of p
  | vs => (label_of p ++ "=" ++ String.concat "," vs)%string
  end.

(** Values written one after the other, each followed by a comma. *)
Fixpoint commas (vs : list string) : string :=
  match vs with
  | [] => EmptyString
  | v :: rest => (v ++ "," ++ commas rest)%string
  end.

(** A continuation line: 8 spaces, then a first value and the values
    that follow it on the line. *)
Definition continuation (c : string * list string) : string :=
  ("        " ++ fst c ++ "," ++ commas (snd c))%string.

(** The values [c] were each appended to the line that starts as [l]
    because they fitted with their comma. *)
Fixpoint packed (l : string) (c : list string) : Prop :=
  match c with
  | [] => True
  | v :: rest =>
      String.length l + String.length v + 1 <= MAXLEN /\
      packed (l ++ v ++ ",") rest
  end.

(** The greedy layout: [c0] is packed on the line that starts as [l], and
    each continuation line starts with the first value that, with its
    comma, would have overflowed the line before it. *)
Fixpoint greedy_from (l : string) (c0 : list string)
         (conts : list (string * list string)) : Prop :=
  packed l c0 /\
  match conts with
  | [] => True
  | c :: more =>
      MAXLEN < String.length (l ++ commas c0) + String.length (fst c) + 1 /\
      greedy_from ("        " ++ fst c ++ ",") (snd c) more
  end.

Definition values_of (c0 : list string) (conts : list (string * list string))
  : list string :=
  c0 ++ flat_map (fun c => fst c :: snd c) conts.

Definition rendered (l : string) (c0 : list string)
           (conts : list (string * list string)) : list string :=
  (l ++ commas c0)%string :: map continuation conts.

Definition starts_with (pre s : string) : Prop :=
  exists t, s = (pre ++ t)%string.

(** ** One parameter at a time *)

(** The writer after the values of a parameter have been split. *)
Definition split_writer (w : writer) (label : string) (vs : list string)
  : writer :=
  let '(ls, l) :=
    split_values vs (lines w ++ [line w], ("      " ++ label ++ "=")%string) in
  mkWriter ls (remove_last l) true.

(** The current line is flushed and the parameter starts a new line
    indented with 6 spaces; the whole token is on it when the parameter has
    no value or the token fits there. *)
Definition flushed (w w' : writer) (p : FDSParam) : Prop :=
  exists fresh more,
    lines w' ++ [line w'] = lines w ++ line w :: fresh :: more /\
    starts_with ("      " ++ label_of p) fresh /\
    (FDSParam.formatted_values p = [] \/ 6 + String.length (token p) <= MAXLEN ->
     fresh = ("      " ++ token p)%string /\ more = []).

(** ** Greedy packing *)

(** The parameter [p] is written by splitting its values. *)
Definition is_split (w : writer) (p : FDSParam) : Prop :=
  FDSParam.formatted_values p <> [] /\
  (newline w = true \/
   MAXLEN < String.length (line w) + 1 + String.length (token p)) /\
  MAXLEN < 6 + String.length (token p).

Definition v36 : string := "123456789012345678901234567890123456".
Definition v37 : string := (v36 ++ "7")%string.
Definition X_long : FDSParam := FDSParam.mk (Some "X") [v36; v37] [].

(** ** Column budget *)

Definition within (l : string) : Prop := String.length l <= MAXLEN.

(** A parameter whose label leaves room for [LABEL=] after the 6-space
    indentation, and whose values each fit, with a comma, after the
    8-space indentation. *)
Definition small_param (p : FDSParam) : Prop :=
  String.length (label_of p) <= MAXLEN - 7 /\
  Forall (fun v => String.length v <= MAXLEN - 9) (FDSParam.formatted_values p).

(** The lines of one record: all within the budget, the last one measured
    before its closing [" /"]. *)
Definition record_within (r : list string) : Prop :=
  exists front last,
    r = front ++ [(last ++ " /")%string] /\ Forall within front /\ within last.

Definition v80 : string := (v36 ++ v36 ++ "12345678")%string.
Definition ID_wide : FDSParam := FDSParam.mk (Some "ID") [v80] [].

(** ** The lines of a record *)

(** The block of lines of one record: it opens with [&LABEL] and its last
    line is closed by [" /"]. *)
Definition record_block (label : string) (r : list string) : Prop :=
  (exists t body, r = (String "&" label ++ t)%string :: body) /\
  (exists front last, r = front ++ [(last ++ " /")%string]).

(** ** What a match consumes *)

(** [t] is what is left of [s] after some characters. *)
Definition suffix (t s : string) : Prop := exists pre, s = (pre ++ t)%string.

(** The character [a] occurs in [s]. *)
Definition occurs (a : ascii) (s : string) : Prop :=
  exists x y, s = (x ++ String a y)%string.

(** A successful match is a success of what follows, on some rest of the
    text. *)
Definition continues
           (m : string -> captures -> (string -> captures -> option found)
                -> option found) : Prop :=
  forall s c k x,
    m s c k = Some x -> exists s' c', suffix s' s /\ k s' c' = Some x.

(** ** Spans *)

(** A pattern without groups. *)
Fixpoint group_free (r : regex) : bool :=
  match r with
  | Chars _ => true
  | Cat r1 r2 => group_free r1 && group_free r2
  | Alt r1 r2 => group_free r1 && group_free r2
  | Star _ r1 => group_free r1
  | Group _ _ => false
  | Ahead r1 => group_free r1
  | EndOfText => true
  end.

(** [consumes r pre]: the text [pre] is one that [r] can consume; a
    lookahead and [$] consume nothing. *)
Inductive consumes : regex -> string -> Prop :=
| consumes_chars (accept : ascii -> bool) (a : ascii) :
    accept a = true -> consumes (Chars accept) (String a EmptyString)
| consumes_cat (r1 r2 : regex) (p1 p2 : string) :
    consumes r1 p1 -> consumes r2 p2 -> consumes (Cat r1 r2) (p1 ++ p2)
| consumes_alt_l (r1 r2 : regex) (p : string) :
    consumes r1 p -> consumes (Alt r1 r2) p
| consumes_alt_r (r1 r2 : regex) (p : string) :
    consumes r2 p -> consumes (Alt r1 r2) p
| consumes_star_stop (g : bool) (r : regex) :
    consumes (Star g r) EmptyString
| consumes_star_turn (g : bool) (r : regex) (p1 p2 : string) :
    consumes r p1 -> consumes (Star g r) p2 -> consumes (Star g r) (p1 ++ p2)
| consumes_ahead (r : regex) : consumes (Ahead r) EmptyString
| consumes_end : consumes EndOfText EmptyString.

Fixpoint all_chars (f : ascii -> bool) (s : string) : bool :=
  match s with
  | EmptyString => true
  | String a rest => f a && all_chars f rest
  end.

(** A label: a letter, then label characters. *)
Definition is_label (s : string) : bool :=
  match s with
  | EmptyString => false
  | String a rest => is_letter a && all_chars is_label_char rest
  end.

(** [spans s ms]: the pairs [ms] are the labels and values of spans
    [LABEL = VALUE] that follow one another in [s], separators allowed
    around the [=] sign. *)
Inductive spans : string -> list (string * string) -> Prop :=
| spans_none (s : string) : spans s []
| spans_next (before label sep1 sep2 value rest : string)
             (ms : list (string * string)) :
    is_label label = true ->
    all_chars is_separator sep1 = true ->
    all_chars is_separator sep2 = true ->
    spans rest ms ->
    spans (before ++ label ++ sep1 ++ "=" ++ sep2 ++ value ++ rest)
          ((label, value) :: ms).

(** ** One line *)

Fixpoint no_break (s : string) : bool :=
  match s with
  | EmptyString => true
  | String a rest => negb (is_linebreak a) && no_break rest
  end.

(** [a in s], by a scan of [s]. *)
Fixpoint mentions (a : ascii) (s : string) : bool :=
  match s with
  | EmptyString => false
  | String b rest => Ascii.eqb a b || mentions a rest
  end.

(** A reader that keeps the raw value as the only formatted value. *)
Definition raw_param (label f90_value : string) : (string * string) + FDSParam :=
  inr (FDSParam.mk (Some label) [f90_value] []).

Definition f90_two_lines : string :=
  ("FOO ID='Test'" ++ LF ++ "      PROP=2.34, 1.23, 3.44  " ++ LF)%string.

Definition ID_Wall : FDSParam := FDSParam.mk (Some "ID") ["'Wall'"] [].
Definition COLOR_RED : FDSParam := FDSParam.mk (Some "COLOR") ["'RED'"] [].

(** * Looking parameters up *)

(** The exception of an attribute access on an object that has no
    [fds_label]. *)
Definition NoLabelAttribute : string * string :=
  ("AttributeError", "object has no attribute 'fds_label'").

(** [x.fds_label] for an element of [fds_params]: a parameter and a
    nested namelist have the attribute; [None], an [FDSMany] and an
    [FDSMulti] have not. An object of another class is taken to have none
    either; the properties below leave such objects out. *)
Definition entry_label (p : entry) : option (option string) :=
  match p with
  | PParam q => Some (FDSParam.fds_label q)
  | PNamelist n => Some (fds_label n)
  | _ => None
  end.

(** [__contains__]: [fds_label in (p.fds_label for p in self.fds_params)].
    The generator is read up to the first equal label, so an element
    without the attribute raises only when it comes before one. *)
Fixpoint contains_in (label : option string) (ps : list entry)
  : (string * string) + bool :=
  match ps with
  | [] => inr false
  | p :: rest =>
      match entry_label p with
      | None => inl NoLabelAttribute
      | Some l => if label_eqb label l then inr true else contains_in label rest
      end
  end.

Definition __contains__ (n : FDSNamelist) (label : option string)
  : outcome bool FDSNamelist :=
  match contains_in label (fds_params n) with
  | inl e => Raised e n
  | inr b => Returned b n
  end.

Section Lookup.

(** [bool(p)] for an [FDSParam], whose class is in [fds_param.py]. *)
Variable param_true : FDSParam -> bool.

(** [bool(x)] for an element: [None] and an empty list are false, a
    namelist is true; an object of another class is taken to be true. *)
Definition entry_true (p : entry) : bool :=
  match p with
  | PNone => false
  | PParam q => param_true q
  | PNamelist _ => true
  | PMany [] _ => false
  | PMany (_ :: _) _ => true
  | PMulti m => match multi_ps m with [] => false | _ :: _ => true end
  | POther _ => true
  end.

(** The loop of [get_fds_param] over [self.fds_params]: what is returned,
    and the list as the call leaves it. [list.remove] takes out the first
    element equal to the one found, which is that element itself when no
    object occurs twice. *)
Fixpoint get_in (fds_label : option string) (remove : bool) (ps : list entry)
  : outcome (option entry) (list entry) :=
  match ps with
  | [] => Returned None []
  | fds_param :: rest =>
      let next :=
        match get_in fds_label remove rest with
        | Returned r rest' => Returned r (fds_param :: rest')
        | Raised e rest' => Raised e (fds_param :: rest')
        end in
      if negb (entry_true fds_param) then next
      else if truthy fds_label then
        match entry_label fds_param with
        | None => Raised NoLabelAttribute ps
        | Some l =>
            if negb (label_eqb l fds_label) then next
            else Returned (Some fds_param) (if remove then rest else ps)
        end
      else Returned (Some fds_param) (if remove then rest else ps)
  end.

Definition get_fds_param (n : FDSNamelist) (fds_label0 : option string)
           (remove : bool) : outcome (option entry) FDSNamelist :=
  match get_in fds_label0 remove (fds_params n) with
  | Returned r ps => Returned r (Namelist (fds_label n) ps (msgs n))
  | Raised e ps => Raised e (Namelist (fds_label n) ps (msgs n))
  end.

(** An element that the loop passes over: it is false, or its label is
    another one. *)
Definition passed (fds_label : option string) (p : entry) : Prop :=
  entry_true p = false \/
  (truthy fds_label = true /\
   exists l, entry_label p = Some l /\ l <> fds_label).

End Lookup.

(** A list object with contents: a non-empty [FDSMany] or [FDSMulti]. *)
Definition filled_list (p : entry) : Prop :=
  match p with
  | PMany (_ :: _) _ => True
  | PMulti m => multi_ps m <> []
  | _ => False
  end.

(** An element that carries the attribute [fds_label] with another value
    than [label]. *)
Definition other_label (label : option string) (p : entry) : Prop :=
  exists l, entry_label p = Some l /\ l <> label.

Definition always_true (q : FDSParam) : bool := true.

Definition FYI_note : FDSParam := FDSParam.mk (Some "FYI") ["'note'"] [].
Definition lookup_entries : list entry :=
  [PNone; PParam SURF_INERT; PParam ID_A; PParam FYI_note; PParam ID_B].

Definition multi_first_entries : list entry :=
  [PParam SURF_INERT; PMulti two_obst; PParam ID_A].


Definition plain_entries : list entry :=
  [PParam SURF_INERT; PParam ID_A; PParam FYI_note].


(** * Serialization as a whole *)

(** What a call of [to_fds] gives, without the state: the text, or the
    exception (its class and its message up to the [repr] of the
    namelist, which the exceptions of this file leave out). *)
Definition result_of (o : outcome string FDSNamelist) : (string * string) + string :=
  match o with
  | Returned t _ => inr t
  | Raised e _ => inl e
  end.

(** The namelist with the messages of every namelist in it taken away:
    what is left of the attributes [fds_label], [fds_params] and [msgs]
    is the part that [to_fds] never writes to. *)
Fixpoint without_msgs (n : FDSNamelist) : FDSNamelist :=
  let 'Namelist label ps _ := n in
  Namelist label (map entry_without_msgs ps) []
with entry_without_msgs (p : entry) : entry :=
  match p with
  | PNamelist n => PNamelist (without_msgs n)
  | PMany items ms => PMany (map entry_without_msgs items) ms
  | _ => p
  end.

(** The elements can be classified: none is unrecognized, and no
    Multi-group comes after a Multi-group that has sub-groups. *)
Definition classifiable (ps : list entry) : Prop :=
  forallb recognized (flatten_all ps) = true /\
  forall pre m post,
    multis_of (flatten_all ps) = pre ++ m :: post ->
    multi_ps m <> [] -> post = [].

(** A namelist whose elements can be classified, and so on for the
    namelists nested in it, at any depth. *)
Fixpoint serializable (n : FDSNamelist) : Prop :=
  let 'Namelist _ ps _ := n in
  classifiable ps /\
  (fix all (l : list entry) : Prop :=
     match l with
     | [] => True
     | p :: rest => entry_serializable p /\ all rest
     end) ps
with entry_serializable (p : entry) : Prop :=
  match p with
  | PNamelist n => serializable n
  | PMany items _ =>
      (fix all (l : list entry) : Prop :=
         match l with
         | [] => True
         | p :: rest => entry_serializable p /\ all rest
         end) items
  | _ => True
  end.

(** [to_fds] returns a text. *)
Definition returns (n : FDSNamelist) : Prop :=
  exists text n', to_fds n = Returned text n'.

Definition head_case : FDSNamelist :=
  Namelist None
           [PNamelist (Namelist (Some "TIME") [PParam T_END_setup] []);
            PParam ID_A]
           ["Generated"].


(** * What a record says *)

(** The lines of a record put end to end. *)
Definition glue (ls : list string) : string :=
  fold_right append EmptyString ls.

(** The characters of [s] other than the space. *)
Fixpoint squeeze (s : string) : string :=
  match s with
  | EmptyString => EmptyString
  | String a rest =>
      if Ascii.eqb a " " then squeeze rest else String a (squeeze rest)
  end.

(** A parameter that the writer does not skip. *)
Definition labelled (p : FDSParam) : bool := truthy (FDSParam.fds_label p).

(** The record on one line, before its closing [" /"]: the group label
    and the tokens of the labelled parameters, a space before each. *)
Definition one_line (label : string) (nl : list FDSParam) : string :=
  (String "&" label
   ++ glue (map (fun p => " " ++ token p) (filter labelled nl)))%string.

Definition unlabelled_note : FDSParam := FDSParam.mk None ["'lost'"] [].
Definition empty_label_note : FDSParam :=
  FDSParam.mk (Some EmptyString) ["'lost'"] [].

(** * Reading parameters one by one *)

Section Reading.

Variable param_from_fds : string -> string -> (string * string) + FDSParam.

(** The matches that are read before the first exception, with the
    parameters they give. *)
Fixpoint read_before (matches : list (string * string)) : list FDSParam :=
  match matches with
  | [] => []
  | (label, f90_value) :: rest =>
      match param_from_fds label f90_value with
      | inl _ => []
      | inr p => p :: read_before rest
      end
  end.

(** The exception of the first match that cannot be read. *)
Fixpoint first_failure (matches : list (string * string))
  : option (string * string) :=
  match matches with
  | [] => None
  | (label, f90_value) :: rest =>
      match param_from_fds label f90_value with
      | inl e => Some e
      | inr _ => first_failure rest
      end
  end.

End Reading.

(** A reader that refuses the label [XB]. *)
Definition picky_param (label f90_value : string) : (string * string) + FDSParam :=
  if String.eqb label "XB" then inl ("BFException", "Parsing error")
  else raw_param label f90_value.

(** * Tokens that the scan reads back *)

(** A text made of characters outside quotes, none of them an [=] sign,
    and of quoted texts ['...'] and ["..."], each one closed by the
    quote character that opens it. *)
Inductive chunks : string -> Prop :=
| chunks_nil : chunks EmptyString
| chunks_char (a : ascii) (s : string) :
    Ascii.eqb quote a = false -> Ascii.eqb dquote a = false ->
    Ascii.eqb a "=" = false ->
    chunks s -> chunks (String a s)
| chunks_quoted (q : ascii) (x s : string) :
    q = quote \/ q = dquote -> mentions q x = false ->
    chunks s -> chunks (String q (x ++ String q s)).

(** The same, by a scan of the text: [open] is the quote character of
    the quoted text being read, if any. *)
Fixpoint quoted_ok (open : option ascii) (s : string) : bool :=
  match s with
  | EmptyString =>
      match open with
      | None => true
      | Some _ => false
      end
  | String a rest =>
      match open with
      | None =>
          if Ascii.eqb quote a || Ascii.eqb dquote a
          then quoted_ok (Some a) rest
          else negb (Ascii.eqb a "=") && quoted_ok None rest
      | Some q =>
          if Ascii.eqb q a then quoted_ok None rest
          else quoted_ok (Some q) rest
      end
  end.

(** The text is not empty and its last character is not a separator. *)
Fixpoint ends_plain (s : string) : bool :=
  match s with
  | EmptyString => false
  | String a rest =>
      match rest with
      | EmptyString => negb (is_separator a)
      | String _ _ => ends_plain rest
      end
  end.

Definition starts_plain (s : string) : bool :=
  match s with
  | EmptyString => false
  | String a _ => negb (is_separator a)
  end.

(** A label that the scan reads back whole: a letter, then label
    characters, the last one not a comma. *)
Definition readable_label (l : string) : bool :=
  is_label l && ends_plain l.

(** A value that the scan reads back whole: it neither starts nor ends
    with a separator, its quoted texts are closed, and it has no [=] sign
    outside them. *)
Definition readable_value (v : string) : bool :=
  starts_plain v && ends_plain v && quoted_ok None v.

(** Spaces, tabs or line breaks, at least one. *)
Definition is_gap (g : string) : bool :=
  match g with
  | EmptyString => false
  | String _ _ => all_chars is_space g
  end.

(** The formatted values of a parameter as its token has them. *)
Definition joined_values (p : FDSParam) : string :=
  String.concat "," (FDSParam.formatted_values p).

(** A parameter whose token [LABEL=v1,v2,...] the scan reads back. *)
Definition readable (p : FDSParam) : bool :=
  match FDSParam.formatted_values p with
  | [] => false
  | _ :: _ => readable_label (label_of p) && readable_value (joined_values p)
  end.

(** The tokens of [items], each after its gap. *)
Definition spelled (items : list (string * FDSParam)) : string :=
  glue (map (fun i => (fst i ++ token (snd i))%string) items).

(** The automaton of the lookahead that ends a value: separators, then a
    letter, label characters, separators, and the [=] sign. *)
Fixpoint in_seps2 (s : string) : bool :=
  match s with
  | EmptyString => false
  | String a rest =>
      if Ascii.eqb a "=" then true else is_separator a && in_seps2 rest
  end.

Fixpoint in_label (s : string) : bool :=
  match s with
  | EmptyString => false
  | String a rest =>
      if Ascii.eqb a "=" then true
      else if is_label_char a then in_label rest
           else is_separator a && in_seps2 rest
  end.

Fixpoint in_seps1 (s : string) : bool :=
  match s with
  | EmptyString => false
  | String a rest =>
      if is_separator a then in_seps1 rest else is_letter a && in_label rest
  end.

Definition ahead_ok (s : string) : bool :=
  match s with
  | EmptyString => false
  | String a rest => is_separator a && in_seps1 rest
  end.

(** The body of the repetition of [re_value]. *)
Definition re_chunk : regex :=
  Alt (Cat (lit quote) (Cat (Star false any_char) (lit quote)))
 (Alt (Cat (lit dquote) (Cat (Star false any_char) (lit dquote)))
      (plus false any_char)).

(** What comes after a value: the end of the text, or a gap and the
    token of the next parameter. *)
Definition follows (rest : string) : Prop :=
  rest = EmptyString \/
  exists g l t,
    is_gap g = true /\ readable_label l = true /\
    rest = (g ++ l ++ "=" ++ t)%string.

(** A gap and a parameter whose token the scan reads back. *)
Definition legible (i : string * FDSParam) : bool :=
  is_gap (fst i) && readable (snd i).

(** What the scan gives for a token: the label and the values as
    written. *)
Definition read_back (p : FDSParam) : string * string :=
  (label_of p, joined_values p).

(** * Line boundaries *)

(** The text with each line boundary replaced by one space, a carriage
    return followed by a newline being one boundary. *)
Fixpoint unbreak (s : string) : string :=
  match s with
  | EmptyString => EmptyString
  | String a rest =>
      if is_linebreak a then
        match rest with
        | String b rest' =>
            if Ascii.eqb a CR && Ascii.eqb b newline_char
            then String " " (unbreak rest')
            else String " " (unbreak rest)
        | EmptyString => String " " EmptyString
        end
      else String a (unbreak rest)
  end.

(** The last character of the text is a line boundary. *)
Fixpoint ends_line (s : string) : bool :=
  match s with
  | EmptyString => false
  | String a rest =>
      match rest with
      | EmptyString => is_linebreak a
      | String _ _ => ends_line rest
      end
  end.

(** The items with the line boundaries of their gaps replaced. *)
Definition on_one_line (items : list (string * FDSParam))
  : list (string * FDSParam) :=
  map (fun i => (unbreak (fst i), snd i)) items.

(** The values of the parameters have no line boundary. *)
Definition on_a_line (i : string * FDSParam) : bool :=
  no_break (joined_values (snd i)).

Definition ID_quoted : FDSParam := FDSParam.mk (Some "ID") ["'a=b, c'"] [].
Definition XB_pair : FDSParam := FDSParam.mk (Some "XB") ["0.000"; "1.000"] [].
Definition three_tokens : list (string * FDSParam) :=
  [(" ", ID_quoted); ((LF ++ "      ")%string, XB_pair); (" ", SURF_INERT)].

(** * Records that are read back *)

(** A parameter that is written whole, on the current line or on a new
    one, and that the scan reads back: its token fits after the 6 spaces
    of a new line, so that its values are never split. *)
Definition writable (p : FDSParam) : bool :=
  readable p && no_break (joined_values p)
  && (6 + String.length (token p) <=? MAXLEN).

(** The gaps that the writer puts before a token that is not split. *)
Definition written_gap (g : string) : Prop :=
  g = " "%string \/ g = (LF ++ "      ")%string.

(** An element that is a parameter, [None], or the trace that an
    [FDSMany] leaves when it is flattened. *)
Definition plain (p : entry) : bool :=
  match p with
  | PNone | PParam _ | PMany [] _ => true
  | _ => false
  end.

Definition quoted_case : FDSNamelist :=
  Namelist (Some "OBST")
           [PParam ID_quoted; PMany [PNone; PParam XB_pair] ["box"];
            PParam SURF_INERT]
           ["Generated"].

(** * The records in the text *)

(** The nested namelists [ns] return the texts [texts], one each. *)
Definition nested_texts (ns : list FDSNamelist) (texts : list string) : Prop :=
  Forall2 (fun m t => text_of (to_fds m) = Some t) ns texts.

(** The lines that come before the records of a namelist: a comment line
    for each non-empty message, those of the namelist first and then
    those of its elements in the order of classification, and the texts
    of the nested namelists. *)
Definition head_lines (ps : list entry) (ms texts : list string) : list string :=
  message_lines (ms ++ msgs_of (flatten_all ps)) ++ texts.

(** The block of lines [r] is the record of the parameters [nl]: it opens
    with [&LABEL], its last line is closed by [" /"] and, put end to end
    with the spaces taken out, it spells [&LABEL], the tokens of the
    parameters of [nl] that have a label, in their order, and [/]. *)
Definition record_of (label : string) (nl : list FDSParam) (r : list string)
  : Prop :=
  record_block label r /\
  squeeze (glue r)
  = squeeze (String "&" label ++ glue (map token (filter labelled nl)) ++ "/").

(** Some parameter of [nl] has its values split when [nl] is written from
    the writer [w] on. *)
Fixpoint splits (w : writer) (nl : list FDSParam) : Prop :=
  match nl with
  | [] => False
  | p :: rest =>
      (labelled p = true /\ is_split w p) \/ splits (write_param w p) rest
  end.

Definition ID_pad : FDSParam := FDSParam.mk (Some "ID") [v36] [].
Definition padded_case : FDSNamelist :=
  Namelist (Some "OBST") [PParam ID_pad; PParam XB_unit] ["padded"].

(** * Properties *)

(** ** Classification: unfolding and splicing *)

Lemma classify_many (a : attrs) (items : list entry) (ms : list string) :
  _classify_fds_param a (PMany items ms) =
  match classify_all a items with
  | Returned _ a' => Returned tt (extend_msgs a' ms)
  | Raised e a' => Raised e a'
  end.
Proof.
  simpl.
  match goal with
  | |- match ?f a items with _ => _ end = _ =>
      assert (E : forall l b, f b l = classify_all b l)
  end.
  { induction l as [|x r IH]; intros b; simpl; [reflexivity|].
    destruct (_classify_fds_param b x); [apply IH | reflexivity]. }
  rewrite E. reflexivity.
Qed.

Lemma classify_all_app (a : attrs) (l1 l2 : list entry) :
  classify_all a (l1 ++ l2) =
  match classify_all a l1 with
  | Returned _ a' => classify_all a' l2
  | Raised e a' => Raised e a'
  end.
Proof.
  revert a. induction l1 as [|x r IH]; intros a; simpl; [reflexivity|].
  destruct (_classify_fds_param a x); [apply IH | reflexivity].
Qed.

Lemma extend_msgs_nil (a : attrs) : extend_msgs a [] = a.
Proof. destruct a; unfold extend_msgs; simpl. now rewrite app_nil_r. Qed.

(** A Flatten-group is classified as its contents in its place. *)
Lemma classify_flatten (p : entry) :
  forall a, classify_all a (flatten p) = _classify_fds_param a p.
Proof.
  induction p using entry_nested_ind with (Pn := fun _ => True);
    try exact I; intros a; simpl flatten.
  - reflexivity.
  - reflexivity.
  - reflexivity.
  - rewrite classify_many, classify_all_app.
    assert (E : forall b, classify_all b (flat_map flatten items)
                          = classify_all b items).
    { induction H as [|x r Hx _ IH]; intros b; simpl; [reflexivity|].
      rewrite classify_all_app, Hx.
      destruct (_classify_fds_param b x); [apply IH | reflexivity]. }
    rewrite E. destruct (classify_all a items); reflexivity.
  - simpl. now destruct (multi_truthy (_multi_ps a)).
  - reflexivity.
Qed.

Lemma classify_flatten_all (ps : list entry) :
  forall a, classify_all a (flatten_all ps) = classify_all a ps.
Proof.
  induction ps as [|x r IH]; intros a; simpl; [reflexivity|].
  rewrite classify_all_app, classify_flatten.
  destruct (_classify_fds_param a x); [apply IH | reflexivity].
Qed.

Lemma flatten_leaves (p : entry) : Forall leaf (flatten p).
Proof.
  induction p using entry_nested_ind with (Pn := fun _ => True);
    try exact I; simpl; try (constructor; [exact I | constructor]).
  apply Forall_app. split.
  - induction H as [|x r Hx _ IH]; simpl; [constructor|].
    apply Forall_app. now split.
  - constructor; [exact I | constructor].
Qed.

Lemma flatten_all_leaves (ps : list entry) : Forall leaf (flatten_all ps).
Proof.
  induction ps as [|x r IH]; simpl; [constructor|].
  apply Forall_app. split; [apply flatten_leaves | exact IH].
Qed.

(** Classification of a flat list that holds no unrecognized element and
    whose Multi-groups are captured without a clash. *)
Lemma classify_flat_ok (l : list entry) :
  Forall leaf l ->
  forall a fin,
    forallb recognized l = true ->
    capture (_multi_ps a) (multis_of l) = Some fin ->
    classify_all a l =
    Returned tt (mkAttrs (_invariant_ps a ++ params_of l)
                         (_additional_ns a ++ namelists_of l)
                         fin
                         (self_msgs a ++ msgs_of l)).
Proof.
  induction 1 as [|x r Hx _ IH]; intros a fin Hrec Hcap.
  - simpl in *. injection Hcap as <-. rewrite !app_nil_r. now destruct a.
  - simpl in Hrec. apply andb_prop in Hrec as [Hx' Hr].
    destruct x as [|q|n|items ms|m|s]; try discriminate Hx'; simpl in Hcap |- *.
    + now apply IH.
    + rewrite IH with (fin := fin); [|exact Hr|exact Hcap].
      simpl. now rewrite <- !app_assoc.
    + rewrite IH with (fin := fin); [|exact Hr|exact Hcap].
      simpl. now rewrite <- !app_assoc.
    + destruct items; [|contradiction]. simpl.
      rewrite IH with (fin := fin); [|exact Hr|exact Hcap].
      simpl. now rewrite <- !app_assoc.
    + destruct (multi_truthy (_multi_ps a)); [discriminate|].
      rewrite IH with (fin := fin); [|exact Hr|exact Hcap].
      simpl. now rewrite <- !app_assoc.
Qed.

Lemma classify_flat_unrecognized (l : list entry) :
  forall a, forallb recognized l = false ->
            exists e a', classify_all a l = Raised e a'.
Proof.
  induction l as [|x r IH]; intros a Hrec; [discriminate|].
  simpl. destruct (_classify_fds_param a x) as [[] a1|e a1] eqn:E.
  - simpl in Hrec. apply andb_false_iff in Hrec as [Hx|Hr].
    + destruct x; try discriminate Hx. discriminate E.
    + now apply IH.
  - now exists e, a1.
Qed.

Lemma classify_leaf_multi (x : entry) (a a1 : attrs) :
  leaf x -> _classify_fds_param a x = Returned tt a1 ->
  capture (_multi_ps a) (multis_of [x]) = Some (_multi_ps a1).
Proof.
  intros Hl E. destruct x as [|q|n|items ms|m|s]; simpl in *;
    try (injection E as <-; reflexivity); try discriminate.
  - destruct items; [|contradiction]. simpl in E. now injection E as <-.
  - destruct (multi_truthy (_multi_ps a)); [discriminate|]. now injection E as <-.
Qed.

Lemma capture_app (cur : option FDSMulti) (l1 l2 : list FDSMulti) :
  capture cur (l1 ++ l2) =
  match capture cur l1 with
  | Some mid => capture mid l2
  | None => None
  end.
Proof.
  revert cur. induction l1 as [|m r IH]; intros cur; simpl; [reflexivity|].
  destruct (multi_truthy cur); [reflexivity | apply IH].
Qed.

Lemma classify_flat_clash (l : list entry) :
  Forall leaf l ->
  forall a, capture (_multi_ps a) (multis_of l) = None ->
            exists e a', classify_all a l = Raised e a'.
Proof.
  induction 1 as [|x r Hx _ IH]; intros a Hcap; [discriminate|].
  simpl. destruct (_classify_fds_param a x) as [[] a1|e a1] eqn:E.
  - apply IH.
    replace (multis_of (x :: r)) with (multis_of [x] ++ multis_of r) in Hcap
      by (unfold multis_of; simpl; now rewrite app_nil_r).
    now rewrite capture_app, (classify_leaf_multi x a a1 Hx E) in Hcap.
  - now exists e, a1.
Qed.

(** The same three facts for the elements of a namelist as they are. *)
Lemma classify_ok (ps : list entry) (a : attrs) (fin : option FDSMulti) :
  forallb recognized (flatten_all ps) = true ->
  capture (_multi_ps a) (multis_of (flatten_all ps)) = Some fin ->
  classify_all a ps =
  Returned tt (mkAttrs (_invariant_ps a ++ params_of (flatten_all ps))
                       (_additional_ns a ++ namelists_of (flatten_all ps))
                       fin
                       (self_msgs a ++ msgs_of (flatten_all ps))).
Proof.
  intros Hrec Hcap. rewrite <- classify_flatten_all.
  now apply classify_flat_ok; [apply flatten_all_leaves| |].
Qed.

Lemma classify_unrecognized (ps : list entry) (a : attrs) :
  forallb recognized (flatten_all ps) = false ->
  exists e a', classify_all a ps = Raised e a'.
Proof.
  intros Hrec. rewrite <- classify_flatten_all.
  now apply classify_flat_unrecognized.
Qed.

Lemma classify_clash (ps : list entry) (a : attrs) :
  capture (_multi_ps a) (multis_of (flatten_all ps)) = None ->
  exists e a', classify_all a ps = Raised e a'.
Proof.
  intros Hcap. rewrite <- classify_flatten_all.
  now apply classify_flat_clash; [apply flatten_all_leaves|].
Qed.

(** A classification that returns met only recognized elements, and
    filed them in order. *)
Lemma classify_returned (ps : list entry) (a a' : attrs) :
  classify_all a ps = Returned tt a' ->
  forallb recognized (flatten_all ps) = true /\
  capture (_multi_ps a) (multis_of (flatten_all ps)) = Some (_multi_ps a') /\
  _invariant_ps a' = _invariant_ps a ++ params_of (flatten_all ps) /\
  _additional_ns a' = _additional_ns a ++ namelists_of (flatten_all ps) /\
  self_msgs a' = self_msgs a ++ msgs_of (flatten_all ps).
Proof.
  intros E.
  destruct (forallb recognized (flatten_all ps)) eqn:Hrec.
  2:{ destruct (classify_unrecognized ps a Hrec) as (e & b & E').
      rewrite E in E'. discriminate. }
  destruct (capture (_multi_ps a) (multis_of (flatten_all ps))) as [fin|] eqn:Hcap.
  2:{ destruct (classify_clash ps a Hcap) as (e & b & E').
      rewrite E in E'. discriminate. }
  rewrite (classify_ok ps a fin Hrec Hcap) in E. injection E as <-. simpl.
  repeat split; reflexivity.
Qed.

(** ** Serialization: unfolding *)

Lemma to_fds_eq (label : option string) (ps : list entry) (ms : list string) :
  to_fds (Namelist label ps ms) =
  match classify_all (mkAttrs [] [] None ms) ps with
  | Raised e a => Raised e (Namelist label ps (self_msgs a))
  | Returned _ a =>
      let '(ps', (texts, exn)) := additional_all ps ([], None) in
      match exn with
      | Some e => Raised e (Namelist label ps' (self_msgs a))
      | None =>
          Returned
            (String.concat LF
               (message_lines (self_msgs a) ++ texts
                ++ namelist_lines label (nls_of a)))
            (Namelist label ps' (self_msgs a))
      end
  end.
Proof.
  cbn [to_fds]. destruct (classify_all (mkAttrs [] [] None ms) ps); [|reflexivity].
  match goal with
  | |- match ?f ps ([], None) with _ => _ end = _ =>
      assert (E : forall l c, f l c = additional_all l c)
  end.
  { induction l as [|x r IH]; intros c; simpl; [reflexivity|].
    destruct (additional x c) as [x' c1]. now rewrite IH. }
  rewrite E. reflexivity.
Qed.

Lemma additional_many (items : list entry) (ms : list string) (acc : progress) :
  additional (PMany items ms) acc =
  let '(items', acc') := additional_all items acc in (PMany items' ms, acc').
Proof.
  cbn [additional].
  match goal with
  | |- match ?f items acc with _ => _ end = _ =>
      assert (E : forall l c, f l c = additional_all l c)
  end.
  { induction l as [|x r IH]; intros c; simpl; [reflexivity|].
    destruct (additional x c) as [x' c1]. now rewrite IH. }
  rewrite E. reflexivity.
Qed.

(** ** The nested namelists are those of [_additional_ns] *)

Lemma extend_additional_stopped (ns : list FDSNamelist) (acc : progress) :
  snd acc <> None -> extend_additional ns acc = (ns, acc).
Proof.
  intros H. destruct ns as [|n r]; [reflexivity|]. simpl.
  destruct (snd acc); [reflexivity | contradiction].
Qed.

Lemma extend_additional_app (l1 l2 : list FDSNamelist) :
  forall acc,
    extend_additional (l1 ++ l2) acc =
    let '(l1', acc1) := extend_additional l1 acc in
    let '(l2', acc2) := extend_additional l2 acc1 in
    (l1' ++ l2', acc2).
Proof.
  induction l1 as [|n r IH]; intros acc.
  - simpl. now destruct (extend_additional l2 acc).
  - simpl. destruct (snd acc) eqn:Hs.
    + rewrite extend_additional_stopped by (rewrite Hs; discriminate).
      reflexivity.
    + destruct (to_fds n) as [text n'|e n'].
      * rewrite IH.
        destruct (extend_additional r (fst acc ++ [text], None)) as [r' acc1].
        now destruct (extend_additional l2 acc1).
      * rewrite extend_additional_stopped by (simpl; discriminate).
        reflexivity.
Qed.

Lemma namelists_of_app (l1 l2 : list entry) :
  namelists_of (l1 ++ l2) = namelists_of l1 ++ namelists_of l2.
Proof. apply flat_map_app. Qed.

Lemma additional_all_agrees (ps : list entry) :
  Forall (fun p => forall acc,
            agrees (flatten p) (flatten (fst (additional p acc)))
                   acc (snd (additional p acc))) ps ->
  forall acc,
    agrees (flatten_all ps) (flatten_all (fst (additional_all ps acc)))
           acc (snd (additional_all ps acc)).
Proof.
  unfold agrees.
  induction 1 as [|x r Hx _ IH]; intros acc; [reflexivity|].
  simpl. specialize (Hx acc).
  destruct (additional x acc) as [x' acc1]. specialize (IH acc1).
  destruct (additional_all r acc1) as [r' acc2]. simpl in *.
  rewrite !namelists_of_app, extend_additional_app, Hx, IH. reflexivity.
Qed.

Lemma additional_agrees (p : entry) :
  forall acc,
    agrees (flatten p) (flatten (fst (additional p acc)))
           acc (snd (additional p acc)).
Proof.
  induction p using entry_nested_ind with (Pn := fun _ => True);
    try exact I; intros acc; try reflexivity; unfold agrees.
  - simpl. destruct acc as [texts [e|]]; simpl; [reflexivity|].
    now destruct (to_fds n).
  - rewrite additional_many.
    pose proof (additional_all_agrees items H acc) as A. unfold agrees in A.
    destruct (additional_all items acc) as [items' acc']. simpl in *.
    unfold flatten_all in A.
    rewrite !namelists_of_app. simpl. now rewrite !app_nil_r.
Qed.

(** The texts that [to_fds] gathers from the nested namelists are those
    of the calls [n.to_fds(context) for n in self._additional_ns]. *)
Lemma additional_is_extend (ps : list entry) (a a' : attrs) :
  classify_all a ps = Returned tt a' ->
  _additional_ns a = [] ->
  snd (additional_all ps ([], None))
  = snd (extend_additional (_additional_ns a') ([], None)).
Proof.
  intros E Ha.
  destruct (classify_returned ps a a' E) as (_ & _ & _ & -> & _).
  rewrite Ha. simpl.
  pose proof (additional_all_agrees ps) as A. unfold agrees in A.
  rewrite A; [reflexivity|].
  apply Forall_forall. intros p _. apply additional_agrees.
Qed.

(** ** What a call of [to_fds] returns or raises *)

Lemma to_fds_returned (label : option string) (ps : list entry)
      (ms : list string) (text : string) (n' : FDSNamelist) :
  to_fds (Namelist label ps ms) = Returned text n' ->
  exists a texts,
    classify_all (init_attrs ms) ps = Returned tt a /\
    snd (additional_all ps ([], None)) = (texts, None) /\
    text = String.concat LF
             (message_lines (self_msgs a) ++ texts
              ++ namelist_lines label (nls_of a)).
Proof.
  rewrite to_fds_eq. unfold init_attrs.
  destruct (classify_all (mkAttrs [] [] None ms) ps) as [[] a|e a];
    [|discriminate].
  destruct (additional_all ps ([], None)) as [ps' [texts [e|]]];
    [discriminate|].
  intros E. injection E as <- _. now exists a, texts.
Qed.

Lemma to_fds_raised (label : option string) (ps : list entry)
      (ms : list string) (e : string * string) (n' : FDSNamelist) :
  to_fds (Namelist label ps ms) = Raised e n' ->
  (exists a, classify_all (init_attrs ms) ps = Raised e a) \/
  (exists a, classify_all (init_attrs ms) ps = Returned tt a /\
             snd (snd (additional_all ps ([], None))) = Some e).
Proof.
  rewrite to_fds_eq. unfold init_attrs.
  destruct (classify_all (mkAttrs [] [] None ms) ps) as [[] a|e' a].
  - destruct (additional_all ps ([], None)) as [ps' [texts [e'|]]];
      [|discriminate].
    intros E. injection E as <- _. right. now exists a.
  - intros E. injection E as <- _. left. now exists a.
Qed.

Lemma classify_raises_to_fds (label : option string) (ps : list entry)
      (ms : list string) :
  (exists e a, classify_all (init_attrs ms) ps = Raised e a) ->
  exists e n', to_fds (Namelist label ps ms) = Raised e n'.
Proof.
  intros (e & a & E). rewrite to_fds_eq. unfold init_attrs in E. rewrite E.
  now exists e, (Namelist label ps (self_msgs a)).
Qed.

Lemma label_in_spec (l : option string) (ls : list (option string)) :
  label_in l ls = true <-> In l ls.
Proof.
  unfold label_in. rewrite existsb_exists. split.
  - intros (x & Hx & E). destruct l as [s|], x as [t|]; simpl in E;
      try discriminate; [|exact Hx].
    apply String.eqb_eq in E. now subst.
  - intros H. exists l. split; [exact H|].
    destruct l as [s|]; simpl; [apply String.eqb_refl | reflexivity].
Qed.

Lemma nls_of_multi (a : attrs) (m : FDSMulti) (first : list FDSParam)
      (rest : list (list FDSParam)) :
  _multi_ps a = Some m -> multi_ps m = first :: rest ->
  nls_of a = map (fun multi_p => surviving first (_invariant_ps a) ++ multi_p)
                 (multi_ps m).
Proof.
  intros Hm Hg. unfold nls_of. rewrite Hm. destruct m as [groups mm].
  simpl in Hg. subst groups. reflexivity.
Qed.

Lemma nls_of_no_multi (a : attrs) :
  multi_truthy (_multi_ps a) = false -> nls_of a = [_invariant_ps a].
Proof.
  unfold nls_of. destruct (_multi_ps a) as [[[|g gs] mm]|]; simpl;
    [reflexivity | discriminate | reflexivity].
Qed.

(** ** Unrecognized elements and [None] *)

(** C10, as amended: an element that is neither [None] nor one of the four
    kinds makes classification raise [ValueError] ("Unrecognized type"),
    wherever it sits under Flatten-groups, and so makes [to_fds] raise; a
    [None] element is skipped: classification returns and leaves every
    attribute as it was. *)
Theorem unrecognized_entry_rejected :
  (forall a r, _classify_fds_param a (POther r) = Raised (Unrecognized r) a) /\
  (forall a, _classify_fds_param a PNone = Returned tt a) /\
  (forall label ps ms r,
      In (POther r) (flatten_all ps) ->
      exists e n', to_fds (Namelist label ps ms) = Raised e n').
Proof.
  split; [reflexivity|]. split; [reflexivity|].
  intros label ps ms r Hin. apply classify_raises_to_fds.
  apply classify_unrecognized.
  destruct (forallb recognized (flatten_all ps)) eqn:E; [|reflexivity].
  rewrite forallb_forall in E. now specialize (E _ Hin).
Qed.

Lemma unrecognized_entry_rejected_witness :
  exists e n',
    to_fds (Namelist (Some "OBST") [PMany [PNone; POther "3"] []] [])
    = Raised e n'.
Proof.
  apply (proj2 (proj2 unrecognized_entry_rejected)) with (r := "3").
  simpl. right. left. reflexivity.
Defined.

(** C10, as stated, fails on [None]: the element is skipped and the
    namelist is written. *)
Lemma none_entry_not_rejected :
  _classify_fds_param (init_attrs []) PNone = Returned tt (init_attrs []) /\
  to_fds (Namelist (Some "OBST") [PNone] [])
  = Returned "&OBST /" (Namelist (Some "OBST") [PNone] []).
Proof. split; reflexivity. Qed.

(** ** Multi-groups: how many, and empty ones *)

(** C5 at its failing input: a Multi-group without sub-groups followed by
    a second Multi-group. The first one is false as a truth value, so the
    second is captured and the namelist is written. *)
Theorem two_multis_first_empty_returns :
  let n := Namelist (Some "OBST")
                    [PMulti (mkMulti [] []); PMulti (mkMulti [[ID_A]] [])] [] in
  to_fds n = Returned "&OBST ID='A' /" n.
Proof. reflexivity. Qed.

(** When the first Multi-group met has a sub-group, a second Multi-group
    makes [to_fds] raise before any line is built. *)
Lemma second_multi_raises (label : option string) (ps : list entry)
      (ms : list string) (m1 m2 : FDSMulti) (more : list FDSMulti) :
  multis_of (flatten_all ps) = m1 :: m2 :: more ->
  multi_ps m1 <> [] ->
  exists e n', to_fds (Namelist label ps ms) = Raised e n'.
Proof.
  intros Hm Hne. apply classify_raises_to_fds, classify_clash.
  rewrite Hm. simpl. destruct m1 as [[|g gs] mm]; [contradiction|reflexivity].
Qed.

(** ** What [to_fds] does to the namelist *)

Lemma no_msgs_nil (ms : list string) : no_msgs ms = true -> ms = [].
Proof. destruct ms; [reflexivity | discriminate]. Qed.

Lemma msgs_of_app (l1 l2 : list entry) :
  msgs_of (l1 ++ l2) = msgs_of l1 ++ msgs_of l2.
Proof. apply flat_map_app. Qed.

Lemma quiet_flatten (p : entry) : quiet p = true -> msgs_of (flatten p) = [].
Proof.
  induction p using entry_nested_ind with (Pn := fun _ => True);
    try exact I; simpl; intros Q; try reflexivity.
  - apply no_msgs_nil in Q. unfold msgs_of. simpl. now rewrite Q.
  - destruct n as [l ps ms]. apply andb_prop in Q as [Q _].
    apply no_msgs_nil in Q. unfold msgs_of. simpl. now rewrite Q.
  - apply andb_prop in Q as [Q1 Q2]. apply no_msgs_nil in Q1. subst ms.
    rewrite msgs_of_app. unfold msgs_of at 2. simpl. rewrite app_nil_r.
    induction H as [|x r Hx _ IH]; [reflexivity|].
    simpl in Q2 |- *. apply andb_prop in Q2 as [Qx Qr].
    rewrite msgs_of_app, (Hx Qx). now apply IH.
  - apply no_msgs_nil in Q. unfold msgs_of. simpl. now rewrite Q.
Qed.

Lemma quiet_flatten_all (ps : list entry) :
  forallb quiet ps = true -> msgs_of (flatten_all ps) = [].
Proof.
  induction ps as [|x r IH]; simpl; intros Q; [reflexivity|].
  apply andb_prop in Q as [Qx Qr].
  now rewrite msgs_of_app, (quiet_flatten x Qx), IH.
Qed.

Lemma classify_flat_silent (l : list entry) :
  Forall leaf l -> msgs_of l = [] ->
  forall a, self_msgs (state_of (classify_all a l)) = self_msgs a.
Proof.
  induction 1 as [|x r Hx _ IH]; intros Hm a; [reflexivity|].
  change (x :: r) with ([x] ++ r) in Hm. rewrite msgs_of_app in Hm.
  apply app_eq_nil in Hm as [Hx0 Hr]. specialize (IH Hr).
  unfold msgs_of in Hx0. simpl in Hx0. rewrite app_nil_r in Hx0.
  destruct x as [|q|n|items ms|m|s]; simpl.
  - apply IH.
  - rewrite IH. simpl. now rewrite Hx0, app_nil_r.
  - rewrite IH. simpl. now rewrite Hx0, app_nil_r.
  - destruct items; [|contradiction]. simpl.
    rewrite IH. simpl. now rewrite Hx0, app_nil_r.
  - destruct (multi_truthy (_multi_ps a)); [reflexivity|].
    rewrite IH. simpl. now rewrite Hx0, app_nil_r.
  - reflexivity.
Qed.

Lemma classify_silent (ps : list entry) (a : attrs) :
  forallb quiet ps = true ->
  self_msgs (state_of (classify_all a ps)) = self_msgs a.
Proof.
  intros Q. rewrite <- classify_flatten_all.
  apply classify_flat_silent;
    [apply flatten_all_leaves | now apply quiet_flatten_all].
Qed.

Lemma additional_all_fixed (ps : list entry) :
  Forall (fun p => quiet p = true ->
                   forall acc, fst (additional p acc) = p) ps ->
  forallb quiet ps = true ->
  forall acc, fst (additional_all ps acc) = ps.
Proof.
  induction 1 as [|x r Hx _ IH]; intros Q acc; [reflexivity|].
  simpl in Q |- *. apply andb_prop in Q as [Qx Qr].
  specialize (Hx Qx acc). destruct (additional x acc) as [x' acc1].
  specialize (IH Qr acc1). destruct (additional_all r acc1) as [r' acc2].
  simpl in *. now subst.
Qed.

Lemma quiet_unchanged :
  forall n, forallb quiet (fds_params n) = true -> state_of (to_fds n) = n.
Proof.
  induction n using namelist_nested_ind
    with (Pe := fun p => quiet p = true ->
                         forall acc, fst (additional p acc) = p);
    try (intros; reflexivity).
  - (* a nested namelist *)
    intros Q acc. destruct n as [l ps ms]. simpl in Q.
    apply andb_prop in Q as [_ Q]. specialize (IHn Q).
    cbn [additional]. destruct (snd acc); [reflexivity|].
    destruct (to_fds (Namelist l ps ms)); simpl in *; now subst.
  - (* a Flatten-group *)
    intros Q acc. simpl in Q. apply andb_prop in Q as [_ Q].
    rewrite additional_many.
    pose proof (additional_all_fixed items H Q acc) as F.
    destruct (additional_all items acc). simpl in F. now subst.
  - (* the namelist itself *)
    intros Q. simpl in Q. rewrite to_fds_eq.
    pose proof (classify_silent ps (mkAttrs [] [] None ms) Q) as S.
    pose proof (additional_all_fixed ps H Q ([], None)) as F.
    destruct (classify_all (mkAttrs [] [] None ms) ps) as [[] a|e a];
      simpl in S; [|now rewrite S].
    destruct (additional_all ps ([], None)) as [ps' [texts [e|]]];
      simpl in F |- *; now rewrite S, F.
Qed.

(** C1, as amended: when no element of the namelist carries a message,
    at any depth, a call of [to_fds] leaves [fds_label], [fds_params] and
    [msgs] as they were, and a second call gives what the first one gave.
    In general a call whose classification returns appends to [msgs] the
    messages of the elements it classified. *)
Theorem to_fds_repeatable (n : FDSNamelist) :
  (forallb quiet (fds_params n) = true ->
   state_of (to_fds n) = n /\ to_fds (state_of (to_fds n)) = to_fds n) /\
  (forall a, classify_all (init_attrs (msgs n)) (fds_params n) = Returned tt a ->
             msgs (state_of (to_fds n))
             = msgs n ++ msgs_of (flatten_all (fds_params n))).
Proof.
  split.
  - intros Q. pose proof (quiet_unchanged n Q) as U. now rewrite U.
  - intros a E. destruct n as [l ps ms]. simpl in E.
    cbn [msgs fds_params]. rewrite to_fds_eq. unfold init_attrs in E. rewrite E.
    destruct (classify_returned ps _ a E) as (_ & _ & _ & _ & M).
    simpl in M.
    destruct (additional_all ps ([], None)) as [ps' [texts [e|]]];
      simpl; exact M.
Qed.

Lemma to_fds_repeatable_witness :
  let n := Namelist (Some "OBST") obst_entries ["walls"] in
  state_of (to_fds n) = n /\ to_fds (state_of (to_fds n)) = to_fds n.
Proof.
  exact (proj1 (to_fds_repeatable (Namelist (Some "OBST") obst_entries ["walls"]))
               eq_refl).
Defined.

(** C1, as stated, fails: the message of a parameter is appended to the
    message list of the namelist at every call, so the second call writes
    the comment line twice. *)
Lemma to_fds_not_pure :
  let n := Namelist (Some "TIME") [PParam T_END_setup] [] in
  to_fds n
  = Returned (String.concat LF ["! Smokeview setup only"; "&TIME T_END=0.0 /"])
             (Namelist (Some "TIME") [PParam T_END_setup]
                       ["Smokeview setup only"]) /\
  to_fds (state_of (to_fds n))
  = Returned (String.concat LF ["! Smokeview setup only";
                                "! Smokeview setup only"; "&TIME T_END=0.0 /"])
             (Namelist (Some "TIME") [PParam T_END_setup]
                       ["Smokeview setup only"; "Smokeview setup only"]) /\
  state_of (to_fds n) <> n /\
  text_of (to_fds (state_of (to_fds n))) <> text_of (to_fds n).
Proof.
  repeat split; try reflexivity; intros H; discriminate H.
Qed.

(** ** Texts: lengths and appends *)

Lemma length_append (s t : string) :
  String.length (s ++ t) = String.length s + String.length t.
Proof. induction s as [|c s IH]; simpl; [reflexivity | now rewrite IH]. Qed.

Lemma append_assoc (s t u : string) : ((s ++ t) ++ u = s ++ t ++ u)%string.
Proof. induction s as [|c s IH]; simpl; [reflexivity | now rewrite IH]. Qed.

Lemma append_empty_r (s : string) : (s ++ EmptyString)%string = s.
Proof. induction s as [|c s IH]; simpl; [reflexivity | now rewrite IH]. Qed.

Lemma remove_last_comma (s : string) : remove_last (s ++ ",") = s.
Proof.
  induction s as [|c s IH]; [reflexivity|].
  change ((String c s ++ ",")%string) with (String c (s ++ ",")).
  cbn [remove_last]. rewrite IH.
  destruct s; reflexivity.
Qed.

Lemma length_remove_last (s : string) :
  String.length (remove_last s) <= String.length s.
Proof.
  induction s as [|c s IH]; simpl; [lia|].
  destruct s; simpl in *; lia.
Qed.

(** ** The layout of split values *)

Lemma greedy_from_cons (l v : string) (c0 : list string)
      (conts : list (string * list string)) :
  String.length l + String.length v + 1 <= MAXLEN ->
  greedy_from (l ++ v ++ ",") c0 conts ->
  greedy_from l (v :: c0) conts.
Proof.
  intros Hfit G. destruct conts as [|c more]; simpl in *.
  - tauto.
  - destruct G as (Hp & Hover & G). repeat split; try assumption.
    now rewrite !append_assoc in Hover.
Qed.

Lemma split_values_layout (vs : list string) :
  forall ls l,
  exists c0 conts,
    vs = values_of c0 conts /\
    greedy_from l c0 conts /\
    fst (split_values vs (ls, l)) ++ [snd (split_values vs (ls, l))]
    = ls ++ rendered l c0 conts.
Proof.
  induction vs as [|v vs IH]; intros ls l.
  - exists [], []. unfold rendered, values_of, split_values. simpl.
    now rewrite append_empty_r.
  - unfold split_values. cbn [fold_left split_step].
    destruct (String.length l + String.length v + 1 <=? MAXLEN) eqn:Hfit.
    + apply Nat.leb_le in Hfit.
      destruct (IH ls (l ++ v ++ ",")%string) as (c0 & conts & Hv & G & L).
      exists (v :: c0), conts. split; [|split].
      * unfold values_of in *. simpl. now rewrite Hv.
      * now apply greedy_from_cons.
      * unfold split_values in L. rewrite L. unfold rendered. simpl.
        now rewrite !append_assoc.
    + apply Nat.leb_gt in Hfit.
      destruct (IH (ls ++ [l]) ("        " ++ v ++ ",")%string)
        as (c0 & conts & Hv & G & L).
      exists [], ((v, c0) :: conts). split; [|split].
      * unfold values_of in *. simpl. now rewrite Hv.
      * simpl. rewrite append_empty_r. repeat split; [lia | exact G].
      * unfold split_values in L. rewrite L. unfold rendered, continuation.
        simpl. rewrite append_empty_r, <- app_assoc. simpl.
        now rewrite !append_assoc.
Qed.

Lemma commas_last (vs : list string) :
  vs <> [] -> exists t, commas vs = (t ++ ",")%string.
Proof.
  induction vs as [|v [|v' r] IH]; intros Hne; [contradiction| |].
  - exists v. simpl. reflexivity.
  - destruct IH as (t & Ht); [discriminate|].
    exists (v ++ "," ++ t)%string. cbn [commas] in Ht |- *.
    now rewrite Ht, !append_assoc.
Qed.

(** With at least one value, the last rendered line ends in a comma, and
    the first one starts as [l]. *)
Lemma rendered_last_comma (l : string) (c0 : list string)
      (conts : list (string * list string)) :
  values_of c0 conts <> [] ->
  exists front last,
    rendered l c0 conts = front ++ [(last ++ ",")%string] /\
    starts_with l (hd last front).
Proof.
  intros Hne. unfold rendered.
  destruct conts as [|c more] using rev_ind.
  - unfold values_of in Hne. simpl in Hne. rewrite app_nil_r in Hne.
    destruct (commas_last c0 Hne) as (t & Ht).
    exists [], (l ++ t)%string. simpl. rewrite Ht, append_assoc.
    split; [reflexivity | now exists t].
  - clear IHmore. rewrite map_app. simpl.
    assert (E : exists t, continuation c = (t ++ ",")%string).
    { unfold continuation. destruct (snd c) as [|v r].
      - exists ("        " ++ fst c)%string. reflexivity.
      - destruct (commas_last (v :: r)) as (t & Ht); [discriminate|].
        exists ("        " ++ fst c ++ "," ++ t)%string.
        rewrite Ht. simpl. now rewrite ?append_assoc. }
    destruct E as (t & Ht).
    exists ((l ++ commas c0)%string :: map continuation more), t.
    rewrite Ht. split; [reflexivity|]. now exists (commas c0).
Qed.

(** ** One parameter at a time *)

Lemma split_writer_layout (w : writer) (label : string) (vs : list string) :
  vs <> [] ->
  exists c0 conts front last,
    vs = values_of c0 conts /\
    greedy_from ("      " ++ label ++ "=") c0 conts /\
    rendered ("      " ++ label ++ "=") c0 conts = front ++ [(last ++ ",")%string] /\
    starts_with ("      " ++ label ++ "=") (hd last front) /\
    split_writer w label vs = mkWriter (lines w ++ line w :: front) last true.
Proof.
  intros Hne. unfold split_writer.
  destruct (split_values_layout vs (lines w ++ [line w])
                                ("      " ++ label ++ "=")%string)
    as (c0 & conts & Hv & G & L).
  destruct (rendered_last_comma ("      " ++ label ++ "=") c0 conts)
    as (front & last & R & Hs); [now rewrite <- Hv|].
  exists c0, conts, front, last. repeat split; try assumption.
  destruct (split_values vs _) as [ls l]. cbn [fst snd] in L.
  rewrite R, app_assoc in L. apply app_inj_tail in L as [-> ->].
  now rewrite remove_last_comma, <- app_assoc.
Qed.

Lemma length_token_valued (p : FDSParam) :
  FDSParam.formatted_values p <> [] ->
  String.length (token p)
  = String.length (label_of p) + 1
    + String.length (String.concat "," (FDSParam.formatted_values p)).
Proof.
  unfold token. destruct (FDSParam.formatted_values p) as [|v r];
    [contradiction|]. intros _.
  rewrite length_append. simpl String.length. lia.
Qed.

(** [write_param] read through the full token of the parameter. *)
Lemma write_param_eq (w : writer) (p : FDSParam) :
  truthy (FDSParam.fds_label p) = true ->
  write_param w p =
  if negb (newline w)
     && (String.length (line w) + 1 + String.length (token p) <=? MAXLEN)
  then mkWriter (lines w) (line w ++ " " ++ token p) false
  else
    match FDSParam.formatted_values p with
    | [] => mkWriter (lines w ++ [line w]) ("      " ++ label_of p) (newline w)
    | vs =>
        if 6 + String.length (token p) <=? MAXLEN
        then mkWriter (lines w ++ [line w]) ("      " ++ token p) (newline w)
        else split_writer w (label_of p) vs
    end.
Proof.
  intros Ht. unfold write_param. rewrite Ht. cbn [negb].
  fold (label_of p).
  destruct (FDSParam.formatted_values p) as [|v r] eqn:Hv.
  - unfold token. rewrite Hv. reflexivity.
  - assert (L : String.length (token p)
                = String.length (label_of p) + 1
                  + String.length (String.concat "," (v :: r))).
    { rewrite <- Hv. apply length_token_valued. rewrite Hv. discriminate. }
    assert (T : token p = (label_of p ++ "=" ++ String.concat "," (v :: r))%string).
    { unfold token. now rewrite Hv. }
    replace (String.length (line w) + 1 + String.length (label_of p) + 1
             + String.length (String.concat "," (v :: r)))
      with (String.length (line w) + 1 + String.length (token p)) by lia.
    destruct (negb (newline w)
              && (String.length (line w) + 1 + String.length (token p) <=? MAXLEN));
      [now rewrite T|].
    replace (String.length ("      " ++ label_of p ++ "=")
             + String.length (String.concat "," (v :: r)))
      with (6 + String.length (token p)).
    2:{ rewrite L. change ("      " ++ label_of p ++ "=")%string
          with ("      " ++ (label_of p ++ "="))%string.
        rewrite (length_append "      "), length_append. simpl. lia. }
    destruct (6 + String.length (token p) <=? MAXLEN); [|reflexivity].
    rewrite T. f_equal. simpl. now rewrite !append_assoc.
Qed.

Lemma starts_with_token (p : FDSParam) :
  starts_with ("      " ++ label_of p) ("      " ++ token p).
Proof.
  unfold token. destruct (FDSParam.formatted_values p) as [|v r].
  - exists EmptyString. now rewrite append_empty_r.
  - exists ("=" ++ String.concat "," (v :: r))%string.
    simpl. now rewrite ?append_assoc.
Qed.

Lemma write_param_flushes (w : writer) (p : FDSParam) :
  truthy (FDSParam.fds_label p) = true ->
  negb (newline w)
  && (String.length (line w) + 1 + String.length (token p) <=? MAXLEN) = false ->
  flushed w (write_param w p) p.
Proof.
  intros Ht Hc. rewrite write_param_eq, Hc by exact Ht. unfold flushed.
  destruct (FDSParam.formatted_values p) as [|v r] eqn:Hv.
  - exists ("      " ++ label_of p)%string, []. simpl.
    rewrite <- app_assoc. split; [reflexivity|]. split.
    + exists EmptyString. now rewrite append_empty_r.
    + intros _. unfold token. now rewrite Hv.
  - destruct (Nat.leb_spec (6 + String.length (token p)) MAXLEN) as [Hfit|Hover].
    + exists ("      " ++ token p)%string, []. simpl.
      rewrite <- app_assoc. split; [reflexivity|]. split.
      * apply starts_with_token.
      * now intros _.
    + destruct (split_writer_layout w (label_of p) (v :: r))
        as (c0 & conts & front & last & _ & _ & _ & (t & Hs) & ->);
        [discriminate|].
      exists (hd last front), (tl (front ++ [last])). simpl.
      rewrite <- app_assoc. split; [|split].
      * f_equal. f_equal. now destruct front.
      * rewrite Hs. exists ("=" ++ t)%string. simpl. now rewrite ?append_assoc.
      * intros [F|F]; [discriminate | lia].
Qed.

(** ** Greedy packing *)

Lemma split_sets_newline (w : writer) (p : FDSParam) :
  truthy (FDSParam.fds_label p) = true -> is_split w p ->
  newline (write_param w p) = true.
Proof.
  intros Ht (Hv & Hcur & Hfresh). rewrite write_param_eq by exact Ht.
  assert (Hc : negb (newline w)
               && (String.length (line w) + 1 + String.length (token p) <=? MAXLEN)
               = false).
  { destruct Hcur as [->|Hover]; [reflexivity|].
    apply andb_false_iff. right. apply Nat.leb_gt. lia. }
  rewrite Hc. destruct (FDSParam.formatted_values p) as [|v r]; [contradiction|].
  destruct (Nat.leb_spec (6 + String.length (token p)) MAXLEN); [lia|].
  unfold split_writer. now destruct (split_values _ _).
Qed.

(** ** Oversized values *)

(** C8, as amended: a parameter that does not go on the current line and
    whose token cannot fit alone on a new line indented with 6 spaces is
    written as [LABEL=] followed by its values, each with its comma, in the
    greedy layout; the lines of the layout but the last are flushed after
    the current line, and the last one, less its trailing comma, becomes
    the current line. Every value is whole on one line. *)
Theorem oversized_value_split (w : writer) (p : FDSParam) :
  truthy (FDSParam.fds_label p) = true ->
  FDSParam.formatted_values p <> [] ->
  newline w = true \/
  MAXLEN < String.length (line w) + 1 + String.length (token p) ->
  MAXLEN < 6 + String.length (token p) ->
  exists c0 conts front last,
    FDSParam.formatted_values p = values_of c0 conts /\
    greedy_from ("      " ++ label_of p ++ "=") c0 conts /\
    rendered ("      " ++ label_of p ++ "=") c0 conts
    = front ++ [(last ++ ",")%string] /\
    write_param w p = mkWriter (lines w ++ line w :: front) last true.
Proof.
  intros Ht Hv Hcur Hfresh. rewrite write_param_eq by exact Ht.
  assert (Hc : negb (newline w)
               && (String.length (line w) + 1 + String.length (token p) <=? MAXLEN)
               = false).
  { destruct Hcur as [->|Hover]; [reflexivity|].
    apply andb_false_iff. right. apply Nat.leb_gt. lia. }
  rewrite Hc.
  destruct (FDSParam.formatted_values p) as [|v r] eqn:E; [contradiction|].
  destruct (Nat.leb_spec (6 + String.length (token p)) MAXLEN); [lia|].
  destruct (split_writer_layout w (label_of p) (v :: r) Hv)
    as (c0 & conts & front & last & V & G & R & _ & W).
  now exists c0, conts, front, last.
Qed.

Lemma oversized_value_split_witness :
  exists c0 conts front last,
    [v36; v37] = values_of c0 conts /\
    greedy_from "      X=" c0 conts /\
    rendered "      X=" c0 conts = front ++ [(last ++ ",")%string] /\
    write_param (open_record "OBST") X_long
    = mkWriter ("&OBST" :: front) last true.
Proof.
  apply (oversized_value_split (open_record "OBST") X_long eq_refl).
  - discriminate.
  - right. vm_compute. lia.
  - vm_compute. lia.
Defined.

(** C8, as stated, fails: the token of [X_long] cannot fit alone on a new
    line indented with 6 spaces, but it fits after a group label of two
    letters, where it ends at column 80, and it is written there whole:
    nothing is flushed, and no continuation line is made, although the
    last value with a trailing comma would end at column 81. *)
Lemma oversized_token_not_split :
  truthy (FDSParam.fds_label X_long) = true /\
  MAXLEN < 6 + String.length (token X_long) /\
  MAXLEN < String.length ("&AB X=" ++ v36 ++ "," ++ v37 ++ ",") /\
  write_param (open_record "AB") X_long
  = mkWriter [] ("&AB X=" ++ v36 ++ "," ++ v37) false /\
  to_fds (Namelist (Some "AB") [PParam X_long] [])
  = Returned ("&AB X=" ++ v36 ++ "," ++ v37 ++ " /")%string
             (Namelist (Some "AB") [PParam X_long] []).
Proof.
  split; [reflexivity|]. split; [vm_compute; lia|].
  split; [vm_compute; lia|]. split; reflexivity.
Qed.

(** ** Column budget *)

Lemma split_values_within (vs : list string) :
  forall ls l,
    Forall within ls -> within l ->
    Forall (fun v => String.length v <= MAXLEN - 9) vs ->
    Forall within (fst (split_values vs (ls, l))) /\
    within (snd (split_values vs (ls, l))).
Proof.
  unfold split_values, within.
  induction vs as [|v vs IH]; intros ls l Hls Hl Hvs; [now split|].
  apply Forall_cons_iff in Hvs as [Hv Hvs]. cbn [fold_left split_step].
  destruct (Nat.leb_spec (String.length l + String.length v + 1) MAXLEN).
  - apply IH; try assumption.
    rewrite !length_append. simpl. lia.
  - apply IH; try assumption.
    + apply Forall_app. split; [exact Hls | now constructor].
    + rewrite (length_append "        "), length_append. simpl.
      unfold MAXLEN in *. lia.
Qed.

Lemma write_param_within (w : writer) (p : FDSParam) :
  small_param p ->
  Forall within (lines w) -> within (line w) ->
  Forall within (lines (write_param w p)) /\ within (line (write_param w p)).
Proof.
  intros [Hl Hvs] Hls Hline.
  destruct (truthy (FDSParam.fds_label p)) eqn:Ht.
  2:{ unfold write_param. rewrite Ht. now split. }
  rewrite write_param_eq by exact Ht.
  assert (Hflush : Forall within (lines w ++ [line w])).
  { apply Forall_app. split; [exact Hls | now constructor]. }
  destruct (negb (newline w)
            && (String.length (line w) + 1 + String.length (token p) <=? MAXLEN))
           eqn:Hc.
  - apply andb_prop in Hc as [_ Hc]. apply Nat.leb_le in Hc.
    split; [exact Hls|]. unfold within. simpl.
    rewrite length_append. simpl. lia.
  - destruct (FDSParam.formatted_values p) as [|v r] eqn:Hv.
    + split; [exact Hflush|]. unfold within. simpl.
      unfold MAXLEN in *. lia.
    + destruct (Nat.leb_spec (6 + String.length (token p)) MAXLEN).
      * split; [exact Hflush|]. unfold within. simpl. lia.
      * unfold split_writer.
        destruct (split_values_within (v :: r) (lines w ++ [line w])
                    ("      " ++ label_of p ++ "=")%string) as [A B];
          try assumption.
        { unfold within. simpl. rewrite length_append. simpl.
          unfold MAXLEN in *. lia. }
        destruct (split_values (v :: r) _) as [ls l]. simpl in *.
        split; [exact A|]. unfold within in *.
        pose proof (length_remove_last l). lia.
Qed.

Lemma write_record_within (label : string) (nl : list FDSParam) :
  1 + String.length label <= MAXLEN ->
  Forall small_param nl ->
  record_within (write_record label nl).
Proof.
  intros Hlabel Hnl. unfold write_record, record_within.
  exists (lines (fold_left write_param nl (open_record label))),
         (line (fold_left write_param nl (open_record label))).
  split; [reflexivity|].
  assert (G : forall w, Forall within (lines w) -> within (line w) ->
                        Forall within (lines (fold_left write_param nl w)) /\
                        within (line (fold_left write_param nl w))).
  { induction Hnl as [|p r Hp _ IH]; intros w Hls Hline; [now split|].
    simpl. destruct (write_param_within w p Hp Hls Hline). now apply IH. }
  apply G; [constructor | exact Hlabel].
Qed.

Lemma capture_member (ms : list FDSMulti) :
  forall cur m, capture cur ms = Some (Some m) -> cur = Some m \/ In m ms.
Proof.
  induction ms as [|x r IH]; intros cur m H; simpl in H.
  - left. now injection H.
  - destruct (multi_truthy cur); [discriminate|].
    destruct (IH _ _ H) as [E|E]; [injection E as ->|]; right; simpl; tauto.
Qed.

(** ** The lines of a record *)

Lemma write_param_extends (w : writer) (p : FDSParam) :
  exists t more,
    lines (write_param w p) ++ [line (write_param w p)]
    = lines w ++ (line w ++ t)%string :: more.
Proof.
  destruct (truthy (FDSParam.fds_label p)) eqn:Ht.
  2:{ unfold write_param. rewrite Ht. exists EmptyString, [].
      now rewrite append_empty_r. }
  destruct (negb (newline w)
            && (String.length (line w) + 1 + String.length (token p) <=? MAXLEN))
           eqn:Hc.
  - rewrite write_param_eq, Hc by exact Ht.
    now exists (" " ++ token p)%string, [].
  - destruct (write_param_flushes w p Ht Hc) as (fresh & more & E & _).
    exists EmptyString, (fresh :: more). now rewrite append_empty_r.
Qed.

Lemma write_params_extend (nl : list FDSParam) :
  forall w,
  exists t more,
    lines (fold_left write_param nl w) ++ [line (fold_left write_param nl w)]
    = lines w ++ (line w ++ t)%string :: more.
Proof.
  induction nl as [|p r IH]; intros w.
  - exists EmptyString, []. simpl. now rewrite append_empty_r.
  - simpl. destruct (IH (write_param w p)) as (t2 & more2 & E2).
    destruct (write_param_extends w p) as (t1 & more1 & E1).
    rewrite E2. destruct more1 as [|x more1] using rev_ind.
    + apply app_inj_tail in E1 as [-> ->].
      exists (t1 ++ t2)%string, more2. now rewrite append_assoc.
    + clear IHmore1.
      rewrite app_comm_cons, app_assoc in E1.
      apply app_inj_tail in E1 as [-> ->].
      exists t1, (more1 ++ (x ++ t2)%string :: more2).
      now rewrite <- app_assoc.
Qed.

Lemma write_record_block (label : string) (nl : list FDSParam) :
  record_block label (write_record label nl).
Proof.
  unfold write_record, record_block. split.
  - destruct (write_params_extend nl (open_record label)) as (t & more & E).
    simpl in E.
    destruct (lines (fold_left write_param nl (open_record label)))
      as [|x r].
    + simpl in E |- *. destruct more; [|destruct more; discriminate].
      injection E as ->. exists (t ++ " /")%string, [].
      now rewrite <- append_assoc.
    + simpl in E |- *. injection E as -> _. now eexists t, _.
  - now eexists _, _.
Qed.

(** ** What a match consumes *)

Lemma suffix_refl (s : string) : suffix s s.
Proof. now exists EmptyString. Qed.

Lemma suffix_trans (u t s : string) : suffix u t -> suffix t s -> suffix u s.
Proof.
  intros (p & ->) (q & ->). exists (q ++ p)%string. now rewrite append_assoc.
Qed.

Lemma suffix_tail (a : ascii) (s : string) : suffix s (String a s).
Proof. now exists (String a EmptyString). Qed.

Lemma occurs_suffix (a : ascii) (t s : string) :
  suffix t s -> occurs a t -> occurs a s.
Proof.
  intros (p & ->) (x & y & ->). exists (p ++ x)%string, y.
  now rewrite append_assoc.
Qed.

Lemma turns_continue m (greedy : bool) (n : nat) :
  continues m ->
  forall k s c x,
    turns m greedy k n s c = Some x ->
    exists s' c', suffix s' s /\ k s' c' = Some x.
Proof.
  intros Hm k. induction n as [|n IH]; intros s c x H; simpl in H.
  - exists s, c. split; [apply suffix_refl | exact H].
  - assert (Again : forall y,
               m s c (fun s' c' =>
                        if String.length s' <? String.length s
                        then turns m greedy k n s' c' else None) = Some y ->
               exists s' c', suffix s' s /\ k s' c' = Some y).
    { intros y Hy. apply Hm in Hy as (s1 & c1 & S1 & K1).
      destruct (String.length s1 <? String.length s); [|discriminate].
      apply IH in K1 as (s2 & c2 & S2 & K2).
      exists s2, c2. split; [exact (suffix_trans s2 s1 s S2 S1) | exact K2]. }
    destruct greedy.
    + destruct (m s c _) as [y|] eqn:E.
      * injection H as <-. now apply Again.
      * exists s, c. split; [apply suffix_refl | exact H].
    + destruct (k s c) as [y|] eqn:E.
      * injection H as <-. exists s, c. split; [apply suffix_refl | exact E].
      * now apply Again.
Qed.

Lemma rmatch_continues (r : regex) : continues (rmatch r).
Proof.
  unfold continues.
  induction r as [accept|r1 IH1 r2 IH2|r1 IH1 r2 IH2|g r1 IH1|i r1 IH1|r1 IH1|];
    intros s c k x H; simpl in H.
  - destruct s as [|a rest]; [discriminate|].
    destruct (accept a); [|discriminate].
    exists rest, c. split; [apply suffix_tail | exact H].
  - apply IH1 in H as (s1 & c1 & S1 & H). apply IH2 in H as (s2 & c2 & S2 & H).
    exists s2, c2. split; [exact (suffix_trans s2 s1 s S2 S1) | exact H].
  - destruct (rmatch r1 s c k) as [y|] eqn:E.
    + injection H as <-. now apply IH1 in E.
    + now apply IH2 in H.
  - now apply (turns_continue (rmatch r1) g (String.length s) IH1) in H.
  - apply IH1 in H as (s1 & c1 & S1 & H). eexists s1, _. split; eassumption.
  - destruct (rmatch r1 s c _) as [[c' t]|]; [|discriminate].
    exists s, c'. split; [apply suffix_refl | exact H].
  - destruct s as [|a [|b rest]]; try discriminate.
    + exists EmptyString, c. split; [apply suffix_refl | exact H].
    + destruct (Ascii.eqb a newline_char); [|discriminate].
      exists (String a EmptyString), c. split; [apply suffix_refl | exact H].
Qed.

(** A match of the pattern consumes an [=] sign. *)
Lemma match_needs_equals (s : string) (c : captures)
      (k : string -> captures -> option found) (x : found) :
  rmatch _RE_SCAN_PARAMS s c k = Some x -> occurs "=" s.
Proof.
  unfold _RE_SCAN_PARAMS. cbn [rmatch]. intros H.
  apply (rmatch_continues re_label) in H as (s1 & c1 & S1 & H).
  apply (turns_continue (rmatch (Chars is_separator)) true (String.length s1)
                        (rmatch_continues (Chars is_separator)))
    in H as (s2 & c2 & S2 & H).
  cbn [rmatch lit] in H.
  destruct s2 as [|a rest]; [discriminate|].
  destruct (Ascii.eqb_spec "="%char a) as [<-|]; [|discriminate].
  apply (occurs_suffix "=" (String "=" rest) s).
  - exact (suffix_trans _ s1 s S2 S1).
  - now exists EmptyString, rest.
Qed.

Lemma occurs_tail (a b : ascii) (s : string) :
  occurs a s -> occurs a (String b s).
Proof. apply occurs_suffix, suffix_tail. Qed.

Lemma finditer_without_equals (fuel : nat) :
  forall s, ~ occurs "=" s -> finditer fuel _RE_SCAN_PARAMS s = [].
Proof.
  induction fuel as [|fuel IH]; intros s Hs; [reflexivity|]. cbn [finditer].
  destruct (rmatch _RE_SCAN_PARAMS s [] (fun s' c => Some (c, s')))
    as [[c s']|] eqn:E.
  - apply match_needs_equals in E. contradiction.
  - destruct s as [|a rest]; [reflexivity|].
    apply IH. intros O. apply Hs. now apply occurs_tail.
Qed.

(** The scan stops for want of text, not of fuel. *)
Lemma finditer_enough (r : regex) (fuel : nat) :
  forall s fuel',
    String.length s < fuel -> String.length s < fuel' ->
    finditer fuel r s = finditer fuel' r s.
Proof.
  induction fuel as [|fuel IH]; intros s fuel' H H'; [lia|].
  destruct fuel' as [|fuel']; [lia|]. cbn [finditer].
  assert (T : match s with
              | EmptyString => []
              | String _ rest => finditer fuel r rest
              end
              = match s with
                | EmptyString => []
                | String _ rest => finditer fuel' r rest
                end).
  { destruct s as [|a rest]; [reflexivity|]. simpl in H, H'. apply IH; lia. }
  destruct (rmatch r s [] (fun s' c => Some (c, s'))) as [[c s']|];
    [|exact T].
  f_equal. destruct (Nat.ltb_spec (String.length s') (String.length s));
    [apply IH; lia | exact T].
Qed.

(** ** Every match is a span [LABEL = VALUE] *)

Lemma turns_consume (r : regex) (g : bool) (n : nat) :
  (forall s c k x,
      rmatch r s c k = Some x ->
      exists pre s', s = (pre ++ s')%string /\ consumes r pre /\ k s' c = Some x) ->
  forall k s c x,
    turns (rmatch r) g k n s c = Some x ->
    exists pre s',
      s = (pre ++ s')%string /\ consumes (Star g r) pre /\ k s' c = Some x.
Proof.
  intros Hr k. induction n as [|n IH]; intros s c x H; cbn [turns] in H.
  - exists EmptyString, s. repeat split; [constructor | exact H].
  - assert (Again : forall y,
               rmatch r s c
                 (fun s' c' => if String.length s' <? String.length s
                               then turns (rmatch r) g k n s' c' else None)
               = Some y ->
               exists pre s',
                 s = (pre ++ s')%string /\ consumes (Star g r) pre /\
                 k s' c = Some y).
    { intros y Hy. apply Hr in Hy as (p1 & s1 & -> & C1 & K1).
      destruct (String.length s1 <? String.length (p1 ++ s1)); [|discriminate].
      apply IH in K1 as (p2 & s2 & -> & C2 & K2).
      exists (p1 ++ p2)%string, s2. rewrite append_assoc.
      repeat split; [now constructor | exact K2]. }
    destruct g.
    + destruct (rmatch r s c _) as [y|] eqn:E.
      * injection H as <-. now apply Again.
      * exists EmptyString, s. repeat split; [constructor | exact H].
    + destruct (k s c) as [y|] eqn:E.
      * injection H as <-. exists EmptyString, s.
        repeat split; [constructor | exact E].
      * now apply Again.
Qed.

(** A match of a pattern without groups consumes a text that the pattern
    describes, and leaves the groups as they were. *)
Lemma rmatch_consumes (r : regex) :
  group_free r = true ->
  forall s c k x,
    rmatch r s c k = Some x ->
    exists pre s', s = (pre ++ s')%string /\ consumes r pre /\ k s' c = Some x.
Proof.
  induction r as [accept|r1 IH1 r2 IH2|r1 IH1 r2 IH2|g r1 IH1|i r1 IH1|r1 IH1|];
    intros G s c k x H; cbn [rmatch] in H; cbn [group_free] in G.
  - destruct s as [|a rest]; [discriminate|].
    destruct (accept a) eqn:Ha; [|discriminate].
    exists (String a EmptyString), rest. repeat split; [now constructor | exact H].
  - apply andb_prop in G as [G1 G2].
    apply (IH1 G1) in H as (p1 & s1 & -> & C1 & H).
    apply (IH2 G2) in H as (p2 & s2 & -> & C2 & H).
    exists (p1 ++ p2)%string, s2. rewrite append_assoc.
    repeat split; [now constructor | exact H].
  - apply andb_prop in G as [G1 G2].
    destruct (rmatch r1 s c k) as [y|] eqn:E.
    + injection H as <-. apply (IH1 G1) in E as (p & s' & -> & C & K).
      exists p, s'. repeat split; [now apply consumes_alt_l | exact K].
    + apply (IH2 G2) in H as (p & s' & -> & C & K).
      exists p, s'. repeat split; [now apply consumes_alt_r | exact K].
  - exact (turns_consume r1 g (String.length s) (IH1 G) k s c x H).
  - discriminate.
  - destruct (rmatch r1 s c _) as [[c' t]|] eqn:E; [|discriminate].
    apply (IH1 G) in E as (p & s' & _ & _ & K). injection K as <- _.
    exists EmptyString, s. repeat split; [constructor | exact H].
  - exists EmptyString, s. split; [reflexivity|]. split; [constructor|].
    destruct s as [|a [|b rest]]; try discriminate; [exact H|].
    now destruct (Ascii.eqb a newline_char).
Qed.

Lemma all_chars_append (f : ascii -> bool) (s t : string) :
  all_chars f (s ++ t) = all_chars f s && all_chars f t.
Proof.
  induction s as [|a s IH]; simpl; [reflexivity|].
  now rewrite IH, andb_assoc.
Qed.

Lemma consumes_star_chars (g : bool) (f : ascii -> bool) (pre : string) :
  consumes (Star g (Chars f)) pre -> all_chars f pre = true.
Proof.
  remember (Star g (Chars f)) as r eqn:R. intros C.
  induction C as [| | | | |g' r' p1 p2 C1 _ C2 IH2| |]; try discriminate.
  - reflexivity.
  - injection R as -> ->. rewrite all_chars_append, (IH2 eq_refl).
    inversion C1 as [accept a Ha| | | | | | |]; subst. simpl. now rewrite Ha.
Qed.

Lemma consumes_label (pre : string) :
  consumes re_label pre -> is_label pre = true.
Proof.
  unfold re_label. intros C.
  inversion C as [|r1 r2 p1 p2 C1 C2| | | | | |]; subst.
  inversion C1 as [accept a Ha| | | | | | |]; subst.
  apply consumes_star_chars in C2. simpl. now rewrite Ha, C2.
Qed.

Lemma substring_prefix (pre t : string) :
  substring 0 (String.length (pre ++ t) - String.length t) (pre ++ t) = pre.
Proof.
  rewrite length_append. replace (_ + _ - _) with (String.length pre) by lia.
  induction pre as [|a pre IH]; simpl.
  - now destruct t.
  - now rewrite IH.
Qed.

(** A match of [_RE_SCAN_PARAMS] at the head of [s]: a label, separators,
    [=], separators, and the value; the groups are the label and the
    value. *)
Lemma match_is_span (s : string) (c : captures) (rest : string) :
  rmatch _RE_SCAN_PARAMS s [] (fun s' c' => Some (c', s')) = Some (c, rest) ->
  exists label sep1 sep2 value,
    s = (label ++ sep1 ++ "=" ++ sep2 ++ value ++ rest)%string /\
    is_label label = true /\
    all_chars is_separator sep1 = true /\
    all_chars is_separator sep2 = true /\
    groups c = (label, value).
Proof.
  unfold _RE_SCAN_PARAMS. cbn [rmatch]. intros H.
  apply (rmatch_consumes re_label eq_refl) in H as (label & s1 & -> & CL & H).
  apply (turns_consume (Chars is_separator) true (String.length s1)
           (rmatch_consumes (Chars is_separator) eq_refl))
    in H as (sep1 & s2 & -> & C1 & H).
  cbn beta in H. cbn [rmatch lit] in H.
  destruct s2 as [|a s3]; [discriminate|].
  destruct (Ascii.eqb_spec "="%char a) as [<-|]; [|discriminate].
  unfold re_separators in H. cbn [rmatch] in H.
  apply (turns_consume (Chars is_separator) true (String.length s3)
           (rmatch_consumes (Chars is_separator) eq_refl))
    in H as (sep2 & s4 & -> & C2 & H).
  cbn beta in H.
  match type of H with
  | rmatch re_value ?t ?g (fun s2 c2 => rmatch re_value_end s2 c2 ?k) = _ =>
      change (rmatch (Cat re_value re_value_end) t g k = Some (c, rest)) in H
  end.
  apply (rmatch_consumes (Cat re_value re_value_end) eq_refl)
    in H as (value & s5 & -> & _ & H).
  injection H as <- <-.
  exists label, sep1, sep2, value. split; [reflexivity|].
  split; [now apply consumes_label|].
  split; [now apply (consumes_star_chars true)|].
  split; [now apply (consumes_star_chars true)|].
  unfold groups. cbn [group Nat.eqb]. now rewrite !substring_prefix.
Qed.

Lemma spans_skip (a : ascii) (s : string) (ms : list (string * string)) :
  spans s ms -> spans (String a s) ms.
Proof.
  intros [s0|before label sep1 sep2 value rest ms0 L S1 S2 R]; [constructor|].
  now apply (spans_next (String a before)).
Qed.

Lemma finditer_spans (fuel : nat) :
  forall s, spans s (map groups (finditer fuel _RE_SCAN_PARAMS s)).
Proof.
  induction fuel as [|fuel IH]; intros s; [constructor|]. cbn [finditer].
  assert (Skip : spans s (map groups
                           match s with
                           | EmptyString => []
                           | String _ rest => finditer fuel _RE_SCAN_PARAMS rest
                           end)).
  { destruct s as [|a rest]; [constructor|]. apply spans_skip, IH. }
  destruct (rmatch _RE_SCAN_PARAMS s [] (fun s' c => Some (c, s')))
    as [[c s']|] eqn:E; [|exact Skip].
  apply match_is_span in E as (label & sep1 & sep2 & value & -> & L & S1 & S2 & G).
  cbn [map]. rewrite G.
  apply (spans_next EmptyString label sep1 sep2 value s'); try assumption.
  match goal with |- context [if ?b then _ else _] => destruct b eqn:B end;
    [apply IH|].
  apply Nat.ltb_ge in B. rewrite !length_append in B. simpl in B. lia.
Qed.

(** The pairs that the scan gives are the labels and values of spans
    [LABEL = VALUE] of the text, in the order of the text. *)
Lemma scan_params_spans (s : string) : spans s (scan_params s).
Proof. apply finditer_spans. Qed.

(** ** One line *)

Lemma no_break_append (s t : string) :
  no_break (s ++ t) = no_break s && no_break t.
Proof.
  induction s as [|a s IH]; simpl; [reflexivity|].
  now rewrite IH, andb_assoc.
Qed.

Lemma splitlines_from_no_break (n : nat) :
  forall s cur,
    String.length s <= n -> no_break cur = true ->
    Forall (fun l => no_break l = true) (splitlines_from cur s).
Proof.
  induction n as [|n IH]; intros s cur Hn Hcur.
  - destruct s; [|simpl in Hn; lia]. simpl.
    destruct cur; [constructor | now repeat constructor].
  - destruct s as [|a rest]; simpl.
    + destruct cur; [constructor | now repeat constructor].
    + simpl in Hn. destruct (is_linebreak a) eqn:Ha.
      * destruct rest as [|b rest']; [now repeat constructor|].
        simpl in Hn.
        destruct (Ascii.eqb a CR && Ascii.eqb b newline_char);
          (constructor; [exact Hcur|]); apply IH; simpl; try lia; reflexivity.
      * apply IH; [lia|]. rewrite no_break_append, Hcur. simpl.
        now rewrite Ha.
Qed.

Lemma concat_no_break (ls : list string) :
  Forall (fun l => no_break l = true) ls ->
  no_break (String.concat " " ls) = true.
Proof.
  induction 1 as [|l r Hl Hr IH]; [reflexivity|].
  destruct r as [|l' r']; [exact Hl|].
  change (String.concat " " (l :: l' :: r'))
    with (l ++ String " " (String.concat " " (l' :: r')))%string.
  rewrite no_break_append, Hl. simpl. exact IH.
Qed.

Lemma join_lines_no_break (f90 : string) : no_break (join_lines f90) = true.
Proof.
  apply concat_no_break.
  now apply (splitlines_from_no_break (String.length (strip f90))).
Qed.

(** ** Parsing: one parameter per match *)

Lemma append_params_read (pf : string -> string -> (string * string) + FDSParam)
      (matches : list (string * string)) :
  forall n ps,
    read_params pf matches = inr ps ->
    append_params pf n matches
    = Returned tt (Namelist (fds_label n) (fds_params n ++ map PParam ps) (msgs n)).
Proof.
  induction matches as [|[label raw] rest IH]; intros n ps H; simpl in H |- *.
  - injection H as <-. simpl. rewrite app_nil_r. now destruct n.
  - destruct (pf label raw) as [e|p]; [discriminate|].
    destruct (read_params pf rest) as [e|ps'] eqn:R; [discriminate|].
    injection H as <-. rewrite (IH _ ps' eq_refl). simpl.
    now rewrite <- app_assoc.
Qed.

Lemma read_params_each (pf : string -> string -> (string * string) + FDSParam)
      (matches : list (string * string)) :
  forall ps,
    read_params pf matches = inr ps ->
    Forall2 (fun m p => pf (fst m) (snd m) = inr p) matches ps.
Proof.
  induction matches as [|[label raw] rest IH]; intros ps H; simpl in H.
  - injection H as <-. constructor.
  - destruct (pf label raw) as [e|p] eqn:E; [discriminate|].
    destruct (read_params pf rest) as [e|ps'] eqn:R; [discriminate|].
    injection H as <-. constructor; [exact E | now apply IH].
Qed.

Lemma append_params_raised (pf : string -> string -> (string * string) + FDSParam)
      (matches : list (string * string)) :
  forall n e n',
    append_params pf n matches = Raised e n' ->
    exists label raw, In (label, raw) matches /\ pf label raw = inl e.
Proof.
  induction matches as [|[label raw] rest IH]; intros n e n' H; simpl in H.
  - discriminate.
  - destruct (pf label raw) as [e'|p] eqn:E.
    + injection H as <- _. exists label, raw. split; [now left | exact E].
    + apply IH in H as (l & v & Hin & Hpf).
      exists l, v. split; [now right | exact Hpf].
Qed.

Lemma occurs_mentions (a : ascii) (s : string) :
  occurs a s -> mentions a s = true.
Proof.
  intros (x & y & ->). induction x as [|b x IH]; simpl.
  - now rewrite Ascii.eqb_refl.
  - rewrite IH. apply orb_true_r.
Qed.

(** C9: [from_fds] scans the text joined into one line; the matches are
    the spans [LABEL = VALUE] of that line, in its order; when every
    matched value is read by [FDSParam], one parameter per match is
    appended, in the order of the matches, each read from the label of
    group 1 and the raw value of group 2; an exception comes from the
    reading of a matched value, never from the scan; a text without an
    [=] sign has no match, gives no parameter and no exception. *)
Theorem lenient_parse (param_from_fds : string -> string -> (string * string) + FDSParam)
        (n : FDSNamelist) (f90 : string) :
  let matches := scan_params (join_lines f90) in
  no_break (join_lines f90) = true /\
  spans (join_lines f90) matches /\
  (forall ps,
      read_params param_from_fds matches = inr ps ->
      from_fds param_from_fds n f90
      = Returned tt (Namelist (fds_label n) (fds_params n ++ map PParam ps)
                              (msgs n)) /\
      Forall2 (fun m p => param_from_fds (fst m) (snd m) = inr p) matches ps) /\
  (forall e n',
      from_fds param_from_fds n f90 = Raised e n' ->
      exists label raw,
        In (label, raw) matches /\ param_from_fds label raw = inl e) /\
  (~ occurs "=" (join_lines f90) ->
   matches = [] /\ from_fds param_from_fds n f90 = Returned tt n).
Proof.
  intros matches. split; [apply join_lines_no_break|].
  split; [apply scan_params_spans|]. split; [|split].
  - intros ps R. split.
    + now apply append_params_read.
    + now apply read_params_each.
  - intros e n' R. now apply append_params_raised in R.
  - intros Hno.
    assert (E : matches = []).
    { unfold matches, scan_params.
      now rewrite finditer_without_equals. }
    split; [exact E|]. unfold from_fds. fold matches. now rewrite E.
Qed.

Lemma lenient_parse_witness :
  (from_fds raw_param (Namelist (Some "OBST") [] []) f90_two_lines
   = Returned tt
       (Namelist (Some "OBST")
                 [PParam (FDSParam.mk (Some "ID") ["'Test'"] []);
                  PParam (FDSParam.mk (Some "PROP") ["2.34, 1.23, 3.44"] [])]
                 []) /\
   Forall2 (fun m p => raw_param (fst m) (snd m) = inr p)
           (scan_params (join_lines f90_two_lines))
           [FDSParam.mk (Some "ID") ["'Test'"] [];
            FDSParam.mk (Some "PROP") ["2.34, 1.23, 3.44"] []]) /\
  (scan_params (join_lines "FOO BAR") = [] /\
   from_fds raw_param (Namelist (Some "OBST") [] []) "FOO BAR"
   = Returned tt (Namelist (Some "OBST") [] [])).
Proof.
  split.
  - exact (proj1 (proj2 (proj2 (lenient_parse raw_param
                                                (Namelist (Some "OBST") [] [])
                                                f90_two_lines)))
                 [FDSParam.mk (Some "ID") ["'Test'"] [];
                  FDSParam.mk (Some "PROP") ["2.34, 1.23, 3.44"] []]
                 eq_refl).
  - apply (proj2 (proj2 (proj2 (proj2 (lenient_parse raw_param
                                  (Namelist (Some "OBST") [] []) "FOO BAR"))))).
    intros O. apply occurs_mentions in O. vm_compute in O. discriminate O.
Defined.

(** The example of the docstring of [from_fds]. *)
Example scan_docstring :
  scan_params "ID='Test' PROP=2.34, 1.23, 3.44"
  = [("ID", "'Test'"); ("PROP", "2.34, 1.23, 3.44")].
Proof. reflexivity. Qed.

(** A label without [=] before the first match is dropped; one after a
    value is part of that value; an unterminated quote does not stop the
    scan, the value is handed over as it is. *)
Example scan_stray_segments :
  scan_params "FOO ID='A b=c'  XB = 1,2 , C(1:2)=3 FLAG"
  = [("ID", "'A b=c'"); ("XB", "1,2"); ("C(1:2)", "3 FLAG")] /\
  scan_params "ID='Test" = [("ID", "'Test")].
Proof. split; reflexivity. Qed.

(** ** The turns of a repetition are bounded by the text *)

Lemma rmatch_ext (r : regex) :
  forall s c k1 k2,
    (forall s' c', suffix s' s -> k1 s' c' = k2 s' c') ->
    rmatch r s c k1 = rmatch r s c k2.
Proof.
  induction r as [accept|r1 IH1 r2 IH2|r1 IH1 r2 IH2|g r1 IH1|i r1 IH1|r1 IH1|];
    intros s c k1 k2 A; cbn [rmatch].
  - destruct s as [|a rest]; [reflexivity|].
    destruct (accept a); [|reflexivity]. apply A, suffix_tail.
  - apply IH1. intros s1 c1 S1. apply IH2. intros s2 c2 S2.
    apply A. exact (suffix_trans s2 s1 s S2 S1).
  - rewrite (IH1 s c k1 k2 A), (IH2 s c k1 k2 A). reflexivity.
  - generalize (String.length s) as n. intros n. revert s c A.
    induction n as [|n IHn]; intros s c A; cbn [turns].
    + apply A, suffix_refl.
    + rewrite (A s c (suffix_refl s)).
      assert (E : rmatch r1 s c
                    (fun s' c' => if String.length s' <? String.length s
                                  then turns (rmatch r1) g k1 n s' c' else None)
                  = rmatch r1 s c
                    (fun s' c' => if String.length s' <? String.length s
                                  then turns (rmatch r1) g k2 n s' c' else None)).
      { apply IH1. intros s' c' S'.
        destruct (String.length s' <? String.length s); [|reflexivity].
        apply IHn. intros s2 c2 S2. apply A.
        exact (suffix_trans s2 s' s S2 S'). }
      now rewrite E.
  - apply IH1. intros s' c' S'. now apply A.
  - destruct (rmatch r1 s c _) as [[c' t]|]; [|reflexivity].
    apply A, suffix_refl.
  - destruct s as [|a [|b rest]]; try reflexivity.
    + apply A, suffix_refl.
    + destruct (Ascii.eqb a newline_char); [|reflexivity]. apply A, suffix_refl.
Qed.

Lemma rmatch_dead_end (r : regex) (s : string) (c : captures) :
  rmatch r s c (fun _ _ => None) = None.
Proof.
  destruct (rmatch r s c (fun _ _ => None)) as [x|] eqn:E; [|reflexivity].
  apply rmatch_continues in E as (s' & c' & _ & E). discriminate.
Qed.

(** More turns than the text has characters change nothing. *)
Lemma turns_enough (r : regex) (g : bool)
      (k : string -> captures -> option found) (n : nat) :
  forall n' s c,
    String.length s <= n -> String.length s <= n' ->
    turns (rmatch r) g k n s c = turns (rmatch r) g k n' s c.
Proof.
  assert (Empty : forall m c,
             turns (rmatch r) g k m EmptyString c = k EmptyString c).
  { intros [|m] c; cbn [turns]; [reflexivity|].
    rewrite (rmatch_ext r EmptyString c _ (fun _ _ => None))
      by (intros; reflexivity).
    rewrite rmatch_dead_end. destruct g; [reflexivity|].
    now destruct (k EmptyString c). }
  induction n as [|n IH]; intros n' s c H H'.
  - destruct s; [|simpl in H; lia]. now rewrite !Empty.
  - destruct n' as [|n'].
    + destruct s; [|simpl in H'; lia]. now rewrite !Empty.
    + cbn [turns].
      assert (E : rmatch r s c
                    (fun s' c' => if String.length s' <? String.length s
                                  then turns (rmatch r) g k n s' c' else None)
                  = rmatch r s c
                    (fun s' c' => if String.length s' <? String.length s
                                  then turns (rmatch r) g k n' s' c' else None)).
      { apply rmatch_ext. intros s' c' _.
        destruct (Nat.ltb_spec (String.length s') (String.length s));
          [|reflexivity].
        apply IH; lia. }
      now rewrite E.
Qed.

(** ** Examples of the specification *)

Example to_fds_numeric_example :
  text_of (to_fds (Namelist (Some "OBST")
                            [PParam ID_Wall; PParam XB_unit; PParam COLOR_RED] []))
  = Some "&OBST ID='Wall' XB=0.000,1.000,0.000,1.000,0.000,1.000 COLOR='RED' /".
Proof. reflexivity. Qed.

Example to_fds_multi_example :
  text_of (to_fds (Namelist (Some "OBST") obst_entries []))
  = Some (String.concat LF
      [ "&OBST SURF_ID='INERT' ID='A' XB=0.000,1.000,0.000,1.000,0.000,1.000 /";
        "&OBST SURF_ID='INERT' ID='B' XB=0.000,1.000,0.000,1.000,0.000,1.000 /" ]).
Proof. reflexivity. Qed.

(** * Further properties *)

(** ** Looking parameters up *)

Lemma label_eqb_eq (a b : option string) : label_eqb a b = true <-> a = b.
Proof.
  destruct a as [x|], b as [y|]; simpl; split; intros H;
    try discriminate; try reflexivity.
  - apply String.eqb_eq in H. now subst.
  - injection H as ->. apply String.eqb_refl.
Qed.

Lemma label_eqb_neq (a b : option string) : label_eqb a b = false <-> a <> b.
Proof.
  rewrite <- label_eqb_eq. destruct (label_eqb a b); split; intros H.
  - discriminate.
  - now contradiction H.
  - intros E. discriminate.
  - reflexivity.
Qed.

(** What the loop of [get_fds_param] gives, case by case. *)
Lemma get_in_cases (param_true : FDSParam -> bool) (label : option string)
      (remove : bool) (ps : list entry) :
  match get_in param_true label remove ps with
  | Returned None ps' =>
      ps' = ps /\ Forall (passed param_true label) ps
  | Returned (Some p) ps' =>
      exists before after,
        ps = before ++ p :: after /\
        Forall (passed param_true label) before /\
        entry_true param_true p = true /\
        (truthy label = true -> entry_label p = Some label) /\
        ps' = (if remove then before ++ after else ps)
  | Raised e ps' =>
      ps' = ps /\ e = NoLabelAttribute /\ truthy label = true /\
      exists before x after,
        ps = before ++ x :: after /\
        Forall (passed param_true label) before /\
        entry_true param_true x = true /\ entry_label x = None
  end.
Proof.
  induction ps as [|x rest IH]; [now split|]. cbn [get_in].
  assert (Next : passed param_true label x ->
            match
              match get_in param_true label remove rest with
              | Returned r rest' => Returned r (x :: rest')
              | Raised e rest' => Raised e (x :: rest')
              end
            with
            | Returned None ps' =>
                ps' = x :: rest /\ Forall (passed param_true label) (x :: rest)
            | Returned (Some p) ps' =>
                exists before after,
                  x :: rest = before ++ p :: after /\
                  Forall (passed param_true label) before /\
                  entry_true param_true p = true /\
                  (truthy label = true -> entry_label p = Some label) /\
                  ps' = (if remove then before ++ after else x :: rest)
            | Raised e ps' =>
                ps' = x :: rest /\ e = NoLabelAttribute /\ truthy label = true /\
                exists before y after,
                  x :: rest = before ++ y :: after /\
                  Forall (passed param_true label) before /\
                  entry_true param_true y = true /\ entry_label y = None
            end).
  { intros Px. destruct (get_in param_true label remove rest) as [[p|] ps'|e ps'].
    - destruct IH as (before & after & -> & Hb & Hp & Hl & ->).
      exists (x :: before), after. repeat split; try assumption.
      + now constructor.
      + now destruct remove.
    - destruct IH as [-> Hall]. split; [reflexivity | now constructor].
    - destruct IH as (-> & -> & Ht & before & y & after & -> & Hb & Hy & Hn).
      repeat split; try assumption.
      exists (x :: before), y, after. repeat split; try assumption.
      now constructor. }
  destruct (entry_true param_true x) eqn:Tx; cbn [negb].
  2:{ apply Next. now left. }
  destruct (truthy label) eqn:Tl.
  - destruct (entry_label x) as [l|] eqn:Lx.
    + destruct (label_eqb l label) eqn:E; cbn [negb].
      * apply label_eqb_eq in E. subst l.
        exists [], rest. repeat split; try assumption; try constructor.
        now destruct remove.
      * apply label_eqb_neq in E. apply Next. right. split; [exact Tl|].
        now exists l.
    + repeat split; try reflexivity.
      exists [], x, rest. repeat split; try assumption. constructor.
  - exists [], rest.
    repeat split; try assumption; try constructor; try discriminate;
      now destruct remove.
Qed.

Lemma get_in_found (param_true : FDSParam -> bool) (label : option string)
      (remove : bool) (p : entry) (after : list entry) (before : list entry) :
  Forall (passed param_true label) before ->
  entry_true param_true p = true ->
  (truthy label = true -> entry_label p = Some label) ->
  get_in param_true label remove (before ++ p :: after)
  = Returned (Some p)
             (if remove then before ++ after else before ++ p :: after).
Proof.
  intros Hb Hp Hl. induction Hb as [|x r Hx _ IH]; cbn [app get_in].
  - rewrite Hp. cbn [negb]. destruct (truthy label).
    + rewrite (Hl eq_refl).
      replace (label_eqb label label) with true
        by (symmetry; now apply label_eqb_eq).
      reflexivity.
    + reflexivity.
  - rewrite IH.
    assert (R : Returned (Some p)
                  (x :: (if remove then r ++ after else r ++ p :: after))
                = Returned (A := option entry) (Some p)
                    (if remove then x :: r ++ after else x :: r ++ p :: after))
      by now destruct remove.
    destruct Hx as [Fx|(Tl & l & Lx & Nx)].
    + rewrite Fx. exact R.
    + destruct (entry_true param_true x); cbn [negb]; [|exact R].
      rewrite Tl, Lx. apply label_eqb_neq in Nx. rewrite Nx. exact R.
Qed.

(** X1: [get_fds_param] returns the first element that is true and, when
    a label is asked for, carries that label; with [remove] the element
    is taken out of [fds_params] and the others keep their order, without
    it the namelist is left as it was. ([list.remove] is read as taking
    out the element found: no element before it is equal to it.) *)
Theorem get_fds_param_found (param_true : FDSParam -> bool) (n : FDSNamelist)
        (label : option string) (remove : bool)
        (before : list entry) (p : entry) (after : list entry) :
  fds_params n = before ++ p :: after ->
  Forall (passed param_true label) before ->
  recognized p = true ->
  entry_true param_true p = true ->
  (truthy label = true -> entry_label p = Some label) ->
  get_fds_param param_true n label remove
  = Returned (Some p)
      (Namelist (fds_label n)
                (if remove then before ++ after else before ++ p :: after)
                (msgs n)).
Proof.
  intros E Hb _ Hp Hl. unfold get_fds_param.
  now rewrite E, (get_in_found param_true label remove p after before Hb Hp Hl).
Qed.

Lemma get_fds_param_found_witness :
  get_fds_param always_true (Namelist (Some "OBST") lookup_entries [])
                (Some "ID") true
  = Returned (Some (PParam ID_A))
      (Namelist (Some "OBST")
                [PNone; PParam SURF_INERT; PParam FYI_note; PParam ID_B] []).
Proof.
  apply (get_fds_param_found always_true
           (Namelist (Some "OBST") lookup_entries []) (Some "ID") true
           [PNone; PParam SURF_INERT] (PParam ID_A)
           [PParam FYI_note; PParam ID_B]); try reflexivity.
  constructor; [now left|]. constructor; [|constructor].
  right. split; [reflexivity|]. exists (Some "SURF_ID").
  split; [reflexivity | discriminate].
Defined.

(** X2: on a namelist of elements of the module, [get_fds_param] returns
    [None] exactly when every element is passed over: each one is false
    ([None], an empty [FDSMany] or [FDSMulti], a false parameter) or
    carries another label than the one asked for; the namelist is then
    left as it was, also with [remove]. *)
Theorem get_fds_param_none (param_true : FDSParam -> bool) (n : FDSNamelist)
        (label : option string) (remove : bool) :
  forallb recognized (fds_params n) = true ->
  (Forall (passed param_true label) (fds_params n) ->
   get_fds_param param_true n label remove = Returned None n) /\
  (forall n', get_fds_param param_true n label remove = Returned None n' ->
              n' = n /\ Forall (passed param_true label) (fds_params n)).
Proof.
  intros _. destruct n as [l ps ms]. unfold get_fds_param. cbn [fds_params fds_label msgs].
  pose proof (get_in_cases param_true label remove ps) as C.
  destruct (get_in param_true label remove ps) as [[p|] ps'|e ps'].
  - destruct C as (before & after & -> & Hb & Hp & Hl & _). split.
    + intros Hall. apply Forall_app in Hall as [_ Hall].
      apply Forall_cons_iff in Hall as [[F|(Tl & l' & L & N)] _].
      * rewrite F in Hp. discriminate.
      * rewrite (Hl Tl) in L. injection L as <-. now contradiction N.
    + intros n' H. discriminate.
  - destruct C as [-> Hall]. split; [reflexivity|].
    intros n' H. injection H as <-. now split.
  - destruct C as (-> & _ & Tl & before & x & after & -> & Hb & Hx & Hn). split.
    + intros Hall. apply Forall_app in Hall as [_ Hall].
      apply Forall_cons_iff in Hall as [[F|(_ & l' & L & _)] _].
      * rewrite F in Hx. discriminate.
      * rewrite Hn in L. discriminate.
    + intros n' H. discriminate.
Qed.

Lemma get_fds_param_none_witness :
  get_fds_param always_true (Namelist (Some "OBST") lookup_entries [])
                (Some "XB") true
  = Returned None (Namelist (Some "OBST") lookup_entries []).
Proof.
  apply (proj1 (get_fds_param_none always_true
                  (Namelist (Some "OBST") lookup_entries []) (Some "XB") true
                  eq_refl)).
  unfold lookup_entries. cbn [fds_params].
  constructor; [now left|].
  repeat (constructor;
          [right; split; [reflexivity|]; eexists; split;
           [reflexivity | discriminate]|]).
  constructor.
Defined.

Lemma no_label_filled (param_true : FDSParam -> bool) (x : entry) :
  recognized x = true -> entry_true param_true x = true ->
  entry_label x = None -> filled_list x.
Proof.
  destruct x as [|q|m|[|i items] ms|[[|g gs] mm]|r]; simpl;
    intros R T L; try discriminate; exact I.
Qed.

Lemma filled_no_label (param_true : FDSParam -> bool) (x : entry) :
  filled_list x -> entry_true param_true x = true /\ entry_label x = None.
Proof.
  destruct x as [|q|m|[|i items] ms|[[|g gs] mm]|r]; simpl;
    intros F; try contradiction; now split.
Qed.

(** X3: on a namelist of elements of the module, [get_fds_param] raises
    exactly when a label is asked for and a non-empty [FDSMany] or
    [FDSMulti] comes before any element with that label; the exception is
    the [AttributeError] of its missing [fds_label], and the namelist is
    left as it was. *)
Theorem get_fds_param_raises (param_true : FDSParam -> bool) (n : FDSNamelist)
        (label : option string) (remove : bool) :
  forallb recognized (fds_params n) = true ->
  (forall e n',
      get_fds_param param_true n label remove = Raised e n' ->
      e = NoLabelAttribute /\ n' = n /\ truthy label = true /\
      exists before x after,
        fds_params n = before ++ x :: after /\
        Forall (passed param_true label) before /\ filled_list x) /\
  (forall before x after,
      truthy label = true ->
      fds_params n = before ++ x :: after ->
      Forall (passed param_true label) before -> filled_list x ->
      get_fds_param param_true n label remove = Raised NoLabelAttribute n).
Proof.
  intros Hrec. destruct n as [l ps ms]. unfold get_fds_param.
  cbn [fds_params fds_label msgs] in *.
  pose proof (get_in_cases param_true label remove ps) as C. split.
  - intros e n' H.
    destruct (get_in param_true label remove ps) as [r ps'|e' ps'];
      [discriminate|].
    injection H as <- <-.
    destruct C as (-> & -> & Tl & before & x & after & -> & Hb & Hx & Hn).
    repeat split; try assumption. exists before, x, after.
    repeat split; try assumption.
    apply (no_label_filled param_true); try assumption.
    rewrite forallb_app in Hrec. apply andb_prop in Hrec as [_ Hrec].
    simpl in Hrec. now apply andb_prop in Hrec as [Hrec _].
  - intros before x after Tl -> Hb Fx.
    destruct (filled_no_label param_true x Fx) as [Tx Lx].
    destruct (get_in param_true label remove (before ++ x :: after))
      as [[p|] ps'|e ps'].
    + destruct C as (b2 & a2 & E & Hb2 & Hp & Hl & _). exfalso.
      revert b2 E Hb2. clear Hrec.
      induction Hb as [|y r Hy _ IH]; intros b2 E Hb2.
      * destruct b2 as [|z b2]; simpl in E; injection E as E1 E2.
        -- subst p. rewrite (Hl Tl) in Lx. discriminate.
        -- subst z. apply Forall_cons_iff in Hb2 as [[F|(_ & l' & L & _)] _].
           ++ rewrite F in Tx. discriminate.
           ++ rewrite Lx in L. discriminate.
      * destruct b2 as [|z b2]; simpl in E; injection E as E1 E2.
        -- subst p. destruct Hy as [F|(_ & l' & L & N)].
           ++ rewrite F in Hp. discriminate.
           ++ rewrite (Hl Tl) in L. injection L as <-. now contradiction N.
        -- apply Forall_cons_iff in Hb2 as [_ Hb2]. exact (IH b2 E2 Hb2).
    + destruct C as [_ Hall]. apply Forall_app in Hall as [_ Hall].
      apply Forall_cons_iff in Hall as [[F|(_ & l' & L & _)] _].
      * rewrite F in Tx. discriminate.
      * rewrite Lx in L. discriminate.
    + now destruct C as (-> & -> & _).
Qed.

Lemma get_fds_param_raises_witness :
  get_fds_param always_true (Namelist (Some "OBST") multi_first_entries [])
                (Some "ID") false
  = Raised NoLabelAttribute (Namelist (Some "OBST") multi_first_entries []).
Proof.
  apply (proj2 (get_fds_param_raises always_true
                  (Namelist (Some "OBST") multi_first_entries [])
                  (Some "ID") false eq_refl)
           [PParam SURF_INERT] (PMulti two_obst) [PParam ID_A]);
    try reflexivity.
  - constructor; [|constructor]. right. split; [reflexivity|].
    exists (Some "SURF_ID"). split; [reflexivity | discriminate].
  - simpl. discriminate.
Defined.

(** X4: [get_fds_param] never touches the group label or the messages;
    it changes [fds_params] only when it returns an element and [remove]
    is set, and then exactly that one element is taken out, the others
    staying in their order. *)
Theorem get_fds_param_frame (param_true : FDSParam -> bool) (n : FDSNamelist)
        (label : option string) (remove : bool) :
  let o := get_fds_param param_true n label remove in
  fds_label (state_of o) = fds_label n /\
  msgs (state_of o) = msgs n /\
  (remove = false -> state_of o = n) /\
  (forall r n', o = Returned r n' -> r = None -> n' = n) /\
  (forall e n', o = Raised e n' -> n' = n) /\
  (forall p n',
      o = Returned (Some p) n' -> remove = true ->
      exists before after,
        fds_params n = before ++ p :: after /\
        fds_params n' = before ++ after /\
        length (fds_params n) = S (length (fds_params n'))).
Proof.
  destruct n as [l ps ms]. unfold get_fds_param.
  cbn [fds_params fds_label msgs].
  pose proof (get_in_cases param_true label remove ps) as C.
  destruct (get_in param_true label remove ps) as [[p|] ps'|e ps'];
    cbn [state_of fds_label msgs fds_params].
  - destruct C as (before & after & -> & Hb & Hp & Hl & ->).
    repeat split.
    + now intros ->.
    + intros r n' H R. injection H as <- _. discriminate.
    + intros e n' H. discriminate.
    + intros q n' H ->. injection H as <- <-. exists before, after.
      cbn [fds_params]. rewrite !length_app. simpl.
      repeat split. lia.
  - destruct C as [-> _]. repeat split.
    + intros r n' H _. now injection H as _ <-.
    + intros e n' H. discriminate.
    + intros q n' H. discriminate.
  - destruct C as (-> & _). repeat split.
    + intros r n' H. discriminate.
    + intros e' n' H. now injection H as _ <-.
    + intros q n' H. discriminate.
Qed.

Lemma get_fds_param_frame_witness :
  exists before after,
    lookup_entries = before ++ PParam ID_A :: after /\
    [PNone; PParam SURF_INERT; PParam FYI_note; PParam ID_B] = before ++ after /\
    length lookup_entries = 5.
Proof.
  destruct (get_fds_param_frame always_true
              (Namelist (Some "OBST") lookup_entries []) (Some "ID") true)
    as (_ & _ & _ & _ & _ & F).
  exact (F (PParam ID_A)
           (Namelist (Some "OBST")
                     [PNone; PParam SURF_INERT; PParam FYI_note; PParam ID_B] [])
           eq_refl eq_refl).
Defined.

(** ** Membership *)

Lemma contains_in_cases (label : option string) (ps : list entry) :
  match contains_in label ps with
  | inr true =>
      exists before p after,
        ps = before ++ p :: after /\
        Forall (other_label label) before /\ entry_label p = Some label
  | inr false => Forall (other_label label) ps
  | inl e =>
      e = NoLabelAttribute /\
      exists before x after,
        ps = before ++ x :: after /\
        Forall (other_label label) before /\ entry_label x = None
  end.
Proof.
  induction ps as [|x rest IH]; [constructor|]. cbn [contains_in].
  destruct (entry_label x) as [l|] eqn:Lx.
  - destruct (label_eqb label l) eqn:E.
    + apply label_eqb_eq in E. subst l. exists [], x, rest.
      repeat split; [constructor | exact Lx].
    + apply label_eqb_neq in E.
      assert (Ox : other_label label x)
        by (exists l; split; [exact Lx | congruence]).
      destruct (contains_in label rest) as [e|[|]].
      * destruct IH as (-> & before & y & after & -> & Hb & Hy).
        split; [reflexivity|]. exists (x :: before), y, after.
        repeat split; [now constructor | exact Hy].
      * destruct IH as (before & p & after & -> & Hb & Hp).
        exists (x :: before), p, after.
        repeat split; [now constructor | exact Hp].
      * now constructor.
  - split; [reflexivity|]. exists [], x, rest.
    repeat split; [constructor | exact Lx].
Qed.

Lemma contains_in_app (label : option string) (before rest : list entry) :
  Forall (other_label label) before ->
  contains_in label (before ++ rest) = contains_in label rest.
Proof.
  induction 1 as [|x r (l & Lx & Nx) _ IH]; [reflexivity|].
  cbn [app contains_in]. rewrite Lx.
  replace (label_eqb label l) with false; [exact IH|].
  symmetry. apply label_eqb_neq. congruence.
Qed.

Lemma label_attribute_missing (x : entry) :
  recognized x = true -> entry_label x = None ->
  x = PNone \/ (exists items ms, x = PMany items ms) \/ (exists m, x = PMulti m).
Proof.
  destruct x as [|q|m|items ms|m|r]; simpl; intros R L; try discriminate.
  - now left.
  - right. left. now exists items, ms.
  - right. right. now exists m.
Qed.

(** X5: on a namelist of elements of the module, [label in namelist] is
    true exactly when an element carries the label and only parameters
    and nested namelists with other labels come before it (the group label
    of a nested namelist counts as its label); it is false exactly when
    every element is a parameter or a nested namelist with another label;
    it raises [AttributeError] exactly when [None], an [FDSMany] or an
    [FDSMulti] comes before any element with the label. The namelist is
    never changed. *)
Theorem contains_outcomes (n : FDSNamelist) (label : option string) :
  forallb recognized (fds_params n) = true ->
  (__contains__ n label = Returned true n <->
   exists before p after,
     fds_params n = before ++ p :: after /\
     Forall (other_label label) before /\ entry_label p = Some label) /\
  (__contains__ n label = Returned false n <->
   Forall (other_label label) (fds_params n)) /\
  (__contains__ n label = Raised NoLabelAttribute n <->
   exists before x after,
     fds_params n = before ++ x :: after /\
     Forall (other_label label) before /\
     (x = PNone \/ (exists items ms, x = PMany items ms) \/
      (exists m, x = PMulti m))) /\
  state_of (__contains__ n label) = n.
Proof.
  intros Hrec. unfold __contains__.
  pose proof (contains_in_cases label (fds_params n)) as C.
  split; [|split; [|split]].
  - split.
    + intros H. destruct (contains_in label (fds_params n)) as [e|[|]];
        try discriminate. exact C.
    + intros (before & p & after & E & Hb & Hp).
      rewrite E, (contains_in_app label before _ Hb). cbn [contains_in].
      rewrite Hp.
      replace (label_eqb label label) with true; [reflexivity|].
      symmetry. now apply label_eqb_eq.
  - split.
    + intros H. destruct (contains_in label (fds_params n)) as [e|[|]];
        try discriminate. exact C.
    + intros Hall. rewrite <- (app_nil_r (fds_params n)).
      now rewrite (contains_in_app label _ [] Hall).
  - split.
    + intros H. destruct (contains_in label (fds_params n)) as [e|[|]];
        try discriminate.
      destruct C as (_ & before & x & after & E & Hb & Hx).
      exists before, x, after. repeat split; try assumption.
      apply label_attribute_missing; [|exact Hx].
      rewrite E, forallb_app in Hrec. apply andb_prop in Hrec as [_ Hrec].
      simpl in Hrec. now apply andb_prop in Hrec as [Hrec _].
    + intros (before & x & after & E & Hb & Hx).
      rewrite E, (contains_in_app label before _ Hb). cbn [contains_in].
      destruct Hx as [->|[(items & ms & ->)|(m & ->)]]; reflexivity.
  - now destruct (contains_in label (fds_params n)).
Qed.

Lemma contains_outcomes_witness :
  __contains__ (Namelist (Some "OBST") multi_first_entries []) (Some "SURF_ID")
  = Returned true (Namelist (Some "OBST") multi_first_entries []) /\
  __contains__ (Namelist (Some "OBST") multi_first_entries []) (Some "ID")
  = Raised NoLabelAttribute (Namelist (Some "OBST") multi_first_entries []).
Proof.
  destruct (contains_outcomes (Namelist (Some "OBST") multi_first_entries [])
                              (Some "SURF_ID") eq_refl) as (A & _).
  destruct (contains_outcomes (Namelist (Some "OBST") multi_first_entries [])
                              (Some "ID") eq_refl) as (_ & _ & B & _).
  split.
  - apply A. exists [], (PParam SURF_INERT), [PMulti two_obst; PParam ID_A].
    repeat split. constructor.
  - apply B. exists [PParam SURF_INERT], (PMulti two_obst), [PParam ID_A].
    repeat split.
    + constructor; [|constructor]. exists (Some "SURF_ID").
      split; [reflexivity | discriminate].
    + right. right. now exists two_obst.
Defined.

(** X6: on a namelist whose elements are true parameters and nested
    namelists, and for a non-empty label, [label in namelist] is true
    exactly when [get_fds_param] finds an element, and neither call
    raises. *)
Theorem contains_iff_found (param_true : FDSParam -> bool) (n : FDSNamelist)
        (label : option string) :
  truthy label = true ->
  Forall (fun x => entry_true param_true x = true /\ entry_label x <> None)
         (fds_params n) ->
  (__contains__ n label = Returned true n <->
   exists p, get_fds_param param_true n label false = Returned (Some p) n) /\
  (__contains__ n label = Returned false n <->
   get_fds_param param_true n label false = Returned None n) /\
  (forall e n', __contains__ n label <> Raised e n') /\
  (forall e n', get_fds_param param_true n label false <> Raised e n').
Proof.
  intros Tl Hall. destruct n as [l ps ms].
  unfold __contains__, get_fds_param. cbn [fds_params fds_label msgs] in *.
  assert (Same : forall x, In x ps ->
                           (other_label label x <-> passed param_true label x)).
  { intros x Hx. rewrite Forall_forall in Hall. destruct (Hall x Hx) as [T L].
    split.
    - intros O. right. now split.
    - intros [F|[_ O]]; [rewrite F in T; discriminate | exact O]. }
  assert (Sub : forall before p after,
             ps = before ++ p :: after ->
             (Forall (other_label label) before
              <-> Forall (passed param_true label) before)).
  { intros before p after ->. rewrite !Forall_forall.
    split; intros H x Hx; apply Same; try (apply in_or_app; now left);
      now apply H. }
  pose proof (contains_in_cases label ps) as C.
  pose proof (get_in_cases param_true label false ps) as G.
  destruct (contains_in label ps) as [e|[|]].
  - exfalso. destruct C as (_ & before & x & after & -> & _ & Lx).
    apply Forall_app in Hall as [_ Hall].
    apply Forall_cons_iff in Hall as [[_ N] _]. now apply N.
  - destruct C as (before & p & after & E & Hb & Hp).
    apply (Sub before p after E) in Hb.
    assert (Tp : entry_true param_true p = true).
    { rewrite Forall_forall in Hall. apply Hall. rewrite E.
      apply in_or_app. right. now left. }
    rewrite E.
    rewrite (get_in_found param_true label false p after before Hb Tp
               (fun _ => Hp)).
    repeat split; try discriminate; try (intros; discriminate).
    + intros _. now exists p.
  - assert (P : Forall (passed param_true label) ps).
    { rewrite Forall_forall in C |- *. intros x Hx. apply Same; auto. }
    destruct (get_in param_true label false ps) as [[p|] ps'|e ps'].
    + exfalso. destruct G as (before & after & -> & _ & Tp & Lp & _).
      apply Forall_app in P as [_ P].
      apply Forall_cons_iff in P as [[F|(_ & l' & L & N)] _].
      * rewrite F in Tp. discriminate.
      * rewrite (Lp Tl) in L. injection L as <-. now contradiction N.
    + destruct G as [-> _].
      repeat split; try discriminate; try (intros; discriminate).
      intros (p & H). discriminate.
    + exfalso. destruct G as (_ & _ & _ & before & x & after & -> & _ & _ & Lx).
      apply Forall_app in Hall as [_ Hall].
      apply Forall_cons_iff in Hall as [[_ N] _]. now apply N.
Qed.

Lemma contains_iff_found_witness :
  __contains__ (Namelist (Some "OBST") plain_entries []) (Some "ID")
  = Returned true (Namelist (Some "OBST") plain_entries []).
Proof.
  apply (proj1 (contains_iff_found always_true
                  (Namelist (Some "OBST") plain_entries []) (Some "ID")
                  eq_refl
                  ltac:(repeat constructor; discriminate))).
  now exists (PParam ID_A).
Defined.

(** X7: when every element carries a label and no label is carried
    twice, the element that [get_fds_param] takes out with [remove] is no
    longer in the namelist: [label in namelist] is false afterwards. *)
Theorem removed_not_contained (param_true : FDSParam -> bool)
        (n n' : FDSNamelist) (label : option string) (p : entry) :
  truthy label = true ->
  Forall (fun x => entry_label x <> None) (fds_params n) ->
  NoDup (map entry_label (fds_params n)) ->
  get_fds_param param_true n label true = Returned (Some p) n' ->
  __contains__ n' label = Returned false n'.
Proof.
  intros Tl Hall Hnd H.
  pose proof (get_in_cases param_true label true (fds_params n)) as G.
  unfold get_fds_param in H.
  destruct (get_in param_true label true (fds_params n)) as [[q|] ps'|e ps'];
    try discriminate.
  injection H as -> <-.
  destruct G as (before & after & E & _ & _ & Lp & E'). specialize (Lp Tl).
  cbn [fds_params].
  rewrite E in Hall, Hnd. rewrite map_app in Hnd. cbn [map] in Hnd.
  apply NoDup_remove in Hnd as [_ Hnot]. rewrite Lp in Hnot.
  assert (O : Forall (other_label label) (before ++ after)).
  { apply Forall_forall. intros x Hx.
    assert (Lx : entry_label x <> None).
    { rewrite Forall_forall in Hall. apply Hall.
      apply in_app_or in Hx as [Hx|Hx]; apply in_or_app;
        [now left | right; now right]. }
    destruct (entry_label x) as [lx|] eqn:Ex; [|contradiction].
    exists lx. split; [exact Ex|]. intros ->. apply Hnot.
    rewrite <- map_app, <- Ex. now apply in_map. }
  unfold __contains__. cbn [fds_params]. rewrite E'.
  rewrite <- (app_nil_r (before ++ after)).
  now rewrite (contains_in_app label _ [] O).
Qed.

Lemma removed_not_contained_witness :
  __contains__ (Namelist (Some "OBST") [PParam SURF_INERT; PParam FYI_note] [])
               (Some "ID")
  = Returned false (Namelist (Some "OBST") [PParam SURF_INERT; PParam FYI_note] []).
Proof.
  apply (removed_not_contained always_true
           (Namelist (Some "OBST") plain_entries [])
           (Namelist (Some "OBST") [PParam SURF_INERT; PParam FYI_note] [])
           (Some "ID") (PParam ID_A) eq_refl).
  - repeat constructor; discriminate.
  - simpl. repeat constructor; simpl; intuition discriminate.
  - reflexivity.
Defined.

(** ** Flatten-groups are transparent *)

Lemma flatten_all_flat (l : list entry) : Forall leaf l -> flatten_all l = l.
Proof.
  induction 1 as [|x r Hx _ IH]; [reflexivity|].
  unfold flatten_all in *. cbn [flat_map]. rewrite IH.
  destruct x as [|q|n|[|i items] ms|m|s]; try reflexivity. contradiction.
Qed.

Lemma additional_all_progress (ps : list entry) (acc : progress) :
  snd (additional_all ps acc)
  = snd (extend_additional (namelists_of (flatten_all ps)) acc).
Proof.
  pose proof (additional_all_agrees ps) as A. unfold agrees in A.
  rewrite A; [reflexivity|].
  apply Forall_forall. intros p _. apply additional_agrees.
Qed.

(** X8: replacing every Flatten-group, at any depth below the namelist,
    by its contents followed by an empty Flatten-group that carries its
    messages changes neither the text that [to_fds] returns, nor the
    messages it leaves on the namelist, nor the kind of the exception it
    raises: its class and, for an unrecognized element, the element that
    the message names. The message of the exception ends with the [repr]
    of the namelist, which prints [fds_params] and so is not the same for
    the two namelists; the exceptions of this file leave that tail
    out. *)
Theorem flatten_transparent (label : option string) (ps : list entry)
        (ms : list string) :
  result_of (to_fds (Namelist label (flatten_all ps) ms))
  = result_of (to_fds (Namelist label ps ms)) /\
  msgs (state_of (to_fds (Namelist label (flatten_all ps) ms)))
  = msgs (state_of (to_fds (Namelist label ps ms))).
Proof.
  rewrite !to_fds_eq, classify_flatten_all.
  destruct (classify_all (mkAttrs [] [] None ms) ps) as [[] a|e a];
    [|now split].
  pose proof (additional_all_progress (flatten_all ps) ([], None)) as E1.
  pose proof (additional_all_progress ps ([], None)) as E2.
  rewrite (flatten_all_flat _ (flatten_all_leaves ps)) in E1.
  rewrite <- E2 in E1.
  destruct (additional_all (flatten_all ps) ([], None)) as [ps1 [t1 x1]].
  destruct (additional_all ps ([], None)) as [ps2 [t2 x2]].
  simpl in E1. injection E1 as -> ->.
  destruct x2; now split.
Qed.

(** ** What [to_fds] leaves as it was *)

Lemma classify_msgs_grow (l : list entry) :
  Forall leaf l ->
  forall a, exists extra,
      self_msgs (state_of (classify_all a l)) = self_msgs a ++ extra.
Proof.
  induction 1 as [|x r Hx _ IH]; intros a.
  - exists []. simpl. now rewrite app_nil_r.
  - cbn [classify_all].
    destruct (_classify_fds_param a x) as [[] a1|e a1] eqn:E.
    + destruct (IH a1) as (extra & ->).
      assert (G : exists more, self_msgs a1 = self_msgs a ++ more).
      { destruct x as [|q|n|items ms|m|s]; simpl in E.
        - injection E as <-. exists []. now rewrite app_nil_r.
        - injection E as <-. now eexists.
        - injection E as <-. now eexists.
        - destruct items; [|contradiction]. simpl in E. injection E as <-.
          now eexists.
        - destruct (multi_truthy (_multi_ps a)); [discriminate|].
          injection E as <-. now eexists.
        - discriminate. }
      destruct G as (more & ->). exists (more ++ extra).
      now rewrite app_assoc.
    + exists []. cbn [state_of]. rewrite app_nil_r.
      destruct x as [|q|n|items ms|m|s]; simpl in E; try discriminate.
      * destruct items; [|contradiction]. discriminate.
      * destruct (multi_truthy (_multi_ps a)); [|discriminate].
        now injection E as _ <-.
      * now injection E as _ <-.
Qed.

Lemma additional_all_shape (ps : list entry) :
  Forall (fun p => forall acc,
            entry_without_msgs (fst (additional p acc)) = entry_without_msgs p)
         ps ->
  forall acc,
    map entry_without_msgs (fst (additional_all ps acc))
    = map entry_without_msgs ps.
Proof.
  induction 1 as [|x r Hx _ IH]; intros acc; [reflexivity|].
  cbn [additional_all]. specialize (Hx acc).
  destruct (additional x acc) as [x' acc1]. specialize (IH acc1).
  destruct (additional_all r acc1) as [r' acc2]. simpl in *.
  now rewrite Hx, IH.
Qed.

Lemma to_fds_shape :
  forall n, without_msgs (state_of (to_fds n)) = without_msgs n.
Proof.
  induction n using namelist_nested_ind
    with (Pe := fun p => forall acc,
                    entry_without_msgs (fst (additional p acc))
                    = entry_without_msgs p);
    try (intros; reflexivity).
  - intros acc. cbn [additional]. destruct (snd acc); [reflexivity|].
    destruct (to_fds n) as [t n'|e n']; cbn [state_of] in IHn;
      cbn [fst entry_without_msgs]; now rewrite IHn.
  - intros acc. rewrite additional_many.
    pose proof (additional_all_shape items H acc) as S.
    destruct (additional_all items acc) as [items' acc'].
    cbn [fst entry_without_msgs] in *. now rewrite S.
  - rewrite to_fds_eq.
    pose proof (additional_all_shape ps H ([], None)) as S.
    destruct (classify_all (mkAttrs [] [] None ms) ps) as [[] a|e a];
      [|reflexivity].
    destruct (additional_all ps ([], None)) as [ps' [texts [e|]]];
      cbn [fst state_of without_msgs] in *; now rewrite S.
Qed.

(** X9: of the attributes [fds_label], [fds_params] and [msgs] of the
    namelist and of the namelists nested in it, [to_fds] changes only the
    message lists, whatever it returns or raises: group labels, elements
    and their order, parameters and the messages of parameters and groups
    stay as they were; the messages of the namelist are only added to;
    and when classification raises, no nested namelist has been called:
    [fds_params] is exactly as it was. The buffers [_invariant_ps],
    [_additional_ns] and [_multi_ps], which [to_fds] overwrites at every
    call and leaves on the object, are working attributes that this
    statement does not speak about. *)
Theorem to_fds_frame (n : FDSNamelist) :
  without_msgs (state_of (to_fds n)) = without_msgs n /\
  (exists extra, msgs (state_of (to_fds n)) = msgs n ++ extra) /\
  (forall e a,
      classify_all (init_attrs (msgs n)) (fds_params n) = Raised e a ->
      to_fds n = Raised e (Namelist (fds_label n) (fds_params n) (self_msgs a))).
Proof.
  split; [apply to_fds_shape|]. destruct n as [l ps ms].
  cbn [msgs fds_params fds_label]. rewrite to_fds_eq. unfold init_attrs. split.
  - destruct (classify_msgs_grow (flatten_all ps) (flatten_all_leaves ps)
                                 (mkAttrs [] [] None ms)) as (extra & G).
    rewrite classify_flatten_all in G. cbn [self_msgs] in G.
    exists extra.
    destruct (classify_all (mkAttrs [] [] None ms) ps) as [[] a|e a];
      cbn [state_of] in G; [|exact G].
    now destruct (additional_all ps ([], None)) as [ps' [texts [e|]]].
  - intros e a E. now rewrite E.
Qed.

Lemma to_fds_frame_witness :
  to_fds (Namelist (Some "HEAD")
                   [PNamelist (Namelist (Some "TIME") [PParam T_END_setup] []);
                    POther "3"] ["case"])
  = Raised (Unrecognized "3")
      (Namelist (Some "HEAD")
                [PNamelist (Namelist (Some "TIME") [PParam T_END_setup] []);
                 POther "3"] ["case"]).
Proof.
  exact (proj2 (proj2 (to_fds_frame
           (Namelist (Some "HEAD")
              [PNamelist (Namelist (Some "TIME") [PParam T_END_setup] []);
               POther "3"] ["case"])))
           (Unrecognized "3")
           (mkAttrs [] [Namelist (Some "TIME") [PParam T_END_setup] []] None
                    ["case"])
           eq_refl).
Defined.

(** ** The text as a whole *)

Lemma extend_additional_texts (ns : list FDSNamelist) :
  forall acc ns' texts,
    extend_additional ns acc = (ns', (texts, None)) ->
    snd acc = None /\
    exists new,
      texts = fst acc ++ new /\
      Forall2 (fun m t => result_of (to_fds m) = inr t) ns new.
Proof.
  induction ns as [|m r IH]; intros [t0 x0] ns' texts H; cbn [extend_additional] in H.
  - injection H as _ <- <-. split; [reflexivity|]. exists [].
    simpl. rewrite app_nil_r. split; [reflexivity | constructor].
  - cbn [snd fst] in *. destruct x0 as [e|]; [discriminate|].
    destruct (to_fds m) as [t m'|e m'] eqn:T; [|discriminate].
    destruct (extend_additional r (t0 ++ [t], None)) as [r' acc'] eqn:R.
    injection H as _ ->. apply IH in R as (_ & new & -> & F).
    split; [reflexivity|]. exists (t :: new). cbn [fst].
    rewrite <- app_assoc. split; [reflexivity|].
    constructor; [now rewrite T | exact F].
Qed.

Lemma namelist_lines_no_label (label : option string)
      (nls : list (list FDSParam)) :
  truthy label = false -> namelist_lines label nls = [].
Proof.
  unfold namelist_lines. destruct label as [l|]; [|reflexivity].
  now intros ->.
Qed.

(** X10: the text that [to_fds] returns is made of three parts, in this
    order: a comment line ["! m"] for each non-empty message, the messages
    of the namelist first and then those of its elements in the order of
    classification; the text that [to_fds] returns for each nested
    namelist, in their order; and the lines of the records of the namelist
    itself. A namelist without group label writes no record: its
    parameters do not reach the text. *)
Theorem to_fds_text_parts (label : option string) (ps : list entry)
        (ms : list string) (text : string) (n' : FDSNamelist) :
  to_fds (Namelist label ps ms) = Returned text n' ->
  exists a texts,
    classify_all (init_attrs ms) ps = Returned tt a /\
    Forall2 (fun m t => result_of (to_fds m) = inr t)
            (namelists_of (flatten_all ps)) texts /\
    text = String.concat LF
             (message_lines (ms ++ msgs_of (flatten_all ps)) ++ texts
              ++ namelist_lines label (nls_of a)) /\
    (truthy label = false ->
     text = String.concat LF
              (message_lines (ms ++ msgs_of (flatten_all ps)) ++ texts)).
Proof.
  intros R. apply to_fds_returned in R as (a & texts & E & X & ->).
  destruct (classify_returned ps _ a E) as (_ & _ & _ & _ & M).
  cbn [init_attrs self_msgs] in M. rewrite M.
  rewrite additional_all_progress in X.
  destruct (extend_additional (namelists_of (flatten_all ps)) ([], None))
    as [ns' acc'] eqn:EA.
  cbn [snd] in X. subst acc'.
  apply extend_additional_texts in EA as (_ & new & -> & F).
  exists a, new. cbn [fst app]. repeat split; try assumption.
  intros Tl. now rewrite (namelist_lines_no_label label _ Tl), app_nil_r.
Qed.

Lemma to_fds_text_parts_witness :
  exists a texts,
    classify_all (init_attrs ["Generated"]) (fds_params head_case)
    = Returned tt a /\
    Forall2 (fun m t => result_of (to_fds m) = inr t)
            [Namelist (Some "TIME") [PParam T_END_setup] []] texts /\
    String.concat LF ["! Generated"; "! Smokeview setup only";
                      "&TIME T_END=0.0 /"]
    = String.concat LF
        (message_lines ["Generated"] ++ texts ++ namelist_lines None (nls_of a)) /\
    (truthy None = false ->
     String.concat LF ["! Generated"; "! Smokeview setup only";
                       "&TIME T_END=0.0 /"]
     = String.concat LF (message_lines ["Generated"] ++ texts)).
Proof.
  exact (to_fds_text_parts None (fds_params head_case) ["Generated"]
           (String.concat LF ["! Generated"; "! Smokeview setup only";
                              "&TIME T_END=0.0 /"])
           (Namelist None
              [PNamelist (Namelist (Some "TIME") [PParam T_END_setup]
                                   ["Smokeview setup only"]);
               PParam ID_A]
              ["Generated"])
           eq_refl).
Defined.

(** ** When [to_fds] returns *)

Lemma capture_none_iff (l : list FDSMulti) :
  forall cur,
    capture cur l = None <->
    (multi_truthy cur = true /\ l <> []) \/
    (exists pre m post, l = pre ++ m :: post /\ multi_ps m <> [] /\ post <> []).
Proof.
  induction l as [|x r IH]; intros cur; cbn [capture].
  - split; [discriminate|].
    intros [[_ H]|(pre & m & post & H & _)]; [now contradiction H|].
    destruct pre; discriminate.
  - destruct (multi_truthy cur) eqn:T.
    + split; [|reflexivity]. intros _. left. split; [reflexivity | discriminate].
    + rewrite IH. split.
      * intros [[Tx Hr]|(pre & m & post & -> & Hm & Hp)].
        -- right. exists [], x, r. repeat split; try assumption.
           destruct x as [[|g gs] mm]; simpl in *; [discriminate|discriminate].
        -- right. now exists (x :: pre), m, post.
      * intros [[F _]|(pre & m & post & E & Hm & Hp)]; [discriminate|].
        destruct pre as [|y pre]; simpl in E; injection E as -> ->.
        -- left. split; [|exact Hp].
           destruct m as [[|g gs] mm]; simpl in *; [contradiction|reflexivity].
        -- right. now exists pre, m, post.
Qed.

Lemma classify_returns_iff (ps : list entry) (ms : list string) :
  (exists a, classify_all (init_attrs ms) ps = Returned tt a) <->
  classifiable ps.
Proof.
  unfold classifiable. split.
  - intros (a & E).
    destruct (classify_returned ps _ a E) as (Hrec & Hcap & _).
    split; [exact Hrec|]. intros pre m post Hm Hne.
    destruct post as [|p post]; [reflexivity|]. exfalso.
    assert (N : capture (_multi_ps (init_attrs ms)) (multis_of (flatten_all ps))
                = None).
    { apply capture_none_iff. right. exists pre, m, (p :: post).
      repeat split; try assumption. discriminate. }
    rewrite N in Hcap. discriminate.
  - intros [Hrec Hm].
    destruct (capture (_multi_ps (init_attrs ms)) (multis_of (flatten_all ps)))
      as [fin|] eqn:C.
    + eexists. exact (classify_ok ps (init_attrs ms) fin Hrec C).
    + exfalso. apply capture_none_iff in C
        as [[F _]|(pre & m & post & E & Hne & Hp)]; [discriminate|].
      apply Hp. exact (Hm pre m post E Hne).
Qed.

Lemma extend_additional_all_return (ns : list FDSNamelist) :
  forall acc,
    snd acc = None ->
    (snd (snd (extend_additional ns acc)) = None <-> Forall returns ns).
Proof.
  induction ns as [|m r IH]; intros [t0 x0] Hacc; cbn [snd] in Hacc; subst x0.
  - simpl. split; [constructor | reflexivity].
  - cbn [extend_additional snd fst].
    destruct (to_fds m) as [t m'|e m'] eqn:T.
    + specialize (IH (t0 ++ [t], None) eq_refl).
      destruct (extend_additional r (t0 ++ [t], None)) as [r' acc'].
      cbn [snd] in *. rewrite IH. split.
      * intros H. constructor; [now exists t, m' | exact H].
      * intros H. now apply Forall_cons_iff in H as [_ H].
    + cbn [snd]. split; [discriminate|].
      intros H. apply Forall_cons_iff in H as [(t & m2 & H) _].
      rewrite T in H. discriminate.
Qed.

Lemma returns_iff_parts (label : option string) (ps : list entry)
      (ms : list string) :
  returns (Namelist label ps ms) <->
  classifiable ps /\ Forall returns (namelists_of (flatten_all ps)).
Proof.
  unfold returns at 1. rewrite to_fds_eq.
  rewrite <- (classify_returns_iff ps ms).
  rewrite <- (extend_additional_all_return _ ([], None) eq_refl).
  rewrite <- additional_all_progress. unfold init_attrs.
  destruct (classify_all (mkAttrs [] [] None ms) ps) as [[] a|e a].
  - destruct (additional_all ps ([], None)) as [ps' [texts [e|]]]; cbn [snd].
    + split; [intros (t & n' & H); discriminate|]. intros [_ H]. discriminate.
    + split; [|now eexists _, _]. intros _. split; [now exists a | reflexivity].
  - split; [intros (t & n' & H); discriminate|].
    intros [(a' & H) _]. discriminate.
Qed.

Lemma nested_serializable (items : list entry) :
  Forall (fun p =>
            entry_serializable p <->
            Forall serializable (namelists_of (flatten p))) items ->
  ((fix all (l : list entry) : Prop :=
      match l with
      | [] => True
      | p :: rest => entry_serializable p /\ all rest
      end) items
   <-> Forall serializable (namelists_of (flatten_all items))).
Proof.
  induction 1 as [|x r Hx _ IH].
  - simpl. split; [constructor | exact (fun _ => I)].
  - unfold flatten_all in *. cbn [flat_map]. rewrite namelists_of_app.
    rewrite Forall_app, Hx, IH. reflexivity.
Qed.

Lemma entry_serializable_flat (p : entry) :
  entry_serializable p <-> Forall serializable (namelists_of (flatten p)).
Proof.
  induction p using entry_nested_ind with (Pn := fun _ => True);
    try exact I; cbn [entry_serializable flatten];
    try (split; [constructor | exact (fun _ => I)]).
  - unfold namelists_of. simpl. split.
    + intros H. now repeat constructor.
    + intros H. now apply Forall_cons_iff in H as [H _].
  - rewrite namelists_of_app, Forall_app.
    rewrite (nested_serializable items H). unfold flatten_all. split.
    + intros A. split; [exact A | constructor].
    + now intros [A _].
Qed.

Lemma serializable_parts (label : option string) (ps : list entry)
      (ms : list string) :
  serializable (Namelist label ps ms) <->
  classifiable ps /\ Forall serializable (namelists_of (flatten_all ps)).
Proof.
  cbn [serializable]. rewrite nested_serializable; [reflexivity|].
  apply Forall_forall. intros p _. apply entry_serializable_flat.
Qed.

(** X11: [to_fds] returns a text exactly when the namelist and every
    namelist nested in it, at any depth, can be classified: none of them
    holds an unrecognized element, and in none of them a Multi-group comes
    after a Multi-group that has sub-groups, Flatten-groups being read as
    their contents. In every other case [to_fds] raises. *)
Theorem to_fds_returns_iff :
  forall n, returns n <-> serializable n.
Proof.
  induction n using namelist_nested_ind
    with (Pe := fun p =>
                  Forall (fun m => returns m <-> serializable m)
                         (namelists_of (flatten p)));
    try (now constructor).
  - cbn [flatten]. rewrite namelists_of_app. apply Forall_app. split.
    + induction H as [|x r Hx _ IH]; [constructor|].
      cbn [flat_map]. rewrite namelists_of_app. apply Forall_app. now split.
    + constructor.
  - rewrite returns_iff_parts, serializable_parts.
    assert (A : Forall (fun m => returns m <-> serializable m)
                       (namelists_of (flatten_all ps))).
    { unfold flatten_all. induction H as [|x r Hx _ IH]; [constructor|].
      cbn [flat_map]. rewrite namelists_of_app. apply Forall_app. now split. }
    rewrite !Forall_forall in *. split; intros [C F]; (split; [exact C|]);
      intros m Hm; apply (A m Hm); now apply F.
Qed.

(** ** What a record says *)

Lemma squeeze_app (s t : string) :
  squeeze (s ++ t) = (squeeze s ++ squeeze t)%string.
Proof.
  induction s as [|a s IH]; simpl; [reflexivity|].
  destruct (Ascii.eqb a " "); simpl; now rewrite IH.
Qed.

Lemma glue_app (l1 l2 : list string) :
  glue (l1 ++ l2) = (glue l1 ++ glue l2)%string.
Proof.
  induction l1 as [|x l1 IH]; simpl; [reflexivity|].
  now rewrite IH, append_assoc.
Qed.

Lemma append_inj_tail (s t : string) (a : ascii) :
  (s ++ String a EmptyString)%string = (t ++ String a EmptyString)%string ->
  s = t.
Proof.
  revert t. induction s as [|x s IH]; intros [|y t] H; simpl in H.
  - reflexivity.
  - injection H as _ H. destruct t; discriminate.
  - injection H as _ H. destruct s; discriminate.
  - injection H as -> H. f_equal. now apply IH.
Qed.

Lemma commas_concat (vs : list string) :
  vs <> [] -> commas vs = (String.concat "," vs ++ ",")%string.
Proof.
  induction vs as [|v [|v' r] IH]; intros Hne; [contradiction| |].
  - reflexivity.
  - cbn [commas String.concat] in IH |- *. rewrite IH by discriminate.
    now rewrite !append_assoc.
Qed.

Lemma split_values_squeeze (vs : list string) :
  forall ls l,
    squeeze (glue (fst (split_values vs (ls, l))
                   ++ [snd (split_values vs (ls, l))]))
    = (squeeze (glue (ls ++ [l])) ++ squeeze (commas vs))%string.
Proof.
  unfold split_values.
  induction vs as [|v vs IH]; intros ls l; cbn [fold_left commas].
  - simpl. now rewrite append_empty_r.
  - destruct (split_step (ls, l) v) as [ls1 l1] eqn:E. rewrite IH.
    unfold split_step in E.
    destruct (String.length l + String.length v + 1 <=? MAXLEN);
      injection E as <- <-;
      rewrite ?glue_app, ?squeeze_app; simpl glue;
      rewrite ?append_empty_r, ?squeeze_app, ?append_assoc; simpl;
      rewrite ?squeeze_app, ?append_assoc; reflexivity.
Qed.

Lemma split_values_comma (vs : list string) :
  forall ls l,
    vs <> [] \/ (exists t, l = (t ++ ",")%string) ->
    exists t, snd (split_values vs (ls, l)) = (t ++ ",")%string.
Proof.
  unfold split_values.
  induction vs as [|v vs IH]; intros ls l H; cbn [fold_left].
  - destruct H as [H|H]; [contradiction | exact H].
  - unfold split_step at 2.
    destruct (String.length l + String.length v + 1 <=? MAXLEN); apply IH; right.
    + exists (l ++ v)%string. now rewrite append_assoc.
    + exists ("        " ++ v)%string. now rewrite append_assoc.
Qed.

Lemma squeeze_last_line (ls : list string) (l t : string) :
  squeeze (glue (ls ++ [(l ++ t)%string]))
  = (squeeze (glue (ls ++ [l])) ++ squeeze t)%string.
Proof.
  rewrite !glue_app, !squeeze_app. cbn [glue fold_right].
  rewrite !append_empty_r, squeeze_app. now rewrite append_assoc.
Qed.

Lemma squeeze_new_line (ls : list string) (l t : string) :
  squeeze (glue ((ls ++ [l]) ++ [("      " ++ t)%string]))
  = (squeeze (glue (ls ++ [l])) ++ squeeze t)%string.
Proof.
  rewrite (glue_app (ls ++ [l])), squeeze_app. cbn [glue fold_right].
  now rewrite append_empty_r, squeeze_app.
Qed.

(** A labelled parameter adds its token to what the lines say. *)
Lemma write_param_squeeze (w : writer) (p : FDSParam) :
  labelled p = true ->
  squeeze (glue (lines (write_param w p) ++ [line (write_param w p)]))
  = (squeeze (glue (lines w ++ [line w])) ++ squeeze (token p))%string.
Proof.
  intros Hl. rewrite (write_param_eq w p Hl).
  destruct (negb (newline w) && _); cbn [lines line].
  - rewrite squeeze_last_line. now rewrite squeeze_app.
  - destruct (FDSParam.formatted_values p) as [|v r] eqn:Hv.
    + cbn [lines line]. rewrite squeeze_new_line.
      unfold token. now rewrite Hv.
    + destruct (6 + String.length (token p) <=? MAXLEN); cbn [lines line].
      * now rewrite squeeze_new_line.
      * unfold split_writer.
        pose proof (split_values_squeeze (v :: r) (lines w ++ [line w])
                      ("      " ++ label_of p ++ "=")%string) as S.
        destruct (split_values_comma (v :: r) (lines w ++ [line w])
                    ("      " ++ label_of p ++ "=")%string) as (t & Ht);
          [left; discriminate|].
        destruct (split_values (v :: r) _) as [ls l]. cbn [fst snd] in S, Ht.
        cbn [lines line]. subst l. rewrite remove_last_comma.
        rewrite squeeze_last_line, squeeze_new_line in S.
        rewrite commas_concat in S by discriminate.
        rewrite !squeeze_app in S.
        change (squeeze ",") with ","%string in S.
        rewrite <- !append_assoc in S. apply append_inj_tail in S.
        rewrite S. unfold token. rewrite Hv.
        now rewrite !squeeze_app, !append_assoc.
Qed.

Lemma write_param_unlabelled (w : writer) (p : FDSParam) :
  labelled p = false -> write_param w p = w.
Proof. unfold labelled, write_param. now intros ->. Qed.

Lemma write_params_squeeze (nl : list FDSParam) :
  forall w,
    squeeze (glue (lines (fold_left write_param nl w)
                   ++ [line (fold_left write_param nl w)]))
    = (squeeze (glue (lines w ++ [line w]))
       ++ squeeze (glue (map token (filter labelled nl))))%string.
Proof.
  induction nl as [|p r IH]; intros w; cbn [fold_left filter].
  - simpl. now rewrite append_empty_r.
  - rewrite IH. destruct (labelled p) eqn:Hl.
    + rewrite write_param_squeeze by exact Hl. cbn [map glue fold_right].
      now rewrite squeeze_app, append_assoc.
    + now rewrite write_param_unlabelled.
Qed.

(** X12: the lines of a record, put end to end and with the spaces taken
    out, spell the group label after [&], then the tokens [LABEL] or
    [LABEL=v1,v2,...] of the parameters that have a label, in their
    order, then [/]: the writer moves tokens and values to new lines, but
    it neither drops, nor adds, nor reorders anything else, and a
    parameter whose label is [None] or empty leaves no trace. *)
Theorem record_content (label : string) (nl : list FDSParam) :
  squeeze (glue (write_record label nl))
  = squeeze (String "&" label
             ++ glue (map token (filter labelled nl)) ++ "/").
Proof.
  unfold write_record.
  rewrite squeeze_last_line, write_params_squeeze. cbn [open_record lines line].
  cbn [app glue fold_right]. rewrite append_empty_r.
  change (String "&" label ++ glue (map token (filter labelled nl)) ++ "/")%string
    with (String "&" label ++ (glue (map token (filter labelled nl)) ++ "/"))%string.
  now rewrite !squeeze_app, append_assoc.
Qed.

(** ** A record on one line *)

Lemma write_params_lines_kept (nl : list FDSParam) :
  forall w, lines w <> [] -> lines (fold_left write_param nl w) <> [].
Proof.
  induction nl as [|p r IH]; intros w H; cbn [fold_left]; [exact H|].
  apply IH. destruct (labelled p) eqn:Hl.
  2:{ now rewrite write_param_unlabelled. }
  rewrite (write_param_eq w p Hl).
  destruct (negb (newline w) && _); [exact H|].
  destruct (FDSParam.formatted_values p) as [|v vs] eqn:Hv; cbn [lines].
  - now destruct (lines w).
  - destruct (6 + String.length (token p) <=? MAXLEN); cbn [lines].
    + now destruct (lines w).
    + destruct (split_writer_layout w (label_of p) (v :: vs))
        as (c0 & conts & front & last & _ & _ & _ & _ & ->); [discriminate|].
      cbn [lines]. now destruct (lines w).
Qed.

Lemma write_param_flush_lines (w : writer) (p : FDSParam) :
  labelled p = true ->
  negb (newline w)
  && (String.length (line w) + 1 + String.length (token p) <=? MAXLEN) = false ->
  lines (write_param w p) <> [].
Proof.
  intros Hl Hc. rewrite (write_param_eq w p Hl), Hc.
  destruct (FDSParam.formatted_values p) as [|v vs] eqn:Hv; cbn [lines].
  - now destruct (lines w).
  - destruct (6 + String.length (token p) <=? MAXLEN); cbn [lines].
    + now destruct (lines w).
    + destruct (split_writer_layout w (label_of p) (v :: vs))
        as (c0 & conts & front & last & _ & _ & _ & _ & ->); [discriminate|].
      cbn [lines]. now destruct (lines w).
Qed.

Lemma write_params_one_line (nl : list FDSParam) :
  forall l,
    let whole :=
      (l ++ glue (map (fun p => " " ++ token p) (filter labelled nl)))%string in
    (String.length whole <= MAXLEN ->
     fold_left write_param nl (mkWriter [] l false) = mkWriter [] whole false) /\
    (MAXLEN < String.length whole -> String.length l <= MAXLEN ->
     lines (fold_left write_param nl (mkWriter [] l false)) <> []).
Proof.
  induction nl as [|p r IH]; intros l; cbn [fold_left filter].
  - cbn [map glue fold_right]. rewrite append_empty_r. split.
    + reflexivity.
    + intros; lia.
  - destruct (labelled p) eqn:Hl.
    2:{ rewrite write_param_unlabelled by exact Hl. apply IH. }
    cbn [map glue fold_right]. cbv zeta.
    rewrite <- (append_assoc l (" " ++ token p)).
    assert (Len : String.length (l ++ " " ++ token p)
                  = String.length l + 1 + String.length (token p)).
    { rewrite !length_append. simpl. lia. }
    destruct (IH (l ++ " " ++ token p)%string) as [Fit Over].
    cbv zeta in Fit, Over.
    rewrite (write_param_eq _ p Hl). cbn [newline line lines negb andb].
    destruct (String.length l + 1 + String.length (token p) <=? MAXLEN) eqn:C.
    + apply Nat.leb_le in C. split; [exact Fit|].
      intros H _. apply Over; [exact H | lia].
    + apply Nat.leb_gt in C. split.
      * intros H. rewrite length_append in H. lia.
      * intros _ _.
        assert (N : lines (write_param (mkWriter [] l false) p) <> []).
        { apply write_param_flush_lines; [exact Hl|].
          cbn [newline line negb andb]. now apply Nat.leb_gt. }
        rewrite (write_param_eq _ p Hl) in N.
        cbn [newline line lines negb andb] in N.
        apply Nat.leb_gt in C. rewrite C in N.
        now apply write_params_lines_kept.
Qed.

(** X13: when the group label after [&] is within 80 columns, a record
    is written on a single line exactly when that line, made of [&LABEL]
    and the tokens of the labelled parameters with one space before each,
    is at most 80 characters long before its closing [" /"]; the single
    line is then that text followed by [" /"]. *)
Theorem single_line_record (label : string) (nl : list FDSParam) :
  String.length (String "&" label) <= MAXLEN ->
  (String.length (one_line label nl) <= MAXLEN <->
   write_record label nl = [(one_line label nl ++ " /")%string]).
Proof.
  intros Hlabel. unfold write_record, one_line, open_record.
  destruct (write_params_one_line nl (String "&" label)) as [Fit Over].
  cbv zeta in Fit, Over. split.
  - intros H. now rewrite (Fit H).
  - intros E.
    destruct (Nat.le_gt_cases
                (String.length
                   (String "&" label
                    ++ glue (map (fun p => (" " ++ token p)%string)
                                 (filter labelled nl))))
                MAXLEN) as [H|H]; [exact H|].
    exfalso. apply (Over H Hlabel).
    destruct (lines _) as [|x more]; [reflexivity|].
    destruct more; discriminate.
Qed.

Lemma single_line_record_witness :
  write_record "OBST" [ID_A; unlabelled_note; XB_unit]
  = ["&OBST ID='A' XB=0.000,1.000,0.000,1.000,0.000,1.000 /"] /\
  MAXLEN < String.length (one_line "OBST" [ID_A; X_long]).
Proof.
  split.
  - apply (proj1 (single_line_record "OBST" [ID_A; unlabelled_note; XB_unit]
                                     ltac:(vm_compute; lia))).
    vm_compute. lia.
  - destruct (Nat.le_gt_cases (String.length (one_line "OBST" [ID_A; X_long]))
                              MAXLEN) as [H|H]; [|exact H].
    apply (proj1 (single_line_record "OBST" [ID_A; X_long]
                                     ltac:(vm_compute; lia))) in H.
    vm_compute in H. discriminate H.
Defined.

(** ** Reading stops at the first exception *)

Lemma append_params_partial
      (pf : string -> string -> (string * string) + FDSParam)
      (matches : list (string * string)) :
  forall n,
    append_params pf n matches
    = let n' := Namelist (fds_label n)
                         (fds_params n ++ map PParam (read_before pf matches))
                         (msgs n) in
      match first_failure pf matches with
      | Some e => Raised e n'
      | None => Returned tt n'
      end.
Proof.
  induction matches as [|[label raw] rest IH]; intros n;
    cbn [append_params read_before first_failure].
  - cbn [map]. rewrite app_nil_r. now destruct n.
  - destruct (pf label raw) as [e|p].
    + cbn [map]. rewrite app_nil_r. now destruct n.
    + rewrite IH. cbn [fds_label fds_params msgs map].
      now rewrite <- app_assoc.
Qed.

Lemma read_before_prefix
      (pf : string -> string -> (string * string) + FDSParam)
      (matches : list (string * string)) :
  exists done rest,
    matches = done ++ rest /\
    Forall2 (fun m p => pf (fst m) (snd m) = inr p) done (read_before pf matches) /\
    match first_failure pf matches with
    | Some e => exists m rest', rest = m :: rest' /\ pf (fst m) (snd m) = inl e
    | None => rest = []
    end.
Proof.
  induction matches as [|[label raw] rest IH]; cbn [read_before first_failure].
  - exists [], []. repeat split. constructor.
  - destruct (pf label raw) as [e|p] eqn:E.
    + exists [], ((label, raw) :: rest). repeat split; [constructor|].
      now exists (label, raw), rest.
    + destruct IH as (done & rest' & -> & F & H).
      exists ((label, raw) :: done), rest'. repeat split.
      * now constructor.
      * exact H.
Qed.

(** X14: [from_fds] is not all or nothing. Whatever the text, the call
    leaves the group label and the messages as they were and only appends
    to the parameters: the ones read, in order, from the matches that
    come before the first match that [FDSParam] refuses. When there is
    such a match the call raises its exception, with the parameters read
    before it already appended and nothing appended for the matches after
    it; otherwise it returns with one parameter per match. *)
Theorem from_fds_partial
        (param_from_fds : string -> string -> (string * string) + FDSParam)
        (n : FDSNamelist) (f90 : string) :
  exists done rest read,
    scan_params (join_lines f90) = done ++ rest /\
    Forall2 (fun m p => param_from_fds (fst m) (snd m) = inr p) done read /\
    state_of (from_fds param_from_fds n f90)
    = Namelist (fds_label n) (fds_params n ++ map PParam read) (msgs n) /\
    ((rest = [] /\
      from_fds param_from_fds n f90 = Returned tt (state_of (from_fds param_from_fds n f90)))
     \/
     (exists m rest' e,
         rest = m :: rest' /\ param_from_fds (fst m) (snd m) = inl e /\
         from_fds param_from_fds n f90
         = Raised e (state_of (from_fds param_from_fds n f90)))).
Proof.
  unfold from_fds. rewrite append_params_partial. cbv zeta.
  destruct (read_before_prefix param_from_fds (scan_params (join_lines f90)))
    as (done & rest & E & F & H).
  exists done, rest, (read_before param_from_fds (scan_params (join_lines f90))).
  split; [exact E|]. split; [exact F|].
  destruct (first_failure param_from_fds (scan_params (join_lines f90))) as [e|].
  - split; [reflexivity|]. right.
    destruct H as (m & rest' & -> & Hm). now exists m, rest', e.
  - split; [reflexivity|]. left. now split.
Qed.

(** With a reader that refuses [XB], the parameter [ID] that comes before
    it stays in the namelist and [SURF_ID], which comes after it, is not
    read. *)
Example from_fds_partial_example :
  from_fds picky_param (Namelist (Some "OBST") [PParam COLOR_RED] ["kept"])
           "ID='Wall' XB=0,1,0,1,0,1 SURF_ID='INERT'"
  = Raised ("BFException", "Parsing error")
           (Namelist (Some "OBST") [PParam COLOR_RED; PParam ID_Wall] ["kept"]).
Proof. vm_compute. reflexivity. Qed.

(** ** The scan reads the tokens back *)

(** *** Characters *)

Ltac each_char a :=
  destruct a as [[] [] [] [] [] [] [] []]; vm_compute; intros; congruence.

Lemma separator_not_letter (a : ascii) :
  is_separator a = true -> is_letter a = false.
Proof. each_char a. Qed.

Lemma separator_not_equals (a : ascii) :
  is_separator a = true -> Ascii.eqb a "=" = false.
Proof. each_char a. Qed.

Lemma label_char_not_equals (a : ascii) :
  is_label_char a = true -> Ascii.eqb a "=" = false.
Proof. each_char a. Qed.

Lemma space_not_label_char (a : ascii) :
  is_space a = true -> is_label_char a = false.
Proof. each_char a. Qed.

Lemma space_separator (a : ascii) :
  is_space a = true -> is_separator a = true.
Proof. unfold is_separator. intros ->. apply orb_true_r. Qed.

Lemma letter_label_char (a : ascii) :
  is_letter a = true -> is_label_char a = true.
Proof. unfold is_label_char. now intros ->. Qed.

Lemma equals_sign (a : ascii) : Ascii.eqb a "=" = true -> a = "="%char.
Proof. apply Ascii.eqb_eq. Qed.

(** *** Repetitions *)

Lemma rmatch_char (f : ascii -> bool) (a : ascii) (s : string) (c : captures)
      (k : string -> captures -> option found) :
  rmatch (Chars f) (String a s) c k = if f a then k s c else None.
Proof. reflexivity. Qed.

Lemma rmatch_no_char (f : ascii -> bool) (c : captures)
      (k : string -> captures -> option found) :
  rmatch (Chars f) EmptyString c k = None.
Proof. reflexivity. Qed.

Lemma shorter (a : ascii) (s : string) :
  (String.length s <? String.length (String a s)) = true.
Proof. apply Nat.ltb_lt. simpl. lia. Qed.

(** A lazy repetition stops as soon as what follows succeeds. *)
Lemma lazy_now m (k : string -> captures -> option found)
      (n : nat) (s : string) (c : captures) (y : found) :
  k s c = Some y -> turns m false k n s c = Some y.
Proof. intros H. destruct n; cbn [turns]; now rewrite H. Qed.

(** A greedy repetition of a character set runs through the characters
    of the set and goes on from the first character out of it. *)
Lemma greedy_run (f : ascii -> bool) (k : string -> captures -> option found)
      (run : string) :
  all_chars f run = true ->
  forall t n c y,
    String.length (run ++ t) <= n ->
    match t with
    | EmptyString => True
    | String a _ => f a = false
    end ->
    k t c = Some y ->
    turns (rmatch (Chars f)) true k n (run ++ t) c = Some y.
Proof.
  induction run as [|a run IH]; intros Hrun t n c y Hn Ht Hk.
  - cbn [append]. destruct n; cbn [turns]; [exact Hk|].
    destruct t as [|b t].
    + now rewrite rmatch_no_char.
    + now rewrite rmatch_char, Ht.
  - cbn [all_chars] in Hrun. apply andb_prop in Hrun as [Ha Hrun].
    cbn [append] in Hn |- *. cbn [String.length] in Hn.
    destruct n as [|n]; [lia|]. cbn [turns].
    rewrite rmatch_char, Ha, shorter.
    rewrite (IH Hrun t n c y); [reflexivity | lia | exact Ht | exact Hk].
Qed.

(** A lazy repetition of a character set goes as far as the first place
    where what follows succeeds. *)
Lemma lazy_run (f : ascii -> bool) (k : string -> captures -> option found)
      (x : string) :
  all_chars f x = true ->
  forall t n c y,
    String.length (x ++ t) <= n ->
    (forall x1 a x2, x = (x1 ++ String a x2)%string ->
                     k (String a x2 ++ t)%string c = None) ->
    k t c = Some y ->
    turns (rmatch (Chars f)) false k n (x ++ t) c = Some y.
Proof.
  induction x as [|a x IH]; intros Hx t n c y Hn Hno Hk.
  - cbn [append]. now apply lazy_now.
  - cbn [all_chars] in Hx. apply andb_prop in Hx as [Ha Hx].
    cbn [append] in Hn |- *. cbn [String.length] in Hn.
    destruct n as [|n]; [lia|]. cbn [turns].
    rewrite (Hno EmptyString a x eq_refl : k (String a (x ++ t)) c = None).
    rewrite rmatch_char, Ha, shorter.
    apply IH; [exact Hx | lia | | exact Hk].
    intros x1 b x2 E. apply (Hno (String a x1) b x2). now rewrite E.
Qed.

Lemma all_chars_any (x : string) : all_chars (fun _ => true) x = true.
Proof. induction x; simpl; auto. Qed.

Lemma mentions_app (q : ascii) (x y : string) :
  mentions q (x ++ y) = mentions q x || mentions q y.
Proof.
  induction x as [|a x IH]; simpl; [reflexivity|].
  now rewrite IH, orb_assoc.
Qed.

(** [.*?] followed by the closing quote stops at the first one. *)
Lemma lazy_until (q : ascii) (k : string -> captures -> option found)
      (x : string) :
  mentions q x = false ->
  forall t n c y,
    String.length (x ++ String q t) <= n ->
    k t c = Some y ->
    turns (rmatch any_char) false (fun s1 c1 => rmatch (lit q) s1 c1 k) n
          (x ++ String q t) c = Some y.
Proof.
  intros Hq t n c y Hn Hk. unfold any_char.
  apply lazy_run; [apply all_chars_any | exact Hn | |].
  - intros x1 a x2 E. cbn [append]. unfold lit. rewrite rmatch_char.
    rewrite E, mentions_app in Hq. apply orb_false_elim in Hq as [_ Hq].
    cbn [mentions] in Hq. apply orb_false_elim in Hq as [Hq _]. now rewrite Hq.
  - unfold lit. now rewrite rmatch_char, Ascii.eqb_refl.
Qed.

(** The separators and the [=] sign do not match a text that [in_seps2]
    refuses. *)
Lemma separators_equals_fail (k : string -> captures -> option found) (n : nat) :
  forall s c,
    in_seps2 s = false ->
    turns (rmatch (Chars is_separator)) true
          (fun s1 c1 => rmatch (lit "=") s1 c1 k) n s c = None.
Proof.
  unfold lit.
  induction n as [|n IH]; intros s c H; cbn [turns].
  - destruct s as [|a s]; [reflexivity|]. cbn [in_seps2] in H.
    rewrite rmatch_char, Ascii.eqb_sym. now destruct (Ascii.eqb a "=").
  - destruct s as [|a s]; [reflexivity|]. cbn [in_seps2] in H.
    rewrite !rmatch_char, shorter, (Ascii.eqb_sym "="%char a).
    destruct (Ascii.eqb a "="); [discriminate|].
    destruct (is_separator a); [|reflexivity]. cbn [andb] in H.
    now rewrite IH.
Qed.

(** *** The equations of the matcher *)

Lemma rmatch_cat (r1 r2 : regex) (s : string) (c : captures)
      (k : string -> captures -> option found) :
  rmatch (Cat r1 r2) s c k = rmatch r1 s c (fun s1 c1 => rmatch r2 s1 c1 k).
Proof. reflexivity. Qed.

Lemma rmatch_alt (r1 r2 : regex) (s : string) (c : captures)
      (k : string -> captures -> option found) :
  rmatch (Alt r1 r2) s c k
  = match rmatch r1 s c k with
    | Some x => Some x
    | None => rmatch r2 s c k
    end.
Proof. reflexivity. Qed.

Lemma rmatch_star (g : bool) (r : regex) (s : string) (c : captures)
      (k : string -> captures -> option found) :
  rmatch (Star g r) s c k = turns (rmatch r) g k (String.length s) s c.
Proof. reflexivity. Qed.

Lemma rmatch_group (i : nat) (r : regex) (s : string) (c : captures)
      (k : string -> captures -> option found) :
  rmatch (Group i r) s c k
  = rmatch r s c
      (fun s' c' =>
         k s' ((i, substring 0 (String.length s - String.length s') s) :: c')).
Proof. reflexivity. Qed.

Lemma rmatch_ahead (r : regex) (s : string) (c : captures)
      (k : string -> captures -> option found) :
  rmatch (Ahead r) s c k
  = match rmatch r s c (fun s' c' => Some (c', s')) with
    | Some (c', _) => k s c'
    | None => None
    end.
Proof. reflexivity. Qed.

(** *** The lookahead that ends a value *)

Lemma in_seps2_sound (x t : string) :
  all_chars is_separator x = true -> in_seps2 (x ++ "=" ++ t) = true.
Proof.
  induction x as [|a x IH]; intros H; [reflexivity|].
  cbn [all_chars] in H. apply andb_prop in H as [Ha H].
  cbn [append in_seps2]. rewrite (separator_not_equals a Ha), Ha. now apply IH.
Qed.

Lemma in_label_seps (x t : string) :
  all_chars is_separator x = true -> in_label (x ++ "=" ++ t) = true.
Proof.
  induction x as [|a x IH]; intros H; [reflexivity|].
  cbn [all_chars] in H. apply andb_prop in H as [Ha H].
  cbn [append in_label]. rewrite (separator_not_equals a Ha), Ha.
  destruct (is_label_char a); [now apply IH | now apply in_seps2_sound].
Qed.

Lemma in_label_sound (lab x t : string) :
  all_chars is_label_char lab = true -> all_chars is_separator x = true ->
  in_label (lab ++ x ++ "=" ++ t) = true.
Proof.
  induction lab as [|a lab IH]; intros H Hx; [now apply in_label_seps|].
  cbn [all_chars] in H. apply andb_prop in H as [Ha H].
  cbn [append in_label]. rewrite (label_char_not_equals a Ha), Ha. now apply IH.
Qed.

Lemma in_seps1_sound (x lab y t : string) :
  all_chars is_separator x = true -> is_label lab = true ->
  all_chars is_separator y = true ->
  in_seps1 (x ++ lab ++ y ++ "=" ++ t) = true.
Proof.
  intros Hx Hl Hy. induction x as [|a x IH].
  - destruct lab as [|b lab]; [discriminate|]. cbn [is_label] in Hl.
    apply andb_prop in Hl as [Hb Hl]. cbn [append in_seps1].
    destruct (is_separator b) eqn:Sb.
    + apply separator_not_letter in Sb. congruence.
    + rewrite Hb. now apply in_label_sound.
  - cbn [all_chars] in Hx. apply andb_prop in Hx as [Ha Hx].
    cbn [append in_seps1]. rewrite Ha. now apply IH.
Qed.

(** When the lookahead succeeds, the text is at its end, or it starts
    with separators, a label, separators and an [=] sign. *)
Lemma ahead_sound (s : string) (c : captures)
      (k : string -> captures -> option found) (y : found) :
  rmatch re_value_end s c k = Some y ->
  s = EmptyString \/ s = String newline_char EmptyString \/ ahead_ok s = true.
Proof.
  unfold re_value_end. rewrite rmatch_ahead, rmatch_alt.
  destruct (rmatch (Cat (plus true (Chars is_separator))
                        (Cat re_label (Cat re_separators (lit "="))))
                   s c (fun s' c' => Some (c', s'))) as [x|] eqn:E.
  - intros _. right. right.
    apply (rmatch_consumes
             (Cat (plus true (Chars is_separator))
                  (Cat re_label (Cat re_separators (lit "="))))
             eq_refl) in E as (pre & s' & -> & C & _).
    inversion C as [|r1 r2 p1 p234 C1 C234| | | | | |]; subst.
    inversion C234 as [|r1 r2 p2 p34 C2 C34| | | | | |]; subst.
    inversion C34 as [|r1 r2 p3 p4 C3 C4| | | | | |]; subst.
    inversion C1 as [|r1 r2 p p1' Ca C1'| | | | | |]; subst.
    inversion Ca as [accept a Ha| | | | | | |]; subst.
    inversion C4 as [accept b Hb| | | | | | |]; subst.
    apply Ascii.eqb_eq in Hb. subst b.
    apply consumes_star_chars in C1'. apply consumes_label in C2.
    apply consumes_star_chars in C3.
    rewrite !append_assoc. cbn [append ahead_ok]. rewrite Ha. cbn [andb].
    now apply in_seps1_sound.
  - destruct s as [|a [|b s]]; cbn [rmatch]; auto; [|discriminate].
    destruct (Ascii.eqb_spec a newline_char) as [->|]; [auto | discriminate].
Qed.

Lemma gap_chars (g : string) :
  is_gap g = true -> g <> EmptyString /\ all_chars is_space g = true.
Proof. destruct g; [discriminate|]. intros H. split; [discriminate | exact H]. Qed.

Lemma label_head (l : string) :
  is_label l = true ->
  exists b l', l = String b l' /\ is_letter b = true /\
               all_chars is_label_char l' = true.
Proof.
  destruct l as [|b l']; [discriminate|]. cbn [is_label]. intros H.
  apply andb_prop in H as [Hb Hl]. now exists b, l'.
Qed.

Lemma letter_not_separator (b : ascii) :
  is_letter b = true -> is_separator b = false.
Proof.
  intros H. destruct (is_separator b) eqn:S; [|reflexivity].
  apply separator_not_letter in S. congruence.
Qed.

Lemma in_seps2_gap (g l t : string) :
  all_chars is_space g = true -> is_label l = true ->
  in_seps2 (g ++ l ++ t) = false.
Proof.
  intros Hg Hl. induction g as [|a g IH].
  - destruct (label_head l Hl) as (b & l' & -> & Hb & _).
    cbn [append in_seps2].
    rewrite (label_char_not_equals b (letter_label_char b Hb)).
    now rewrite (letter_not_separator b Hb).
  - cbn [all_chars] in Hg. apply andb_prop in Hg as [Ha Hg].
    cbn [append in_seps2].
    rewrite (separator_not_equals a (space_separator a Ha)).
    rewrite (IH Hg). apply andb_false_r.
Qed.

Lemma in_seps2_follows (rest : string) : follows rest -> in_seps2 rest = false.
Proof.
  intros [->|(g & l & t & Hg & Hl & ->)]; [reflexivity|].
  apply gap_chars in Hg as [_ Hg]. unfold readable_label in Hl.
  apply andb_prop in Hl as [Hl _]. now apply in_seps2_gap.
Qed.

Lemma in_label_follows (rest : string) : follows rest -> in_label rest = false.
Proof.
  intros [->|(g & l & t & Hg & Hl & ->)]; [reflexivity|].
  destruct g as [|a g]; [discriminate|]. cbn [is_gap all_chars] in Hg.
  apply andb_prop in Hg as [Ha Hg]. unfold readable_label in Hl.
  apply andb_prop in Hl as [Hl _]. cbn [append in_label].
  rewrite (separator_not_equals a (space_separator a Ha)).
  rewrite (space_not_label_char a Ha), (in_seps2_gap g l _ Hg Hl).
  apply andb_false_r.
Qed.

Lemma quote_chars (q : ascii) :
  q = quote \/ q = dquote ->
  Ascii.eqb q "=" = false /\ is_separator q = false /\
  is_label_char q = false /\ is_letter q = false.
Proof. intros [->| ->]; repeat split; reflexivity. Qed.

Lemma in_seps2_chunks (r rest : string) :
  chunks r -> follows rest -> in_seps2 (r ++ rest) = false.
Proof.
  intros C F. induction C as [|a s Q1 Q2 E C IH|q x s Q M C IH].
  - now apply in_seps2_follows.
  - cbn [append in_seps2]. rewrite E, IH. apply andb_false_r.
  - destruct (quote_chars q Q) as (E & S & _). cbn [append in_seps2].
    now rewrite E, S.
Qed.

Lemma in_label_chunks (r rest : string) :
  chunks r -> follows rest -> in_label (r ++ rest) = false.
Proof.
  intros C F. induction C as [|a s Q1 Q2 E C IH|q x s Q M C IH].
  - now apply in_label_follows.
  - cbn [append in_label]. rewrite E, IH, (in_seps2_chunks s rest C F).
    destruct (is_label_char a); [reflexivity | apply andb_false_r].
  - destruct (quote_chars q Q) as (E & S & L & _). cbn [append in_label].
    now rewrite E, L, S.
Qed.

Lemma in_seps1_chunks (r rest : string) :
  chunks r -> ends_plain r = true -> follows rest ->
  in_seps1 (r ++ rest) = false.
Proof.
  intros C P F. induction C as [|a s Q1 Q2 E C IH|q x s Q M C IH].
  - discriminate.
  - cbn [append in_seps1]. destruct (is_separator a) eqn:S.
    + apply IH. cbn [ends_plain] in P. rewrite S in P.
      now destruct s.
    + rewrite (in_label_chunks s rest C F). apply andb_false_r.
  - destruct (quote_chars q Q) as (_ & S & _ & L). cbn [append in_seps1].
    now rewrite S, L.
Qed.

Lemma ahead_ok_chunks (r rest : string) :
  chunks r -> ends_plain r = true -> follows rest ->
  ahead_ok (r ++ rest) = false.
Proof.
  intros C P F. destruct C as [|a s Q1 Q2 E C|q x s Q M C].
  - discriminate.
  - cbn [append ahead_ok]. destruct (is_separator a) eqn:S; [|reflexivity].
    cbn [andb]. apply in_seps1_chunks; [exact C | | exact F].
    cbn [ends_plain] in P. rewrite S in P. now destruct s.
  - destruct (quote_chars q Q) as (_ & S & _). cbn [append ahead_ok].
    now rewrite S.
Qed.

(** Inside a value, at the start of a chunk, the lookahead fails. *)
Lemma ahead_fails (r rest : string) (c : captures)
      (k : string -> captures -> option found) :
  chunks r -> ends_plain r = true -> follows rest ->
  rmatch re_value_end (r ++ rest) c k = None.
Proof.
  intros C P F.
  destruct (rmatch re_value_end (r ++ rest) c k) as [y|] eqn:E; [|reflexivity].
  apply ahead_sound in E as [E|[E|E]].
  - destruct r; [discriminate P | discriminate E].
  - destruct r as [|a r]; [discriminate P|]. cbn [append] in E.
    injection E as -> E. destruct r; [discriminate P | discriminate E].
  - now rewrite ahead_ok_chunks in E.
Qed.

(** *** Labels *)

Lemma ends_plain_tail (a b : ascii) (s : string) :
  ends_plain (String a (String b s)) = ends_plain (String b s).
Proof. reflexivity. Qed.

Lemma ends_plain_app (x y : string) :
  y <> EmptyString -> ends_plain (x ++ y) = ends_plain y.
Proof.
  intros Hy. induction x as [|a x IH]; [reflexivity|].
  cbn [append]. destruct (x ++ y)%string as [|b z] eqn:E.
  - destruct x; [cbn in E; contradiction | discriminate].
  - now rewrite ends_plain_tail.
Qed.

Lemma in_seps2_label (x t : string) :
  all_chars is_label_char x = true -> ends_plain x = true ->
  in_seps2 (x ++ t) = false.
Proof.
  induction x as [|a x IH]; intros H P; [discriminate|].
  cbn [all_chars] in H. apply andb_prop in H as [Ha H].
  cbn [append in_seps2]. rewrite (label_char_not_equals a Ha).
  destruct x as [|b x].
  - cbn [ends_plain] in P. apply negb_true_iff in P. now rewrite P.
  - rewrite ends_plain_tail in P. rewrite (IH H P). apply andb_false_r.
Qed.

Lemma all_chars_suffix (f : ascii -> bool) (x y : string) :
  all_chars f (x ++ y) = true -> all_chars f y = true.
Proof. rewrite all_chars_append. intros H. now apply andb_prop in H. Qed.

(** The lazy label stops where separators and the [=] sign follow: at
    the end of a label whose last character is not a comma. *)
Lemma label_run (kk : string -> captures -> option found)
      (l t : string) (c : captures) (y : found) :
  readable_label l = true ->
  (forall s,
      in_seps2 s = false -> kk s c = None) ->
  kk ("=" ++ t)%string c = Some y ->
  rmatch re_label (l ++ "=" ++ t) c kk = Some y.
Proof.
  intros Hl Hno Hk. unfold readable_label in Hl.
  apply andb_prop in Hl as [Hl P].
  destruct (label_head l Hl) as (b & l' & -> & Hb & Hl').
  unfold re_label. rewrite rmatch_cat. cbn [append].
  rewrite rmatch_char, Hb, rmatch_star.
  apply lazy_run; [exact Hl' | lia | | exact Hk].
  intros x1 a x2 E. apply Hno. apply in_seps2_label.
  - subst l'. now apply all_chars_suffix in Hl'.
  - subst l'. rewrite <- (ends_plain_app (String b x1) (String a x2)); [|discriminate].
    exact P.
Qed.

(** *** The end of a value *)

Lemma follows_first (rest : string) :
  follows rest ->
  match rest with
  | EmptyString => True
  | String a _ => is_separator a = true
  end.
Proof.
  intros [->|(g & l & t & Hg & _ & ->)]; [exact I|].
  destruct g as [|a g]; [discriminate|]. cbn [is_gap all_chars] in Hg.
  apply andb_prop in Hg as [Ha _]. now apply space_separator.
Qed.

Lemma all_space_separator (g : string) :
  all_chars is_space g = true -> all_chars is_separator g = true.
Proof.
  induction g as [|a g IH]; [reflexivity|]. cbn [all_chars]. intros H.
  apply andb_prop in H as [Ha H]. now rewrite (space_separator a Ha), IH.
Qed.

(** At the end of the text, and before a gap and the next token, the
    lookahead succeeds. *)
Lemma ahead_follows (rest : string) (c : captures)
      (k : string -> captures -> option found) :
  follows rest -> rmatch re_value_end rest c k = k rest c.
Proof.
  intros [->|(g & l & t & Hg & Hl & ->)]; [reflexivity|].
  unfold re_value_end. rewrite rmatch_ahead, rmatch_alt.
  assert (E : rmatch (Cat (plus true (Chars is_separator))
                          (Cat re_label (Cat re_separators (lit "="))))
                     (g ++ l ++ "=" ++ t) c (fun s' c' => Some (c', s'))
              = Some (c, t)).
  { destruct g as [|a g]; [discriminate|]. cbn [is_gap all_chars] in Hg.
    apply andb_prop in Hg as [Ha Hg]. unfold plus.
    rewrite !rmatch_cat. cbn [append].
    rewrite rmatch_char, (space_separator a Ha), rmatch_star.
    pose proof Hl as Hl0. unfold readable_label in Hl0.
    apply andb_prop in Hl0 as [Hl0 _].
    destruct (label_head l Hl0) as (b & l' & El & Hb & _).
    apply greedy_run; [now apply all_space_separator | lia | |].
    - rewrite El. cbn [append]. now apply letter_not_separator.
    - cbv beta. rewrite rmatch_cat. apply label_run; [exact Hl | |].
      + intros s Hs. cbv beta. unfold re_separators.
        rewrite rmatch_cat, rmatch_star.
        now apply separators_equals_fail.
      + cbv beta. unfold re_separators. rewrite rmatch_cat, rmatch_star.
        apply (greedy_run is_separator _ EmptyString eq_refl);
          [cbn [append]; lia | reflexivity |].
        unfold lit. cbn [append]. now rewrite rmatch_char. }
  now rewrite E.
Qed.

(** *** Values *)

Lemma quoted_ok_chunks (s : string) :
  (quoted_ok None s = true -> chunks s) /\
  (forall q, q = quote \/ q = dquote ->
             quoted_ok (Some q) s = true ->
             exists x t, s = (x ++ String q t)%string /\
                         mentions q x = false /\ chunks t).
Proof.
  induction s as [|a s [IHn IHq]]; split.
  - constructor.
  - discriminate.
  - cbn [quoted_ok].
    destruct (Ascii.eqb quote a) eqn:Q1; [|destruct (Ascii.eqb dquote a) eqn:Q2];
      cbn [orb].
    + apply Ascii.eqb_eq in Q1. subst a. intros H.
      destruct (IHq quote (or_introl eq_refl) H) as (x & t & -> & M & C).
      now apply chunks_quoted; [left | |].
    + apply Ascii.eqb_eq in Q2. subst a. intros H.
      destruct (IHq dquote (or_intror eq_refl) H) as (x & t & -> & M & C).
      now apply chunks_quoted; [right | |].
    + intros H. apply andb_prop in H as [E H]. apply negb_true_iff in E.
      apply chunks_char; auto.
  - intros q Q. cbn [quoted_ok]. destruct (Ascii.eqb q a) eqn:E.
    + apply Ascii.eqb_eq in E. subst a. intros H.
      exists EmptyString, s. repeat split. now apply IHn.
    + intros H. destruct (IHq q Q H) as (x & t & -> & M & C).
      exists (String a x), t. repeat split; [|exact C].
      cbn [mentions]. now rewrite E, M.
Qed.

(** The lazy repetition of [re_value] goes through a value chunk by
    chunk, as long as the lookahead fails at the start of each chunk, and
    stops at the end of the value. *)
Lemma chunk_turns (kE : string -> captures -> option found)
      (rest : string) (c : captures) (y : found) :
  kE rest c = Some y ->
  forall v,
    chunks v ->
    (forall v2, chunks v2 -> v2 <> EmptyString -> suffix v2 v ->
                kE (v2 ++ rest)%string c = None) ->
    forall n,
      String.length (v ++ rest) <= n ->
      turns (rmatch re_chunk) false kE n (v ++ rest) c = Some y.
Proof.
  intros Hk v C.
  induction C as [|a s Q1 Q2 E C IH|q x s Q M C IH]; intros Hno n Hn.
  - now apply lazy_now.
  - assert (N : kE (String a (s ++ rest)) c = None).
    { apply (Hno (String a s)); [now constructor | discriminate|].
      apply suffix_refl. }
    cbn [append String.length] in Hn |- *.
    destruct n as [|n]; [lia|]. cbn [turns]. rewrite N.
    unfold re_chunk, lit, plus, any_char.
    rewrite rmatch_alt, rmatch_cat, rmatch_char, Q1.
    rewrite rmatch_alt, rmatch_cat, rmatch_char, Q2.
    rewrite rmatch_cat, rmatch_char, rmatch_star.
    apply lazy_now. rewrite shorter.
    apply IH; [|lia].
    intros v2 C2 N2 S2. apply Hno; try assumption.
    exact (suffix_trans v2 s (String a s) S2 (suffix_tail a s)).
  - assert (N : kE (String q (x ++ String q s) ++ rest)%string c = None).
    { apply (Hno (String q (x ++ String q s))); [now constructor | discriminate|].
      apply suffix_refl. }
    assert (Short : (String.length (s ++ rest)
                     <? String.length (String q (x ++ String q (s ++ rest))))
                    = true).
    { apply Nat.ltb_lt. cbn [String.length].
      rewrite (length_append x). cbn [String.length]. lia. }
    assert (Inner : forall m,
               String.length (s ++ rest) <= m ->
               turns (rmatch re_chunk) false kE m (s ++ rest) c = Some y).
    { intros m Hm. apply IH; [|exact Hm].
      intros v2 C2 N2 (pre & S2). apply Hno; try assumption.
      exists (String q (x ++ String q pre)). rewrite S2.
      cbn [append]. now rewrite append_assoc. }
    replace (String q (x ++ String q s) ++ rest)%string
      with (String q (x ++ String q (s ++ rest))) in *
      by (cbn [append]; now rewrite append_assoc).
    cbn [String.length] in Hn. destruct n as [|n]; [lia|].
    assert (Hm : String.length (s ++ rest) <= n).
    { rewrite (length_append x) in Hn. cbn [String.length] in Hn. lia. }
    cbn [turns]. rewrite N. unfold re_chunk. rewrite rmatch_alt.
    destruct Q as [-> | ->].
    + rewrite rmatch_cat. unfold lit at 1. rewrite rmatch_char, Ascii.eqb_refl.
      rewrite rmatch_cat, rmatch_star.
      rewrite (lazy_until quote _ x M (s ++ rest) _ c y);
        [reflexivity | lia |].
      rewrite Short. now apply Inner.
    + rewrite rmatch_cat. unfold lit at 1. rewrite rmatch_char.
      change (Ascii.eqb quote dquote) with false. cbv iota.
      rewrite rmatch_alt, rmatch_cat. unfold lit at 1.
      rewrite rmatch_char, Ascii.eqb_refl.
      rewrite rmatch_cat, rmatch_star.
      rewrite (lazy_until dquote _ x M (s ++ rest) _ c y);
        [reflexivity | lia |].
      rewrite Short. now apply Inner.
Qed.

(** *** One token *)

Lemma substring_whole (pre t : string) (k : nat) :
  k = String.length (pre ++ t) - String.length t ->
  substring 0 k (pre ++ t) = pre.
Proof. intros ->. apply substring_prefix. Qed.

(** At the head of a token that is followed by the end of the text or by
    a gap and another token, the pattern matches the token and nothing
    more; its groups are the label and the value. *)
Lemma token_match (l v rest : string) :
  readable_label l = true -> readable_value v = true -> follows rest ->
  rmatch _RE_SCAN_PARAMS (l ++ "=" ++ v ++ rest) [] (fun s' c => Some (c, s'))
  = Some ([(2, v); (1, l)], rest).
Proof.
  intros Hl Hv F. unfold readable_value in Hv.
  apply andb_prop in Hv as [Hv Q]. apply andb_prop in Hv as [S P].
  apply (proj1 (quoted_ok_chunks v)) in Q.
  unfold _RE_SCAN_PARAMS. rewrite rmatch_cat, rmatch_group.
  apply label_run; [exact Hl | |].
  - intros s Hs. cbv beta. rewrite rmatch_cat. unfold re_separators.
    rewrite rmatch_star.
    exact (separators_equals_fail _ (String.length s) s _ Hs).
  - cbv beta. rewrite rmatch_cat. unfold re_separators. rewrite rmatch_star.
    apply (greedy_run is_separator _ EmptyString eq_refl);
      [cbn [append]; lia | reflexivity |].
    cbv beta. rewrite rmatch_cat. unfold lit. cbn [append].
    rewrite rmatch_char, Ascii.eqb_refl, rmatch_cat, rmatch_star.
    apply (greedy_run is_separator _ EmptyString eq_refl (v ++ rest)%string);
      [apply le_n | |].
    { destruct v as [|a v]; [discriminate|]. cbn [append].
      now apply negb_true_iff in S. }
    cbv beta. rewrite rmatch_group, rmatch_cat.
    change re_value with (Star false re_chunk). rewrite rmatch_star.
    apply chunk_turns; [| exact Q | | lia].
    + rewrite (ahead_follows rest _ _ F).
      rewrite (substring_whole v rest) by reflexivity.
      rewrite (substring_whole l ("=" ++ v ++ rest)) by reflexivity.
      reflexivity.
    + intros v2 C2 N2 (pre & S2). apply ahead_fails; [exact C2 | | exact F].
      rewrite <- (ends_plain_app pre v2 N2). now rewrite <- S2.
Qed.

Lemma no_match_here (a : ascii) (s : string) :
  is_letter a = false ->
  rmatch _RE_SCAN_PARAMS (String a s) [] (fun s' c => Some (c, s')) = None.
Proof.
  intros H. unfold _RE_SCAN_PARAMS, re_label.
  now rewrite rmatch_cat, rmatch_group, rmatch_cat, rmatch_char, H.
Qed.

Lemma space_not_letter (a : ascii) : is_space a = true -> is_letter a = false.
Proof. intros H. now apply separator_not_letter, space_separator. Qed.

(** *** The scan of the text *)

Lemma finditer_step (fuel : nat) (r : regex) (s : string) :
  finditer (S fuel) r s
  = match rmatch r s [] (fun s' c => Some (c, s')) with
    | Some (c, s') =>
        c :: (if String.length s' <? String.length s
              then finditer fuel r s'
              else match s with
                   | EmptyString => []
                   | String _ rest => finditer fuel r rest
                   end)
    | None =>
        match s with
        | EmptyString => []
        | String _ rest => finditer fuel r rest
        end
    end.
Proof. reflexivity. Qed.

(** No match starts in a gap. *)
Lemma finditer_gap (g : string) :
  all_chars is_space g = true ->
  forall s fuel,
    String.length (g ++ s) < fuel ->
    finditer fuel _RE_SCAN_PARAMS (g ++ s) = finditer fuel _RE_SCAN_PARAMS s.
Proof.
  induction g as [|a g IH]; intros Hg s fuel Hf; [reflexivity|].
  cbn [all_chars] in Hg. apply andb_prop in Hg as [Ha Hg].
  cbn [append String.length] in Hf |- *.
  destruct fuel as [|fuel]; [lia|].
  rewrite (finditer_step fuel _ (String a (g ++ s))).
  rewrite (no_match_here a (g ++ s) (space_not_letter a Ha)).
  rewrite (IH Hg s fuel) by lia.
  apply finditer_enough; rewrite length_append in Hf; lia.
Qed.

Lemma readable_token (p : FDSParam) :
  readable p = true ->
  readable_label (label_of p) = true /\
  readable_value (joined_values p) = true /\
  token p = (label_of p ++ "=" ++ joined_values p)%string.
Proof.
  unfold readable, token, joined_values.
  destruct (FDSParam.formatted_values p) as [|v vs]; [discriminate|].
  intros H. apply andb_prop in H as [Hl Hv]. now repeat split.
Qed.

Lemma spelled_cons (g : string) (p : FDSParam) (items : list (string * FDSParam)) :
  spelled ((g, p) :: items) = (g ++ token p ++ spelled items)%string.
Proof. unfold spelled. cbn [map glue fold_right fst snd]. apply append_assoc. Qed.

Lemma follows_spelled (items : list (string * FDSParam)) :
  forallb legible items = true -> follows (spelled items).
Proof.
  destruct items as [|[g p] items]; [now left|]. cbn [forallb].
  intros H. apply andb_prop in H as [H _]. unfold legible in H.
  apply andb_prop in H as [Hg Hp]. cbn [fst snd] in Hg, Hp.
  destruct (readable_token p Hp) as (Hl & _ & T).
  right. exists g, (label_of p), (joined_values p ++ spelled items)%string.
  repeat split; try assumption.
  rewrite spelled_cons, T. now rewrite !append_assoc.
Qed.

Lemma finditer_tokens (items : list (string * FDSParam)) :
  forall g p fuel,
    all_chars is_space g = true -> readable p = true ->
    forallb legible items = true ->
    String.length (g ++ token p ++ spelled items) < fuel ->
    map groups (finditer fuel _RE_SCAN_PARAMS (g ++ token p ++ spelled items))
    = read_back p :: map (fun i => read_back (snd i)) items.
Proof.
  induction items as [|[g' p'] items IH]; intros g p fuel Hg Hp Hi Hf.
  - rewrite (finditer_gap g Hg _ fuel Hf).
    destruct (readable_token p Hp) as (Hl & Hv & T).
    rewrite length_append in Hf.
    destruct fuel as [|fuel]; [lia|]. rewrite finditer_step.
    assert (E : (token p ++ spelled [])%string
                = (label_of p ++ "=" ++ joined_values p ++ spelled [])%string).
    { rewrite T. now rewrite !append_assoc. }
    rewrite E.
    rewrite (token_match (label_of p) (joined_values p) (spelled [])
               Hl Hv (follows_spelled [] eq_refl)).
    assert (L : String.length (spelled [])
                < String.length (label_of p ++ "=" ++ joined_values p
                                 ++ spelled [])).
    { rewrite !length_append. cbn [String.length].
      destruct (label_of p); [discriminate Hl | cbn [String.length]; lia]. }
    apply Nat.ltb_lt in L. rewrite L. cbn [map]. f_equal.
    destruct fuel; reflexivity.
  - rewrite (finditer_gap g Hg _ fuel Hf).
    destruct (readable_token p Hp) as (Hl & Hv & T).
    rewrite length_append in Hf.
    destruct fuel as [|fuel]; [lia|]. rewrite finditer_step.
    assert (E : (token p ++ spelled ((g', p') :: items))%string
                = (label_of p ++ "=" ++ joined_values p
                   ++ spelled ((g', p') :: items))%string).
    { rewrite T. now rewrite !append_assoc. }
    rewrite E in Hf |- *.
    rewrite (token_match (label_of p) (joined_values p) _ Hl Hv
               (follows_spelled _ Hi)).
    assert (L : String.length (spelled ((g', p') :: items))
                < String.length (label_of p ++ "=" ++ joined_values p
                                 ++ spelled ((g', p') :: items))).
    { rewrite !length_append. cbn [String.length].
      destruct (label_of p); [discriminate Hl | cbn [String.length]; lia]. }
    apply Nat.ltb_lt in L as L'. rewrite L'. cbn [map]. f_equal.
    rewrite spelled_cons.
    cbn [forallb] in Hi. apply andb_prop in Hi as [H1 H2].
    unfold legible in H1. apply andb_prop in H1 as [Hg' Hp'].
    cbn [fst snd] in Hg', Hp'. apply gap_chars in Hg' as [_ Hg'].
    rewrite (IH g' p' fuel Hg' Hp' H2); [reflexivity|].
    rewrite <- spelled_cons. lia.
Qed.

(** X15: the scan reads back what the writer writes as tokens. For
    parameters with formatted values, whose labels are a letter followed
    by label characters and do not end with a comma, and whose values
    [v1,v2,...] neither start nor end with a separator, have their quotes
    closed and no [=] sign outside quotes, the text made of their tokens
    [LABEL=v1,v2,...], each after a gap of spaces, tabs or line breaks,
    is scanned into exactly one pair per parameter, in order: its label
    and its values as written. *)
Theorem scan_reads_tokens (items : list (string * FDSParam)) :
  forallb legible items = true ->
  scan_params (spelled items) = map (fun i => read_back (snd i)) items.
Proof.
  intros H. unfold scan_params. destruct items as [|[g p] items].
  - reflexivity.
  - cbn [forallb] in H. apply andb_prop in H as [H1 H2].
    unfold legible in H1. apply andb_prop in H1 as [Hg Hp].
    cbn [fst snd] in Hg, Hp. apply gap_chars in Hg as [_ Hg].
    rewrite spelled_cons. cbn [map snd].
    apply finditer_tokens; try assumption. lia.
Qed.

Lemma scan_reads_tokens_witness :
  scan_params (" ID='a=b, c'" ++ LF ++ "      XB=0.000,1.000 SURF_ID='INERT'")
  = [("ID", "'a=b, c'"); ("XB", "0.000,1.000"); ("SURF_ID", "'INERT'")].
Proof. exact (scan_reads_tokens three_tokens eq_refl). Defined.

(** ** Joining the lines *)

Lemma linebreak_space (a : ascii) : is_linebreak a = true -> is_space a = true.
Proof. each_char a. Qed.

Lemma splitlines_from_some (s : string) :
  forall cur,
    cur <> EmptyString \/ s <> EmptyString -> splitlines_from cur s <> [].
Proof.
  induction s as [|a s IH]; intros cur H; cbn [splitlines_from].
  - destruct cur; [|discriminate]. now destruct H.
  - destruct (is_linebreak a).
    + destruct s as [|b s]; [discriminate|].
      destruct (Ascii.eqb a CR && Ascii.eqb b newline_char); discriminate.
    + apply IH. left. now destruct cur.
Qed.

Lemma concat_cons (sep x : string) (l : list string) :
  l <> [] -> String.concat sep (x :: l) = (x ++ sep ++ String.concat sep l)%string.
Proof. destruct l; [contradiction | reflexivity]. Qed.

Lemma ends_line_tail (a b : ascii) (s : string) :
  ends_line (String a (String b s)) = ends_line (String b s).
Proof. reflexivity. Qed.

(** The lines joined by a space are the text with its boundaries
    replaced, when the text does not end with a boundary. *)
Lemma concat_splitlines (n : nat) :
  forall s cur,
    String.length s <= n -> ends_line s = false ->
    String.concat " " (splitlines_from cur s) = (cur ++ unbreak s)%string.
Proof.
  induction n as [|n IH]; intros s cur Hn He.
  - destruct s; [|simpl in Hn; lia]. cbn [splitlines_from unbreak].
    rewrite append_empty_r. now destruct cur.
  - destruct s as [|a s].
    + cbn [splitlines_from unbreak]. rewrite append_empty_r. now destruct cur.
    + cbn [String.length] in Hn. cbn [splitlines_from unbreak].
      destruct (is_linebreak a) eqn:La.
      * destruct s as [|b s]; [cbn [ends_line] in He; congruence|].
        rewrite ends_line_tail in He. cbn [String.length] in Hn.
        destruct (Ascii.eqb a CR && Ascii.eqb b newline_char) eqn:CRLF.
        -- assert (Hs : s <> EmptyString).
           { intros ->. cbn [ends_line] in He.
             apply andb_prop in CRLF as [_ Hb]. apply Ascii.eqb_eq in Hb.
             subst b. discriminate He. }
           rewrite concat_cons by (apply splitlines_from_some; now right).
           rewrite IH; [reflexivity | lia |].
           destruct s; [contradiction | exact He].
        -- rewrite concat_cons by (apply splitlines_from_some; right; discriminate).
           rewrite IH; [reflexivity | cbn [String.length]; lia | exact He].
      * destruct s as [|b s].
        -- cbn [splitlines_from unbreak].
           destruct (cur ++ String a EmptyString)%string eqn:E;
             [destruct cur; discriminate | reflexivity].
        -- rewrite ends_line_tail in He.
           rewrite IH; [|lia | exact He].
           now rewrite append_assoc.
Qed.

Lemma rstrip_ends (s : string) : ends_line (rstrip s) = false.
Proof.
  induction s as [|a s IH]; [reflexivity|]. cbn [rstrip].
  destruct (rstrip s) as [|b t] eqn:R.
  - destruct (is_space a) eqn:S; [reflexivity|]. cbn [ends_line].
    destruct (is_linebreak a) eqn:L; [|reflexivity].
    apply linebreak_space in L. congruence.
  - now rewrite ends_line_tail.
Qed.

(** X16: [from_fds] scans the text without its leading and trailing
    white space and with each line boundary in between replaced by
    exactly one space, a carriage return followed by a newline counting
    as one boundary; every other character, the spaces that indent a
    line included, is kept as it is. *)
Theorem join_lines_unbreak (f90 : string) :
  join_lines f90 = unbreak (strip f90).
Proof.
  unfold join_lines, splitlines.
  rewrite (concat_splitlines (String.length (strip f90))); [reflexivity | lia|].
  apply rstrip_ends.
Qed.

(** ** Reading the tokens back *)

Lemma lstrip_gap (g s : string) :
  all_chars is_space g = true -> lstrip (g ++ s) = lstrip s.
Proof.
  induction g as [|a g IH]; intros H; [reflexivity|].
  cbn [all_chars] in H. apply andb_prop in H as [Ha H].
  cbn [append lstrip]. rewrite Ha. now apply IH.
Qed.

Lemma rstrip_plain (s : string) : ends_plain s = true -> rstrip s = s.
Proof.
  induction s as [|a s IH]; intros H; [reflexivity|]. cbn [rstrip].
  destruct s as [|b s].
  - cbn [ends_plain] in H. apply negb_true_iff in H. cbn [rstrip].
    destruct (is_space a) eqn:S; [|reflexivity].
    apply space_separator in S. congruence.
  - rewrite ends_plain_tail in H. now rewrite (IH H).
Qed.

Lemma unbreak_plain (x s : string) :
  no_break x = true -> unbreak (x ++ s) = (x ++ unbreak s)%string.
Proof.
  induction x as [|a x IH]; intros H; [reflexivity|].
  cbn [no_break] in H. apply andb_prop in H as [Ha H].
  apply negb_true_iff in Ha. cbn [append unbreak]. rewrite Ha.
  now rewrite (IH H).
Qed.

Lemma unbreak_char (a : ascii) (s : string) :
  is_linebreak a = false -> unbreak (String a s) = String a (unbreak s).
Proof. intros H. cbn [unbreak]. now rewrite H. Qed.

Lemma unbreak_last (a : ascii) :
  is_linebreak a = true -> unbreak (String a EmptyString) = " "%string.
Proof. intros H. cbn [unbreak]. now rewrite H. Qed.

Lemma unbreak_break (a b : ascii) (s : string) :
  is_linebreak a = true ->
  unbreak (String a (String b s))
  = if Ascii.eqb a CR && Ascii.eqb b newline_char
    then String " " (unbreak s) else String " " (unbreak (String b s)).
Proof. intros H. cbn [unbreak]. now rewrite H. Qed.

Lemma unbreak_gap (n : nat) :
  forall g b s,
    String.length g <= n -> is_linebreak b = false ->
    unbreak (g ++ String b s) = (unbreak g ++ unbreak (String b s))%string.
Proof.
  induction n as [|n IH]; intros g b s Hn Hb.
  - destruct g; [reflexivity | simpl in Hn; lia].
  - destruct g as [|a g]; [reflexivity|]. cbn [String.length] in Hn.
    cbn [append]. destruct (is_linebreak a) eqn:La.
    + destruct g as [|b0 g].
      * cbn [append]. rewrite (unbreak_break a b s La), (unbreak_last a La).
        replace (Ascii.eqb b newline_char) with false.
        2:{ destruct (Ascii.eqb_spec b newline_char) as [->|]; [|reflexivity].
            discriminate Hb. }
        now rewrite andb_false_r.
      * cbn [append]. rewrite !(unbreak_break a b0 _ La).
        cbn [String.length] in Hn.
        destruct (Ascii.eqb a CR && Ascii.eqb b0 newline_char).
        -- cbn [append]. f_equal. apply IH; [lia | exact Hb].
        -- cbn [append]. f_equal.
           apply (IH (String b0 g) b s); [cbn [String.length]; lia | exact Hb].
    + rewrite !(unbreak_char a _ La).
      cbn [append]. f_equal. apply IH; [lia | exact Hb].
Qed.

Lemma unbreak_spaces (n : nat) :
  forall g,
    String.length g <= n -> all_chars is_space g = true ->
    all_chars is_space (unbreak g) = true.
Proof.
  induction n as [|n IH]; intros g Hn Hg.
  - destruct g; [reflexivity | simpl in Hn; lia].
  - destruct g as [|a g]; [reflexivity|]. cbn [String.length] in Hn.
    cbn [all_chars] in Hg. apply andb_prop in Hg as [Ha Hg]. cbn [unbreak].
    destruct (is_linebreak a).
    + destruct g as [|b g]; [reflexivity|].
      cbn [all_chars] in Hg. apply andb_prop in Hg as [Hb Hg'].
      cbn [String.length] in Hn.
      destruct (Ascii.eqb a CR && Ascii.eqb b newline_char); cbn [all_chars].
      * change (is_space " ") with true. apply IH; [lia | exact Hg'].
      * change (is_space " ") with true.
        apply (IH (String b g)); [cbn [String.length]; lia|].
        cbn [all_chars]. now rewrite Hb.
    + cbn [all_chars]. rewrite Ha. apply IH; [lia | exact Hg].
Qed.

Lemma gap_unbreak (g : string) : is_gap g = true -> is_gap (unbreak g) = true.
Proof.
  intros H. pose proof (gap_chars g H) as [Hne Hg].
  pose proof (unbreak_spaces (String.length g) g (le_n _) Hg) as U.
  destruct g as [|a g]; [contradiction|]. cbn [unbreak] in U |- *.
  destruct (is_linebreak a); [destruct g as [|b g]|]; try exact U.
  destruct (Ascii.eqb a CR && Ascii.eqb b newline_char); exact U.
Qed.

Lemma label_char_no_break (a : ascii) :
  is_label_char a = true -> is_linebreak a = false.
Proof. each_char a. Qed.

Lemma label_no_break (l : string) :
  all_chars is_label_char l = true -> no_break l = true.
Proof.
  induction l as [|a l IH]; [reflexivity|]. cbn [all_chars no_break].
  intros H. apply andb_prop in H as [Ha H].
  now rewrite (label_char_no_break a Ha), IH.
Qed.

Lemma token_no_break (p : FDSParam) :
  readable p = true -> no_break (joined_values p) = true ->
  no_break (token p) = true.
Proof.
  intros Hp Hv. destruct (readable_token p Hp) as (Hl & _ & ->).
  rewrite !no_break_append, Hv. unfold readable_label in Hl.
  apply andb_prop in Hl as [Hl _].
  destruct (label_head _ Hl) as (b & l' & -> & Hb & Hl').
  cbn [no_break]. rewrite (label_char_no_break b (letter_label_char b Hb)).
  now rewrite (label_no_break l' Hl').
Qed.

Lemma token_head (p : FDSParam) :
  readable p = true ->
  exists b t, token p = String b t /\ is_letter b = true.
Proof.
  intros Hp. destruct (readable_token p Hp) as (Hl & _ & ->).
  unfold readable_label in Hl. apply andb_prop in Hl as [Hl _].
  destruct (label_head _ Hl) as (b & l' & -> & Hb & _).
  now eexists b, _.
Qed.

Lemma letter_no_break (b : ascii) : is_letter b = true -> is_linebreak b = false.
Proof. intros H. now apply label_char_no_break, letter_label_char. Qed.

Lemma letter_not_space (b : ascii) : is_letter b = true -> is_space b = false.
Proof.
  intros H. destruct (is_space b) eqn:S; [|reflexivity].
  apply space_not_letter in S. congruence.
Qed.

Lemma spelled_ends (items : list (string * FDSParam)) :
  forallb legible items = true ->
  items = [] \/ ends_plain (spelled items) = true.
Proof.
  induction items as [|[g p] items IH]; intros H; [now left|]. right.
  cbn [forallb] in H. apply andb_prop in H as [H1 H2].
  unfold legible in H1. apply andb_prop in H1 as [_ Hp]. cbn [snd] in Hp.
  destruct (readable_token p Hp) as (_ & Hv & T).
  unfold readable_value in Hv. apply andb_prop in Hv as [Hv _].
  apply andb_prop in Hv as [_ P].
  rewrite spelled_cons. destruct (IH H2) as [->|E].
  - unfold spelled. cbn [map glue fold_right]. rewrite append_empty_r, T.
    rewrite <- append_assoc, ends_plain_app; [|now destruct (joined_values p)].
    rewrite ends_plain_app; [exact P | now destruct (joined_values p)].
  - rewrite <- append_assoc, ends_plain_app; [exact E|].
    now destruct (spelled items).
Qed.

Lemma unbreak_spelled (items : list (string * FDSParam)) :
  forallb legible items = true -> forallb on_a_line items = true ->
  unbreak (spelled items) = spelled (on_one_line items).
Proof.
  induction items as [|[g p] items IH]; intros H L; [reflexivity|].
  cbn [forallb] in H, L. apply andb_prop in H as [H1 H2].
  apply andb_prop in L as [L1 L2].
  unfold legible in H1. apply andb_prop in H1 as [_ Hp]. cbn [snd] in Hp.
  unfold on_a_line in L1. cbn [snd] in L1.
  unfold on_one_line. cbn [map fst snd]. rewrite !spelled_cons.
  destruct (token_head p Hp) as (b & t & E & Hb).
  assert (G : unbreak (g ++ token p ++ spelled items)
              = (unbreak g ++ unbreak (token p ++ spelled items))%string).
  { rewrite E. cbn [append].
    apply (unbreak_gap (String.length g) g b _ (le_n _) (letter_no_break b Hb)). }
  rewrite G, unbreak_plain by now apply token_no_break.
  now rewrite (IH H2 L2).
Qed.

Lemma legible_on_one_line (items : list (string * FDSParam)) :
  forallb legible items = true -> forallb legible (on_one_line items) = true.
Proof.
  induction items as [|[g p] items IH]; intros H; [reflexivity|].
  cbn [forallb] in H. apply andb_prop in H as [H1 H2].
  unfold legible in H1. apply andb_prop in H1 as [Hg Hp]. cbn [fst snd] in Hg, Hp.
  cbn [on_one_line map forallb fst snd]. unfold legible at 1. cbn [fst snd].
  rewrite (gap_unbreak g Hg), Hp. now apply IH.
Qed.

Lemma read_back_on_one_line (items : list (string * FDSParam)) :
  map (fun i => read_back (snd i)) (on_one_line items)
  = map (fun i => read_back (snd i)) items.
Proof. unfold on_one_line. rewrite map_map. reflexivity. Qed.

(** What [from_fds] scans when it is given tokens after gaps. *)
Lemma join_lines_spelled (g : string) (p : FDSParam)
      (items : list (string * FDSParam)) :
  forallb legible ((g, p) :: items) = true ->
  forallb on_a_line ((g, p) :: items) = true ->
  join_lines (spelled ((g, p) :: items))
  = (token p ++ spelled (on_one_line items))%string.
Proof.
  intros H L. unfold join_lines, splitlines.
  rewrite (concat_splitlines (String.length (strip (spelled ((g, p) :: items)))));
    [|apply le_n | apply rstrip_ends].
  cbn [append].
  pose proof (spelled_ends _ H) as [E|E]; [discriminate|].
  cbn [forallb] in H, L. apply andb_prop in H as [H1 H2].
  apply andb_prop in L as [L1 L2].
  unfold legible in H1. apply andb_prop in H1 as [Hg Hp]. cbn [fst snd] in Hg, Hp.
  apply gap_chars in Hg as [_ Hg]. unfold on_a_line in L1. cbn [snd] in L1.
  rewrite spelled_cons in E |- *.
  assert (S : strip (g ++ token p ++ spelled items)
              = (token p ++ spelled items)%string).
  { unfold strip. rewrite (lstrip_gap g _ Hg).
    destruct (token_head p Hp) as (b & t & T & Hb).
    assert (P : ends_plain (token p ++ spelled items) = true).
    { rewrite <- E. symmetry. apply ends_plain_app.
      rewrite T. discriminate. }
    rewrite T in P |- *. cbn [append lstrip] in P |- *.
    rewrite (letter_not_space b Hb). now apply rstrip_plain. }
  rewrite S, unbreak_plain by now apply token_no_break.
  f_equal. now apply unbreak_spelled.
Qed.

(** What [from_fds] scans and finds when it is given tokens after
    gaps. *)
Lemma scan_join_spelled (items : list (string * FDSParam)) :
  forallb legible items = true ->
  forallb on_a_line items = true ->
  scan_params (join_lines (spelled items))
  = map (fun i => read_back (snd i)) items.
Proof.
  intros H L. destruct items as [|[g p] items]; [reflexivity|].
  rewrite (join_lines_spelled g p items H L).
  cbn [forallb] in H. apply andb_prop in H as [H1 H2].
  unfold legible in H1. apply andb_prop in H1 as [_ Hp]. cbn [snd] in Hp.
  cbn [map snd]. rewrite <- (read_back_on_one_line items).
  unfold scan_params.
  apply (finditer_tokens (on_one_line items) EmptyString p);
    [reflexivity | exact Hp | now apply legible_on_one_line | cbn [append]; lia].
Qed.

(** X17: [from_fds] reads back the tokens that [to_fds] writes. For
    parameters as in X15 whose values have no line boundary, the text of
    their tokens [LABEL=v1,v2,...], each after a gap of spaces, tabs or
    line breaks, makes [from_fds] hand to [FDSParam] exactly one label
    and one raw value per parameter, in order: its label and its values
    as written; the line breaks between the tokens do not matter. *)
Theorem from_fds_reads_tokens
        (param_from_fds : string -> string -> (string * string) + FDSParam)
        (n : FDSNamelist) (items : list (string * FDSParam)) :
  forallb legible items = true ->
  forallb on_a_line items = true ->
  from_fds param_from_fds n (spelled items)
  = append_params param_from_fds n (map (fun i => read_back (snd i)) items).
Proof.
  intros H L. unfold from_fds. now rewrite (scan_join_spelled items H L).
Qed.

Lemma from_fds_reads_tokens_witness :
  from_fds raw_param (Namelist (Some "OBST") [] [])
           (" ID='a=b, c'" ++ LF ++ "      XB=0.000,1.000 SURF_ID='INERT'")
  = Returned tt
      (Namelist (Some "OBST")
                [PParam (FDSParam.mk (Some "ID") ["'a=b, c'"] []);
                 PParam (FDSParam.mk (Some "XB") ["0.000,1.000"] []);
                 PParam (FDSParam.mk (Some "SURF_ID") ["'INERT'"] [])]
                []).
Proof.
  exact (from_fds_reads_tokens raw_param (Namelist (Some "OBST") [] [])
                               three_tokens eq_refl eq_refl).
Defined.

(** ** From the writer to the reader *)

Lemma concat_snoc (sep x : string) (l : list string) :
  l <> [] ->
  String.concat sep (l ++ [x]) = (String.concat sep l ++ sep ++ x)%string.
Proof.
  induction l as [|a l IH]; intros H; [contradiction|].
  destruct l as [|b l]; [reflexivity|].
  change ((a :: b :: l) ++ [x]) with (a :: ((b :: l) ++ [x])).
  rewrite concat_cons by (cbn [app]; discriminate).
  rewrite IH by discriminate. rewrite (concat_cons sep a (b :: l)) by discriminate.
  now rewrite !append_assoc.
Qed.

Lemma concat_last (sep x t : string) (l : list string) :
  String.concat sep (l ++ [(x ++ t)%string])
  = (String.concat sep (l ++ [x]) ++ t)%string.
Proof.
  destruct l as [|a l]; [reflexivity|].
  rewrite !concat_snoc by discriminate. now rewrite !append_assoc.
Qed.

Lemma readable_labelled (p : FDSParam) : readable p = true -> labelled p = true.
Proof.
  intros H. destruct (readable_token p H) as (Hl & _).
  unfold readable_label in Hl. apply andb_prop in Hl as [Hl _].
  unfold labelled, label_of in *.
  destruct (FDSParam.fds_label p) as [[|a l]|]; [discriminate | reflexivity | discriminate].
Qed.

(** Without a split, each token is written after one space or at the
    start of a new line, after 6 spaces. *)
Lemma write_params_layout (nl : list FDSParam) :
  forall w,
    newline w = false -> forallb writable nl = true ->
    exists gaps,
      length gaps = length nl /\ Forall written_gap gaps /\
      String.concat LF (lines (fold_left write_param nl w)
                        ++ [line (fold_left write_param nl w)])
      = (String.concat LF (lines w ++ [line w])
         ++ spelled (combine gaps nl))%string.
Proof.
  induction nl as [|p nl IH]; intros w Hw H.
  - exists []. repeat split; [constructor|]. cbn [fold_left combine].
    unfold spelled. cbn [map glue fold_right]. now rewrite append_empty_r.
  - cbn [forallb] in H. apply andb_prop in H as [Hp H].
    unfold writable in Hp. apply andb_prop in Hp as [Hp Hfit].
    apply andb_prop in Hp as [Hp _].
    pose proof (readable_labelled p Hp) as Hl.
    assert (V : FDSParam.formatted_values p <> []).
    { unfold readable in Hp. now destruct (FDSParam.formatted_values p). }
    cbn [fold_left].
    assert (Step : exists g,
               written_gap g /\ newline (write_param w p) = false /\
               String.concat LF (lines (write_param w p)
                                 ++ [line (write_param w p)])
               = (String.concat LF (lines w ++ [line w]) ++ g ++ token p)%string).
    { rewrite (write_param_eq w p Hl), Hw. cbn [negb andb].
      destruct (String.length (line w) + 1 + String.length (token p) <=? MAXLEN).
      - exists " "%string. cbn [lines line newline].
        split; [now left|]. split; [reflexivity|]. apply concat_last.
      - destruct (FDSParam.formatted_values p) as [|v vs]; [contradiction|].
        rewrite Hfit. exists (LF ++ "      ")%string. cbn [lines line newline].
        split; [now right|]. split; [reflexivity|].
        rewrite concat_snoc by now destruct (lines w).
        now rewrite !append_assoc. }
    destruct Step as (g & Hg & Hn & E).
    destruct (IH (write_param w p) Hn H) as (gaps & Len & Gs & E').
    exists (g :: gaps). split; [cbn [length]; now rewrite Len|].
    split; [now constructor|].
    rewrite E', E. cbn [combine]. rewrite spelled_cons.
    now rewrite !append_assoc.
Qed.

Lemma written_gap_legible (gaps : list string) :
  Forall written_gap gaps ->
  forall nl,
    length gaps = length nl -> forallb writable nl = true ->
    forallb legible (combine gaps nl) = true /\
    forallb on_a_line (combine gaps nl) = true /\
    map (fun i => read_back (snd i)) (combine gaps nl) = map read_back nl.
Proof.
  induction 1 as [|g gaps Hg _ IH]; intros [|p nl] Len H; try discriminate.
  - now repeat split.
  - cbn [forallb] in H. apply andb_prop in H as [Hp H].
    unfold writable in Hp. apply andb_prop in Hp as [Hp _].
    apply andb_prop in Hp as [Hp Hv].
    injection Len as Len. destruct (IH nl Len H) as (A & B & C).
    cbn [combine forallb map snd]. unfold legible at 1, on_a_line at 1.
    cbn [fst snd]. rewrite Hp, Hv, A, B, C.
    now destruct Hg as [-> | ->].
Qed.

Lemma write_record_read_back
      (pf : string -> string -> (string * string) + FDSParam)
      (n : FDSNamelist) (label : string) (nl : list FDSParam) :
  forallb writable nl = true ->
  exists body,
    String.concat LF (write_record label nl)
    = (String "&" label ++ body ++ " /")%string /\
    from_fds pf n body = append_params pf n (map read_back nl).
Proof.
  intros H.
  destruct (write_params_layout nl (open_record label) eq_refl H)
    as (gaps & Len & Gs & E).
  destruct (written_gap_legible gaps Gs nl Len H) as (A & B & C).
  exists (spelled (combine gaps nl)). split.
  - unfold write_record. rewrite concat_last, E.
    cbn [open_record lines line app String.concat]. now rewrite append_assoc.
  - unfold from_fds. now rewrite (scan_join_spelled _ A B), C.
Qed.

Lemma concat_block (sep : string) (l1 l2 : list string) :
  l2 <> [] ->
  String.concat sep (l1 ++ l2) = String.concat sep (l1 ++ [String.concat sep l2]).
Proof.
  intros H. induction l1 as [|a l1 IH]; [reflexivity|].
  cbn [app]. rewrite !concat_cons, IH; [reflexivity | |].
  - now destruct l1.
  - destruct l1; [exact H | discriminate].
Qed.

Lemma plain_flat (l : list entry) :
  forallb plain l = true ->
  forallb recognized l = true /\ namelists_of l = [] /\ multis_of l = [].
Proof.
  induction l as [|x l IH]; intros H; [now repeat split|].
  cbn [forallb] in H. apply andb_prop in H as [Hx H].
  destruct (IH H) as (A & B & C).
  destruct x as [|q|m|[|i items] ms|m|r]; try discriminate Hx;
    unfold namelists_of, multis_of in *; cbn [forallb recognized flat_map app andb];
    now repeat split.
Qed.

(** X18: what [to_fds] writes, [from_fds] reads back. For a namelist
    with a group label whose elements are parameters, [None] or
    Flatten-groups of these, the parameters being as in X17 with tokens
    that each fit on a line after 6 spaces, [to_fds] returns the comment
    lines followed by one record [&LABEL], a body, and the closing
    [" /"]; and [from_fds] on that body hands to [FDSParam] the label and
    the values of each parameter of the namelist, in the order of the
    namelist, whatever way the tokens were put on lines. *)
Theorem record_round_trip
        (param_from_fds : string -> string -> (string * string) + FDSParam)
        (n : FDSNamelist) (label : string) (ps : list entry) (ms : list string) :
  truthy (Some label) = true ->
  forallb plain (flatten_all ps) = true ->
  forallb writable (params_of (flatten_all ps)) = true ->
  exists body n',
    to_fds (Namelist (Some label) ps ms)
    = Returned
        (String.concat LF
           (message_lines (ms ++ msgs_of (flatten_all ps))
            ++ [(String "&" label ++ body ++ " /")%string]))
        n' /\
    from_fds param_from_fds n body
    = append_params param_from_fds n
                    (map read_back (params_of (flatten_all ps))).
Proof.
  intros Hlabel Hplain Hw.
  destruct (plain_flat _ Hplain) as (Hrec & Hn & Hm).
  destruct (write_record_read_back param_from_fds n label _ Hw)
    as (body & Etext & Eread).
  assert (C : classify_all (mkAttrs [] [] None ms) ps
              = Returned tt (mkAttrs (params_of (flatten_all ps)) [] None
                                     (ms ++ msgs_of (flatten_all ps)))).
  { rewrite (classify_ok ps _ None Hrec); [|now rewrite Hm].
    cbn [_invariant_ps _additional_ns self_msgs app]. now rewrite Hn. }
  pose proof (additional_is_extend ps _ _ C eq_refl) as A.
  cbn [_additional_ns extend_additional snd] in A.
  rewrite to_fds_eq, C.
  destruct (additional_all ps ([], None)) as [ps' [texts exn]].
  cbn [snd] in A. injection A as -> ->.
  exists body, (Namelist (Some label) ps' (ms ++ msgs_of (flatten_all ps))).
  split; [|exact Eread]. f_equal.
  rewrite nls_of_no_multi by reflexivity.
  cbn [self_msgs _invariant_ps app namelist_lines flat_map].
  rewrite Hlabel, app_nil_r, <- Etext.
  apply concat_block. unfold write_record. now destruct (lines _).
Qed.

Lemma record_round_trip_witness :
  exists body n',
    to_fds quoted_case
    = Returned
        (String.concat LF
           ["! Generated"; "! box";
            (String "&" "OBST" ++ body ++ " /")%string])
        n' /\
    from_fds raw_param (Namelist (Some "OBST") [] []) body
    = append_params raw_param (Namelist (Some "OBST") [] [])
                    [("ID", "'a=b, c'"); ("XB", "0.000,1.000");
                     ("SURF_ID", "'INERT'")].
Proof.
  exact (record_round_trip raw_param (Namelist (Some "OBST") [] []) "OBST"
                           (fds_params quoted_case) ["Generated"]
                           eq_refl eq_refl eq_refl).
Defined.

(** * The records in the text *)

(** ** The text that a namelist returns *)

Lemma extend_additional_given (ns : list FDSNamelist) :
  forall t0 new,
    nested_texts ns new ->
    snd (extend_additional ns (t0, None)) = (t0 ++ new, None).
Proof.
  unfold nested_texts.
  induction ns as [|m r IH]; intros t0 new F; inversion F as [|? t ? new' T F']; subst.
  - simpl. now rewrite app_nil_r.
  - cbn [extend_additional snd fst].
    destruct (to_fds m) as [t' m'|e m']; [|discriminate T].
    cbn [text_of] in T. injection T as ->.
    specialize (IH (t0 ++ [t]) new' F').
    destruct (extend_additional r (t0 ++ [t], None)) as [r' acc'].
    cbn [snd] in *. now rewrite IH, <- app_assoc.
Qed.

Lemma extend_additional_raise (ns : list FDSNamelist) :
  forall t0 e,
    snd (snd (extend_additional ns (t0, None))) = Some e ->
    exists m m', In m ns /\ to_fds m = Raised e m'.
Proof.
  induction ns as [|m r IH]; intros t0 e H; [discriminate|].
  cbn [extend_additional snd fst] in H.
  destruct (to_fds m) as [t m'|e' m'] eqn:T.
  - destruct (extend_additional r (t0 ++ [t], None)) as [r' acc'] eqn:R.
    cbn [snd] in H.
    destruct (IH (t0 ++ [t]) e) as (m0 & m0' & I & E).
    { now rewrite R. }
    exists m0, m0'. split; [now right | exact E].
  - cbn [snd] in H. injection H as <-. exists m, m'. split; [now left | exact T].
Qed.

(** A namelist whose elements are classified and whose nested namelists
    return writes the comment lines, the nested texts and its records. *)
Lemma to_fds_written (label : option string) (ps : list entry)
      (ms : list string) (fin : option FDSMulti) (texts : list string) :
  forallb recognized (flatten_all ps) = true ->
  capture None (multis_of (flatten_all ps)) = Some fin ->
  nested_texts (namelists_of (flatten_all ps)) texts ->
  text_of (to_fds (Namelist label ps ms))
  = Some (String.concat LF
            (head_lines ps ms texts
             ++ namelist_lines label
                  (nls_of (mkAttrs (params_of (flatten_all ps))
                                   (namelists_of (flatten_all ps)) fin
                                   (ms ++ msgs_of (flatten_all ps)))))).
Proof.
  intros Hrec Hcap Hn. rewrite to_fds_eq.
  rewrite (classify_ok ps (mkAttrs [] [] None ms) fin Hrec Hcap).
  cbn [_invariant_ps _additional_ns self_msgs app].
  pose proof (additional_all_progress ps ([], None)) as A.
  rewrite (extend_additional_given _ [] texts Hn) in A.
  destruct (additional_all ps ([], None)) as [ps' [t x]].
  cbn [snd app] in A. injection A as -> ->.
  cbn [text_of]. unfold head_lines. now rewrite <- app_assoc.
Qed.

(** Such a namelist raises only what one of its nested namelists
    raises. *)
Lemma to_fds_nested_raise (label : option string) (ps : list entry)
      (ms : list string) (fin : option FDSMulti)
      (e : string * string) (n' : FDSNamelist) :
  forallb recognized (flatten_all ps) = true ->
  capture None (multis_of (flatten_all ps)) = Some fin ->
  to_fds (Namelist label ps ms) = Raised e n' ->
  exists m m', In m (namelists_of (flatten_all ps)) /\ to_fds m = Raised e m'.
Proof.
  intros Hrec Hcap R.
  apply to_fds_raised in R as [(a & R)|(a & _ & R)].
  - unfold init_attrs in R.
    rewrite (classify_ok ps (mkAttrs [] [] None ms) fin Hrec Hcap) in R.
    discriminate.
  - rewrite additional_all_progress in R.
    now apply extend_additional_raise in R.
Qed.

Lemma namelist_lines_records (label : string) (nls : list (list FDSParam)) :
  truthy (Some label) = true ->
  namelist_lines (Some label) nls = concat (map (write_record label) nls).
Proof.
  intros H. unfold namelist_lines. rewrite H. apply flat_map_concat_map.
Qed.

(** What [write_record] writes is the record of the parameters. *)
Lemma write_record_of (label : string) (nl : list FDSParam) :
  record_of label nl (write_record label nl).
Proof.
  split; [apply write_record_block|]. unfold write_record.
  rewrite squeeze_last_line, write_params_squeeze. cbn [open_record lines line].
  cbn [app glue fold_right]. rewrite append_empty_r.
  change (String "&" label ++ glue (map token (filter labelled nl)) ++ "/")%string
    with (String "&" label ++ (glue (map token (filter labelled nl)) ++ "/"))%string.
  now rewrite !squeeze_app, append_assoc.
Qed.

(** The text that a namelist returns, read backwards: the classification
    returned, every nested namelist returned its text, and the text is
    made of the head lines and the lines of the records. *)
Lemma to_fds_text_shape (label : option string) (ps : list entry)
      (ms : list string) (text : string) (n' : FDSNamelist) :
  to_fds (Namelist label ps ms) = Returned text n' ->
  exists a texts,
    classify_all (init_attrs ms) ps = Returned tt a /\
    nested_texts (namelists_of (flatten_all ps)) texts /\
    text = String.concat LF
             (head_lines ps ms texts ++ namelist_lines label (nls_of a)).
Proof.
  intros R. apply to_fds_returned in R as (a & texts & E & X & ->).
  destruct (classify_returned ps _ a E) as (_ & _ & _ & _ & M).
  cbn [init_attrs self_msgs] in M. rewrite M.
  rewrite additional_all_progress in X.
  destruct (extend_additional (namelists_of (flatten_all ps)) ([], None))
    as [ns' acc'] eqn:EA.
  cbn [snd] in X. subst acc'.
  apply extend_additional_texts in EA as (_ & new & -> & F).
  exists a, new. cbn [fst app]. split; [exact E|]. split.
  - unfold nested_texts. clear - F.
    induction F as [|m t ns new H _ IH]; constructor; [|exact IH].
    destruct (to_fds m); [now injection H as -> | discriminate].
  - unfold head_lines. now rewrite <- app_assoc.
Qed.

(** ** Multi expansion *)

(** C3: a namelist with a group label, recognized elements and exactly
    one Multi-group, of N >= 1 sub-groups, is written as N records: when
    the nested namelists return their texts, [to_fds] returns the comment
    lines and the nested texts followed by the lines of N records, in the
    order of the sub-groups. The k-th record is the record of the
    surviving invariant parameters in their order followed by the
    parameters of the k-th sub-group in their order: its lines open with
    [&LABEL], close with [" /"] and spell the tokens of exactly these
    parameters, in this order. [to_fds] raises only what a nested
    namelist raises. *)
Theorem multi_expansion (label : string) (ps : list entry) (ms : list string)
        (m : FDSMulti) (first : list FDSParam) (rest : list (list FDSParam)) :
  truthy (Some label) = true ->
  forallb recognized (flatten_all ps) = true ->
  multis_of (flatten_all ps) = [m] ->
  multi_ps m = first :: rest ->
  let invariant := surviving first (params_of (flatten_all ps)) in
  let records := map (fun multi_p => invariant ++ multi_p) (multi_ps m) in
  (forall texts,
      nested_texts (namelists_of (flatten_all ps)) texts ->
      text_of (to_fds (Namelist (Some label) ps ms))
      = Some (String.concat LF
                (head_lines ps ms texts
                 ++ concat (map (write_record label) records)))) /\
  length records = length (multi_ps m) /\
  (forall k, k < length (multi_ps m) ->
             nth k records [] = invariant ++ nth k (multi_ps m) []) /\
  Forall (fun nl => record_of label nl (write_record label nl)) records /\
  (forall e n',
      to_fds (Namelist (Some label) ps ms) = Raised e n' ->
      exists m0 m0',
        In m0 (namelists_of (flatten_all ps)) /\ to_fds m0 = Raised e m0').
Proof.
  intros Hl Hrec Hm Hg invariant records.
  assert (Hcap : capture None (multis_of (flatten_all ps)) = Some (Some m))
    by (rewrite Hm; reflexivity).
  split; [|split; [|split; [|split]]].
  - intros texts Hn.
    rewrite (to_fds_written (Some label) ps ms (Some m) texts Hrec Hcap Hn).
    rewrite (namelist_lines_records label _ Hl).
    match goal with
    | |- context [nls_of ?a] => rewrite (nls_of_multi a m first rest eq_refl Hg)
    end.
    reflexivity.
  - unfold records. now rewrite length_map.
  - intros k Hk. unfold records.
    rewrite (nth_indep _ [] (invariant ++ [])) by now rewrite length_map.
    apply (map_nth (fun multi_p => invariant ++ multi_p)).
  - apply Forall_forall. intros nl _. apply write_record_of.
  - intros e n' R. exact (to_fds_nested_raise _ ps ms _ e n' Hrec Hcap R).
Qed.

Lemma multi_expansion_witness :
  text_of (to_fds (Namelist (Some "OBST") obst_entries ["two boxes"]))
  = Some (String.concat LF
      [ "! two boxes";
        "&OBST SURF_ID='INERT' ID='A' XB=0.000,1.000,0.000,1.000,0.000,1.000 /";
        "&OBST SURF_ID='INERT' ID='B' XB=0.000,1.000,0.000,1.000,0.000,1.000 /" ])
  /\
  Forall (fun nl => record_of "OBST" nl (write_record "OBST" nl))
         [[SURF_INERT; ID_A; XB_unit]; [SURF_INERT; ID_B; XB_unit]].
Proof.
  destruct (multi_expansion "OBST" obst_entries ["two boxes"] two_obst
              [ID_A; XB_unit] [[ID_B; XB_unit]] eq_refl eq_refl eq_refl eq_refl)
    as (T & _ & _ & R & _).
  split; [|exact R]. apply (T []). constructor.
Defined.

(** ** Shadowing *)

(** C4: in a namelist with a group label whose classification captures a
    Multi-group with a first sub-group, an invariant parameter is kept
    exactly when its label is not a label of the first sub-group. When
    the nested namelists return, [to_fds] returns the comment lines and
    the nested texts followed by one record per sub-group, the record of
    the kept parameters followed by the parameters of the sub-group: its
    lines spell the tokens of exactly these parameters, so that a
    parameter written in a record under a shadowed label is a parameter
    of the sub-group, never an invariant one. *)
Theorem shadowing (label : string) (ps : list entry) (ms : list string)
        (m : FDSMulti) (first : list FDSParam) (rest : list (list FDSParam)) :
  truthy (Some label) = true ->
  forallb recognized (flatten_all ps) = true ->
  capture None (multis_of (flatten_all ps)) = Some (Some m) ->
  multi_ps m = first :: rest ->
  let invariant := params_of (flatten_all ps) in
  let shadowed p :=
    In (FDSParam.fds_label p) (map FDSParam.fds_label first) in
  let kept := surviving first invariant in
  (forall p, In p kept <-> In p invariant /\ ~ shadowed p) /\
  (forall texts,
      nested_texts (namelists_of (flatten_all ps)) texts ->
      text_of (to_fds (Namelist (Some label) ps ms))
      = Some (String.concat LF
                (head_lines ps ms texts
                 ++ concat (map (fun multi_p => write_record label (kept ++ multi_p))
                                (multi_ps m))))) /\
  (forall multi_p,
      In multi_p (multi_ps m) ->
      record_of label (kept ++ multi_p) (write_record label (kept ++ multi_p)) /\
      Forall (fun p => ~ shadowed p) kept /\
      (forall p, In p (kept ++ multi_p) -> shadowed p -> In p multi_p)).
Proof.
  intros Hl Hrec Hcap Hg invariant shadowed kept.
  assert (K : forall p, In p kept <-> In p invariant /\ ~ shadowed p).
  { intros q. unfold kept, surviving. rewrite filter_In, negb_true_iff.
    unfold shadowed. rewrite <- label_in_spec.
    destruct (label_in _ _); intuition congruence. }
  split; [exact K|]. split.
  - intros texts Hn.
    rewrite (to_fds_written (Some label) ps ms (Some m) texts Hrec Hcap Hn).
    rewrite (namelist_lines_records label _ Hl).
    match goal with
    | |- context [nls_of ?a] => rewrite (nls_of_multi a m first rest eq_refl Hg)
    end.
    now rewrite map_map.
  - intros multi_p _. split; [apply write_record_of|]. split.
    + apply Forall_forall. intros p Hp. now apply K in Hp.
    + intros p Hp Hs. apply in_app_or in Hp as [Hp|Hp]; [|exact Hp].
      apply K in Hp. tauto.
Qed.

Lemma shadowing_witness :
  text_of (to_fds (Namelist (Some "OBST") obst_entries []))
  = Some (String.concat LF
      [ "&OBST SURF_ID='INERT' ID='A' XB=0.000,1.000,0.000,1.000,0.000,1.000 /";
        "&OBST SURF_ID='INERT' ID='B' XB=0.000,1.000,0.000,1.000,0.000,1.000 /" ])
  /\
  (In ID_inv (params_of (flatten_all obst_entries)) /\
   ~ In ID_inv (surviving [ID_A; XB_unit] (params_of (flatten_all obst_entries))))
  /\
  record_of "OBST" [SURF_INERT; ID_B; XB_unit]
            (write_record "OBST" [SURF_INERT; ID_B; XB_unit]).
Proof.
  destruct (shadowing "OBST" obst_entries [] two_obst
              [ID_A; XB_unit] [[ID_B; XB_unit]] eq_refl eq_refl eq_refl eq_refl)
    as (K & T & R).
  split; [apply (T []); constructor|]. split.
  - split; [simpl; tauto|]. intros H. apply K in H as [_ H].
    apply H. simpl. tauto.
  - apply (R [ID_B; XB_unit]). simpl. tauto.
Defined.

(** ** A Multi-group without sub-groups *)

(** C6, as amended: in a namelist with a group label and recognized
    elements whose only Multi-group has no sub-group, classification
    returns and the Multi-group adds nothing but its messages; when the
    nested namelists return, [to_fds] returns the comment lines and the
    nested texts followed by exactly one record, the record of the
    invariant parameters in their order; [to_fds] raises only what a
    nested namelist raises. *)
Theorem empty_multi_accepted (label : string) (ps : list entry)
        (ms : list string) (m : FDSMulti) :
  truthy (Some label) = true ->
  forallb recognized (flatten_all ps) = true ->
  multis_of (flatten_all ps) = [m] ->
  multi_ps m = [] ->
  let nl := params_of (flatten_all ps) in
  (forall texts,
      nested_texts (namelists_of (flatten_all ps)) texts ->
      text_of (to_fds (Namelist (Some label) ps ms))
      = Some (String.concat LF (head_lines ps ms texts ++ write_record label nl))) /\
  record_of label nl (write_record label nl) /\
  (exists a,
      classify_all (init_attrs ms) ps = Returned tt a /\
      nls_of a = [nl] /\
      self_msgs a = ms ++ msgs_of (flatten_all ps)) /\
  (forall e n',
      to_fds (Namelist (Some label) ps ms) = Raised e n' ->
      exists m0 m0',
        In m0 (namelists_of (flatten_all ps)) /\ to_fds m0 = Raised e m0').
Proof.
  intros Hl Hrec Hm Hempty nl.
  assert (Hcap : capture None (multis_of (flatten_all ps)) = Some (Some m))
    by (rewrite Hm; reflexivity).
  assert (N : forall a, _multi_ps a = Some m -> nls_of a = [_invariant_ps a]).
  { intros a Ha. apply nls_of_no_multi. rewrite Ha.
    destruct m as [groups mm]. simpl in Hempty. now subst groups. }
  split; [|split; [apply write_record_of|split]].
  - intros texts Hn.
    rewrite (to_fds_written (Some label) ps ms (Some m) texts Hrec Hcap Hn).
    rewrite (namelist_lines_records label _ Hl).
    match goal with
    | |- context [nls_of ?a] => rewrite (N a eq_refl)
    end.
    cbn [_invariant_ps map concat]. now rewrite app_nil_r.
  - eexists. split; [exact (classify_ok ps (init_attrs ms) (Some m) Hrec Hcap)|].
    cbn [init_attrs _invariant_ps self_msgs app]. split; [|reflexivity].
    match goal with
    | |- nls_of ?a = _ => now rewrite (N a eq_refl)
    end.
  - intros e n' R. exact (to_fds_nested_raise _ ps ms _ e n' Hrec Hcap R).
Qed.

Lemma empty_multi_accepted_witness :
  text_of (to_fds (Namelist (Some "OBST")
                            [PParam ID_A; PMulti (mkMulti [] ["mm"])] ["m"]))
  = Some (String.concat LF ["! m"; "! mm"; "&OBST ID='A' /"]) /\
  record_of "OBST" [ID_A] ["&OBST ID='A' /"].
Proof.
  destruct (empty_multi_accepted "OBST"
              [PParam ID_A; PMulti (mkMulti [] ["mm"])] ["m"] (mkMulti [] ["mm"])
              eq_refl eq_refl eq_refl eq_refl) as (T & R & _).
  split; [apply (T []); constructor | exact R].
Defined.

(** C6, as stated, fails: a Multi-group without sub-groups is accepted. *)
Lemma empty_multi_not_rejected :
  to_fds (Namelist (Some "OBST") [PParam ID_A; PMulti (mkMulti [] [])] [])
  = Returned "&OBST ID='A' /"
             (Namelist (Some "OBST") [PParam ID_A; PMulti (mkMulti [] [])] []).
Proof. reflexivity. Qed.

(** Without a group label no record is written at all: the comment lines
    are all there is. *)
Example empty_multi_without_label :
  to_fds (Namelist None [PParam ID_A; PMulti (mkMulti [] ["mm"])] ["m"])
  = Returned (String.concat LF ["! m"; "! mm"])
             (Namelist None [PParam ID_A; PMulti (mkMulti [] ["mm"])] ["m"; "mm"]).
Proof. reflexivity. Qed.

(** ** Column budget *)

(** C2, as amended: when a namelist with a group label of less than 80
    characters is written and every parameter is small, the text is the
    comment lines and the texts of the nested namelists, which are not
    wrapped here, followed by the lines of its records, one block per
    record of the classification; and in every one of these blocks each
    line is within 80 columns, the last one measured before the closing
    [" /"] that is appended to it. *)
Theorem column_budget (n n' : FDSNamelist) (label text : string) :
  to_fds n = Returned text n' ->
  fds_label n = Some label ->
  truthy (Some label) = true ->
  1 + String.length label <= MAXLEN ->
  (forall p, In p (params_of (flatten_all (fds_params n))) -> small_param p) ->
  (forall m g p, In m (multis_of (flatten_all (fds_params n))) ->
                 In g (multi_ps m) -> In p g -> small_param p) ->
  exists a texts,
    classify_all (init_attrs (msgs n)) (fds_params n) = Returned tt a /\
    nested_texts (namelists_of (flatten_all (fds_params n))) texts /\
    text = String.concat LF
             (head_lines (fds_params n) (msgs n) texts
              ++ concat (map (write_record label) (nls_of a))) /\
    Forall record_within (map (write_record label) (nls_of a)) /\
    Forall (fun nl => record_of label nl (write_record label nl)) (nls_of a).
Proof.
  destruct n as [l ps ms]. cbn [fds_label fds_params msgs].
  intros R -> Hl Hlabel Hinv Hmulti.
  apply to_fds_text_shape in R as (a & texts & E & F & ->).
  destruct (classify_returned ps _ a E) as (_ & Hcap & Hi & _).
  simpl in Hcap, Hi.
  exists a, texts. split; [exact E|]. split; [exact F|]. split.
  - now rewrite (namelist_lines_records label _ Hl).
  - split; [|apply Forall_forall; intros nl _; apply write_record_of].
    apply Forall_map, Forall_forall. intros nl Hnl.
    apply write_record_within; [exact Hlabel|]. apply Forall_forall.
    intros p Hp. unfold nls_of in Hnl.
    assert (Hplain : nl = _invariant_ps a -> small_param p).
    { intros ->. apply Hinv. now rewrite <- Hi. }
    destruct (_multi_ps a) as [[[|first rest] mm]|] eqn:Hm;
      try (destruct Hnl as [<-|[]]; now apply Hplain).
    apply in_map_iff in Hnl as (g & <- & Hg).
    apply in_app_or in Hp as [Hp|Hp].
    + apply filter_In in Hp as [Hp _]. apply Hinv. now rewrite <- Hi.
    + apply capture_member in Hcap as [C|C]; [discriminate|].
      exact (Hmulti _ g p C Hg Hp).
Qed.

Lemma column_budget_witness :
  Forall record_within
         [[ "&OBST ID=123456789012345678901234567890123456";
            "      XB=0.000,1.000,0.000,1.000,0.000,1.000 /" ]] /\
  text_of (to_fds padded_case)
  = Some (String.concat LF
            [ "! padded";
              "&OBST ID=123456789012345678901234567890123456";
              "      XB=0.000,1.000,0.000,1.000,0.000,1.000 /" ]).
Proof.
  destruct (column_budget padded_case
              padded_case
              "OBST"
              (String.concat LF
                 [ "! padded";
                   "&OBST ID=123456789012345678901234567890123456";
                   "      XB=0.000,1.000,0.000,1.000,0.000,1.000 /" ])
              eq_refl eq_refl eq_refl)
    as (a & texts & E & _ & _ & W & _).
  - vm_compute. lia.
  - intros p Hp. simpl in Hp. unfold small_param.
    destruct Hp as [<-|[<-|[]]]; (split; [vm_compute; lia|]);
      repeat constructor; vm_compute; lia.
  - intros m g p Hm. simpl in Hm. contradiction.
  - injection E as <-. split; [exact W | reflexivity].
Defined.

(** C2, as stated, fails: a value is never split, so a value of 80
    characters gives a line of 88 characters, or 90 with the closing
    [" /"]. *)
Lemma wide_value_overflows :
  to_fds (Namelist (Some "OBST") [PParam ID_wide] [])
  = Returned (String.concat LF [ "&OBST"; "      ID=";
                                 ("        " ++ v80 ++ " /")%string ])
             (Namelist (Some "OBST") [PParam ID_wide] []) /\
  MAXLEN < String.length ("        " ++ v80) /\
  String.length ("        " ++ v80 ++ " /") = 90.
Proof.
  split; [reflexivity|]. split; [vm_compute; lia | reflexivity].
Qed.

(** ** Greedy packing over a record *)

(** The flag [newline] goes up exactly when the values of a parameter are
    split, and never comes down. *)
Lemma newline_after (w : writer) (p : FDSParam) :
  labelled p = true ->
  (newline (write_param w p) = true <-> newline w = true \/ is_split w p).
Proof.
  intros Hl. split.
  - intros H. rewrite (write_param_eq w p Hl) in H.
    destruct (newline w) eqn:Hn; [now left|]. right. cbn [negb andb] in H.
    destruct (Nat.leb_spec (String.length (line w) + 1 + String.length (token p))
                           MAXLEN) as [Hfit|Hover]; [discriminate H|].
    destruct (FDSParam.formatted_values p) as [|v vs] eqn:Hv;
      [cbn [newline] in H; congruence|].
    destruct (Nat.leb_spec (6 + String.length (token p)) MAXLEN) as [Hf|Hf];
      [cbn [newline] in H; congruence|].
    unfold is_split. rewrite Hv. repeat split; [discriminate | now right | exact Hf].
  - intros [Hn|Hs]; [|exact (split_sets_newline w p Hl Hs)].
    rewrite (write_param_eq w p Hl), Hn. cbn [negb andb].
    destruct (FDSParam.formatted_values p) as [|v vs]; [reflexivity|].
    destruct (6 + String.length (token p) <=? MAXLEN); [reflexivity|].
    unfold split_writer. now destruct (split_values _ _).
Qed.

Lemma newline_after_all (nl : list FDSParam) :
  forall w,
    newline (fold_left write_param nl w) = true
    <-> newline w = true \/ splits w nl.
Proof.
  induction nl as [|p r IH]; intros w; cbn [fold_left splits]; [tauto|].
  rewrite IH. destruct (labelled p) eqn:Hl.
  - rewrite (newline_after w p Hl). tauto.
  - rewrite (write_param_unlabelled w p Hl). split; [tauto|].
    intros [H|[[H _]|H]]; [now left | discriminate | now right].
Qed.

(** C7, as amended: a record is written from a writer whose flag
    [newline] is down, as [&LABEL] is. For a parameter with a label that
    comes after the parameters [before], the flag is up exactly when the
    values of one of these were split. While none was split, the full
    token is appended to the current line exactly when current length + 1
    + token length <= 80, and otherwise the line is flushed and the
    parameter starts a new line indented with 6 spaces; a line that was
    flushed in this way does not change what comes next. Once the values
    of a parameter were split, every later parameter starts a new line,
    whatever its length. *)
Theorem greedy_packing (w0 : writer) (before : list FDSParam) (p : FDSParam) :
  newline w0 = false ->
  truthy (FDSParam.fds_label p) = true ->
  let w := fold_left write_param before w0 in
  (newline w = true <-> splits w0 before) /\
  (~ splits w0 before ->
   String.length (line w) + 1 + String.length (token p) <= MAXLEN ->
   write_param w p = mkWriter (lines w) (line w ++ " " ++ token p) false) /\
  (~ splits w0 before ->
   MAXLEN < String.length (line w) + 1 + String.length (token p) ->
   flushed w (write_param w p) p) /\
  (splits w0 before -> flushed w (write_param w p) p).
Proof.
  intros H0 Ht w.
  assert (F : newline w = true <-> splits w0 before).
  { unfold w. rewrite newline_after_all, H0. split; [|tauto].
    intros [H|H]; [discriminate | exact H]. }
  split; [exact F|]. split; [|split].
  - intros Hno Hfit.
    assert (Hn : newline w = false).
    { destruct (newline w); [|reflexivity]. now destruct Hno; apply F. }
    rewrite write_param_eq, Hn by exact Ht.
    apply Nat.leb_le in Hfit. now rewrite Hfit.
  - intros _ Hover. apply write_param_flushes; [exact Ht|].
    apply andb_false_iff. right. apply Nat.leb_gt. lia.
  - intros Hs. apply write_param_flushes; [exact Ht|].
    apply F in Hs. now rewrite Hs.
Qed.

Lemma greedy_packing_witness :
  write_param (fold_left write_param [ID_pad; XB_unit] (open_record "OBST")) ID_A
  = mkWriter [ "&OBST ID=123456789012345678901234567890123456" ]
             "      XB=0.000,1.000,0.000,1.000,0.000,1.000 ID='A'" false /\
  flushed (open_record "OBST") (write_param (open_record "OBST") X_long) X_long /\
  flushed (write_param (open_record "OBST") X_long)
          (write_param (write_param (open_record "OBST") X_long) ID_A) ID_A.
Proof.
  split; [|split].
  - apply (proj1 (proj2 (greedy_packing (open_record "OBST") [ID_pad; XB_unit]
                                        ID_A eq_refl eq_refl))).
    + intros [[_ (_ & _ & H)]|[[_ (_ & _ & H)]|[]]]; vm_compute in H; lia.
    + vm_compute. lia.
  - apply (proj1 (proj2 (proj2 (greedy_packing (open_record "OBST") [] X_long
                                               eq_refl eq_refl)))).
    + intros [].
    + vm_compute. lia.
  - apply (proj2 (proj2 (proj2 (greedy_packing (open_record "OBST") [X_long] ID_A
                                               eq_refl eq_refl)))).
    left. split; [reflexivity|].
    split; [discriminate|]. split; [right|]; vm_compute; lia.
Defined.

(** C7, as stated, fails: after a parameter whose values were split, a
    token that fits on the current line is put on a new line all the
    same. *)
Lemma fitting_token_not_appended :
  let w := write_param (open_record "OBST") X_long in
  String.length (line w) + 1 + String.length (token ID_A) <= MAXLEN /\
  write_param w ID_A
  = mkWriter [ "&OBST"; ("      X=" ++ v36 ++ ",")%string; ("        " ++ v37)%string ]
             "      ID='A'" true /\
  write_param w ID_A <> mkWriter (lines w) (line w ++ " " ++ token ID_A) false.
Proof.
  split; [vm_compute; lia|]. split; [reflexivity|].
  intros H. discriminate H.
Qed.
